(** * exllamav2: ext_stloader.cpp

    A verification development for the safetensors loader extension:
    [stloader_read] (a multi-threaded segment loader), [tensor_remap] and
    [tensor_remap_4bit] (in-place column gathers on a row-major matrix).

    Conventions.
    - [size_t] values are [Z] with the wrap-around modulo 2^64 written out;
      [uint32_t] values are [Z] with the wrap-around modulo 2^32 written out;
      an [int] holds the low 32 bits of what is stored in it, as a signed
      number.
    - C arrays are lists; every load and store goes through a bounds-checked
      access, and an access outside the array ends the call as [Undefined]
      (undefined behaviour in the C source).
    - A [TORCH_CHECK] that fails throws: the call ends as [Raised]. *)

From Stdlib Require Import ZArith Lia List Strings.Byte.
From stdpp Require Import base list strings.

Local Open Scope Z_scope.

(** ** Machine integers *)

Definition wrap32 (x : Z) : Z := x mod 2 ^ 32.
Definition wrap64 (x : Z) : Z := x mod 2 ^ 64.

(** [(int) x] for a 64-bit value [x]. *)
Definition to_int (x : Z) : Z := (x + 2 ^ 31) mod 2 ^ 32 - 2 ^ 31.

(** How a call ends: it returns, a [TORCH_CHECK] throws, or the call runs
    into undefined behaviour (an access outside an array, a division by
    zero). *)
Inductive outcome :=
  | Returned
  | Raised (msg : string)
  | Undefined.

(** ** Tensors as the remappers see them *)

Module Remap.

(** torch scalar types; only [kInt] is accepted by the remappers. *)
Inductive ScalarType := kByte | kChar | kShort | kInt | kLong | kHalf | kFloat.

Global Instance ScalarType_eq_dec : EqDecision ScalarType.
Proof. solve_decision. Defined.

(** A contiguous tensor: its dtype, its shape and its storage. The storage
    of a [kInt] tensor is listed through the [uint32_t*] view the code takes
    of [data_ptr()]. *)
Record Tensor := mkTensor {
  dtype : ScalarType;
  sizes : list Z;
  data : list Z
}.

(** [t.size(d)] *)
Definition size (t : Tensor) (d : nat) : option Z := sizes t !! d.

(** Modelled from the spec: the macro [TORCH_CHECK_SHAPES] of cpp/util.h,
    which is not part of the source tree. The remap "fails if the index
    length does not equal the number of columns", and for the packed variant
    [logicalCols == packedCols * 8]: the check compares dimension [dx] of
    [x] with [scale] times dimension [dy] of [y]. *)
Definition TORCH_CHECK_SHAPES (x : Tensor) (dx : nat) (y : Tensor) (dy : nat)
    (scale : Z) : bool :=
  match size x dx, size y dy with
  | Some sx, Some sy => bool_decide (sx = sy * scale)
  | _, _ => false
  end.

(** Modelled from the spec: the macro [TORCH_CHECK_DTYPE] of cpp/util.h,
    which is not part of the source tree; the matrix holds 32-bit values. *)
Definition TORCH_CHECK_DTYPE (x : Tensor) (ty : ScalarType) : bool :=
  bool_decide (dtype x = ty).

(** [memcpy(temp, a, sizeof(uint32_t) * n)] with [a] pointing at word [p]. *)
Definition read_words (a : list Z) (p n : nat) : option (list Z) :=
  if decide (p + n ≤ length a)%nat then Some (take n (drop p a)) else None.

(** [*a++ = v] with [a] pointing at word [p]. *)
Definition store_word (a : list Z) (p : nat) (v : Z) : option (list Z * nat) :=
  if decide (p < length a)%nat then Some (<[p := v]> a, S p) else None.

(** *** tensor_remap *)

(** [for (c; c < cols; ++c) *a++ = temp[idx[c]];] with [n] iterations left.
    The state is the matrix storage and the position of the pointer [a]. *)
Fixpoint remap_cols (temp idx : list Z) (n c : nat) (st : list Z * nat)
    : option (list Z * nat) :=
  match n with
  | O => Some st
  | S n' =>
      i ← idx !! c;
      v ← temp !! Z.to_nat i;
      st' ← store_word st.1 st.2 v;
      remap_cols temp idx n' (S c) st'
  end.

(** [for (r; r < rows; ++r) { memcpy(temp, a, ...); for (c ...) ... }] *)
Fixpoint remap_rows (idx : list Z) (cols : nat) (n : nat) (st : list Z * nat)
    : option (list Z * nat) :=
  match n with
  | O => Some st
  | S n' =>
      temp ← read_words st.1 st.2 cols;
      st' ← remap_cols temp idx cols 0 st;
      remap_rows idx cols n' st'
  end.

(** Lines 299-313, the body after the checks: [None] is an access outside
    an array. [rows] and [cols] are [int]s. [scratch] says whether [calloc]
    hands out the buffer [temp] or the null pointer, which the code does not
    test; a negative [cols] is, as a [size_t], a count no heap serves. With
    a row to visit, the [memcpy] of line 307 then has no buffer to write
    to, and a length beyond every array. *)
Definition tensor_remap_body (scratch : bool) (tensor index : Tensor)
    : option (list Z) :=
  rows ← to_int <$> size tensor 0;
  cols ← to_int <$> size tensor 1;
  if decide (0 < rows ∧ ¬ (0 ≤ cols ∧ scratch = true)) then None
  else
    st ← remap_rows (data index) (Z.to_nat cols) (Z.to_nat rows) (data tensor, O);
    Some st.1.

Definition with_data (t : Tensor) (d : list Z) : Tensor :=
  {| dtype := dtype t; sizes := sizes t; data := d |}.

(** [tensor_remap(tensor, index)] on a heap that has, or has not, the
    scratch buffer: how the call ends and the tensor afterwards. *)
Definition tensor_remap_in (scratch : bool) (tensor index : Tensor)
    : outcome * Tensor :=
  if negb (TORCH_CHECK_SHAPES tensor 1 index 0 1) then
    (Raised "tensor and index have incompatible shapes", tensor)
  else if negb (TORCH_CHECK_DTYPE tensor kInt) then
    (Raised "tensor is incorrect datatype, must be kInt", tensor)
  else if negb (TORCH_CHECK_DTYPE index kInt) then
    (Raised "index is incorrect datatype, must be kInt", tensor)
  else
    match tensor_remap_body scratch tensor index with
    | Some d => (Returned, with_data tensor d)
    | None => (Undefined, tensor)
    end.

(** The call whose [calloc] hands out the scratch buffer. *)
Definition tensor_remap (tensor index : Tensor) : outcome * Tensor :=
  tensor_remap_in true tensor index.

(** *** tensor_remap_4bit *)

(** [(w >> (k * 4)) & 0x0f] *)
Definition nibble (w k : Z) : Z := Z.land (Z.shiftr w (k * 4)) 15.

(** [for (b; b < 8; ++b, ++c) { i = idx[c]; v = temp[i / 8] >> ((i & 7) * 4) & 0x0f;
    rv |= v << (b * 4); }] with [n] iterations left. *)
Fixpoint remap4_slots (temp idx : list Z) (n : nat) (b : Z) (c : nat) (rv : Z)
    : option (Z * nat) :=
  match n with
  | O => Some (rv, c)
  | S n' =>
      i ← idx !! c;
      w ← temp !! Z.to_nat (i / 8);
      let v := Z.land (Z.shiftr w (Z.land i 7 * 4)) 15 in
      remap4_slots temp idx n' (b + 1) (S c) (Z.lor rv (wrap32 (Z.shiftl v (b * 4))))
  end.

(** [for (c = 0; c < cols;) { rv = 0; for (b ...) ...; *a++ = rv; }]. The
    loop is bounded by [fuel]; [cols] iterations always suffice since [c]
    grows by 8 in each of them. *)
Fixpoint remap4_cols (temp idx : list Z) (cols : nat) (fuel : nat) (c : nat)
    (st : list Z * nat) : option (list Z * nat) :=
  if decide (c < cols)%nat then
    match fuel with
    | O => None
    | S fuel' =>
        '(rv, c') ← remap4_slots temp idx 8 0 c 0;
        st' ← store_word st.1 st.2 rv;
        remap4_cols temp idx cols fuel' c' st'
    end
  else Some st.

(** [memcpy(temp, a, sizeof(uint32_t) * cols / 8)]: [4 * cols / 8] bytes,
    which is [cols / 8] whole words and, when 8 does not divide [cols], half
    of the next one (the shape check excludes that case). *)
Fixpoint remap4_rows (idx : list Z) (cols : nat) (n : nat) (st : list Z * nat)
    : option (list Z * nat) :=
  match n with
  | O => Some st
  | S n' =>
      temp ← read_words st.1 st.2 (cols / 8);
      st' ← remap4_cols temp idx cols cols 0 st;
      remap4_rows idx cols n' st'
  end.

(** Lines 326-347, the body after the checks. [rows] and [cols] are
    [int]s, and [scratch] is the answer of [calloc], as for the dense
    remapper: with a row to visit and a negative [cols], the length of the
    [memcpy] of line 334 is beyond every array. *)
Definition tensor_remap_4bit_body (scratch : bool) (tensor index : Tensor)
    : option (list Z) :=
  rows ← to_int <$> size tensor 0;
  cols ← to_int <$> size index 0;
  if decide (0 < rows ∧ ¬ (0 ≤ cols ∧ scratch = true)) then None
  else
    st ← remap4_rows (data index) (Z.to_nat cols) (Z.to_nat rows) (data tensor, O);
    Some st.1.

Definition tensor_remap_4bit_in (scratch : bool) (tensor index : Tensor)
    : outcome * Tensor :=
  if negb (TORCH_CHECK_SHAPES index 0 tensor 1 8) then
    (Raised "index and tensor have incompatible shapes", tensor)
  else if negb (TORCH_CHECK_DTYPE tensor kInt) then
    (Raised "tensor is incorrect datatype, must be kInt", tensor)
  else if negb (TORCH_CHECK_DTYPE index kInt) then
    (Raised "index is incorrect datatype, must be kInt", tensor)
  else
    match tensor_remap_4bit_body scratch tensor index with
    | Some d => (Returned, with_data tensor d)
    | None => (Undefined, tensor)
    end.

(** The call whose [calloc] hands out the scratch buffer. *)
Definition tensor_remap_4bit (tensor index : Tensor) : outcome * Tensor :=
  tensor_remap_4bit_in true tensor index.

(** *** Well-formed arguments *)

(** A dimension that an [int] holds. *)
Definition fits_int (n : nat) : Prop := Z.of_nat n < 2 ^ 31.

(** A [rows] x [cols] matrix of 32-bit values, stored contiguously, with
    dimensions that fit the [int]s of lines 299-300 and 326. *)
Definition is_matrix (t : Tensor) (rows cols : nat) : Prop :=
  dtype t = kInt ∧ sizes t = [Z.of_nat rows; Z.of_nat cols] ∧
  length (data t) = (rows * cols)%nat ∧
  Forall (λ w, 0 ≤ w < 2 ^ 32) (data t) ∧
  fits_int rows ∧ fits_int cols.

(** An index vector of [n] entries, each of them below [bound], with a length
    that fits the [int] of line 327. *)
Definition is_index (t : Tensor) (n : nat) (bound : Z) : Prop :=
  dtype t = kInt ∧ sizes t = [Z.of_nat n] ∧ length (data t) = n ∧
  Forall (λ i, 0 ≤ i < bound) (data t) ∧
  fits_int n.

(** The identity permutation on [n] columns. *)
Definition identity_index (n : nat) : Tensor :=
  {| dtype := kInt; sizes := [Z.of_nat n]; data := Z.of_nat <$> seq 0 n |}.

(** Row [r] of a matrix storage with [cols] words per row. *)
Definition row (d : list Z) (cols r : nat) : list Z := take cols (drop (r * cols) d).

(** The gather of a row: entry [c] is the entry [idx[c]] of [src]. *)
Definition gather_row (src idx : list Z) : list Z :=
  (λ i, default 0 (src !! Z.to_nat i)) <$> idx.

(** What the slot loop leaves in a word assembled for the eight columns from
    [c] on: slot [b] holds the nibble [idx[c + b] % 8] of the scratch word
    [idx[c + b] / 8], and nothing lies above the eight slots. *)
Definition assembled (temp idx : list Z) (c : nat) (rv : Z) : Prop :=
  (∀ b : nat, (b < 8)%nat → ∃ i w, idx !! (c + b)%nat = Some i ∧
      temp !! Z.to_nat (i / 8) = Some w ∧ nibble rv (Z.of_nat b) = nibble w (i mod 8)) ∧
  (∀ k, 8 ≤ k → nibble rv k = 0).

(** The examples of the specification: one row of eight columns, the
    reversal of eight columns, and one packed word of the nibbles 1 to 8. *)
Definition example_row : Tensor := mkTensor kInt [1; 8] [10; 11; 12; 13; 14; 15; 16; 17].
Definition example_reversal : Tensor := mkTensor kInt [8] [7; 6; 5; 4; 3; 2; 1; 0].
Definition example_packed : Tensor := mkTensor kInt [1; 1] [0x87654321].
Definition example_repeats : Tensor := mkTensor kInt [8] [3; 3; 3; 0; 0; 7; 7; 7].
Definition example_short_index : Tensor := mkTensor kInt [7] [6; 5; 4; 3; 2; 1; 0].

End Remap.

(** ** The segment loader *)

(** [stloader_read] runs three pools of threads next to the calling thread:
    the chunk readers of lines 45-66, the load workers of lines 191-235 and
    the copy workers of lines 238-242. The model is a state machine over the
    variables the threads share. A schedule, the list of the threads picked
    one after the other, drives it: each pick lets one thread take one step,
    and a step holds at most one access to the shared variables (one
    critical section on [mtx], or one read or write of a flag) together with
    the thread's own work around it. Memory is sequentially consistent. A
    thread waiting on the condition variable may be picked at any time and
    stays where it is while its predicate is false, which covers every
    order of wake-ups. The theorems hold for every schedule. *)

Module Loader.

(** The constants of ext_stloader.h, which is not part of the source tree:
    they are parameters of the development. *)
Record config := mkConfig {
  STLOADER_THREADS : Z;
  STLOADER_BLOCK_SIZE : Z;
  STLOADER_COPY_THREADS : Z
}.

(** [torch::Tensor target]: whether its device is the CPU, and the bytes of
    its storage. *)
Record Target := mkTarget {
  target_cpu : bool;
  target_data : list byte
}.

(** What the call finds outside itself: the file named [filename] ([None]
    when [fopen] fails), the block [malloc(size)] hands out ([None] for a
    null pointer; its contents are whatever the heap holds), and the blocks
    whose [cudaMemcpyAsync] reports an error, by their start. *)
Record World := mkWorld {
  fs_file : option (list byte);
  malloc_block : option (list byte);
  cuda_fails : Z → bool
}.

(** [(ssize_t) x] for a [size_t] value [x]. *)
Definition to_ssize (x : Z) : Z := if decide (x < 2 ^ 63) then x else x - 2 ^ 64.

(** [pread(fd, buf, count, off)]: the number of bytes read and the bytes
    themselves. [off] is an [off_t]: a [size_t] above 2^63 - 1 is a negative
    offset, which is refused with -1. At the end of the file the read is
    short, and nowhere else: the most that Linux hands over in one call is
    in [LoaderRuns.pread_linux]. *)
Definition pread (file : list byte) (count off : Z) : Z * list byte :=
  if decide (2 ^ 63 ≤ off) then (-1, [])
  else
    let d := take (Z.to_nat count) (drop (Z.to_nat off) file) in
    (Z.of_nat (length d), d).

(** Storing the bytes [d] at [buf + pos]; [None] when they do not fit. *)
Definition write_at (buf : list byte) (pos : Z) (d : list byte) : option (list byte) :=
  if decide (0 ≤ pos ∧ (Z.to_nat pos + length d ≤ length buf)%nat) then
    Some (take (Z.to_nat pos) buf ++ d ++ drop (Z.to_nat pos + length d) buf)
  else None.

(** The bytes of [buf] over [[a, b)]. *)
Definition slice (buf : list byte) (a b : Z) : list byte :=
  take (Z.to_nat (b - a)) (drop (Z.to_nat a) buf).

(** Thread states. A chunk reader (lines 46-65) runs its body once. *)
Inductive rthread := RReady | RDone.

(** A load worker (lines 193-233) is about to open the file, at the head of
    its loop, holding a block it has read and not yet queued, or gone. *)
Inductive lthread :=
  | LStart (pos_a : Z)
  | LLoop (pos_a : Z)
  | LPush (pos_a pos_b : Z)
  | LExit.

(** A copy worker (lines 131-186) is at [cv.wait], holding a block it has
    popped and not yet copied, or gone. *)
Inductive cthread :=
  | CWait
  | CCopy (pos_a pos_b : Z)
  | CExit.

(** Where the calling thread is: joining the chunk readers (line 67), the
    load workers (line 245), the copy workers (line 264), or out of the
    call. *)
Inductive main_pc :=
  | JoinRead
  | JoinLoad
  | JoinCopy
  | Done (o : outcome).

(** The block obtained from [malloc], if any. *)
Inductive heap_status := NotAllocated | Allocated | Freed.

(** Which waiters a notification of the condition variable wakes. *)
Inductive wake := NotifyOne | NotifyAll.

Global Instance rthread_eq_dec : EqDecision rthread.
Proof. solve_decision. Defined.
Global Instance lthread_eq_dec : EqDecision lthread.
Proof. solve_decision. Defined.
Global Instance cthread_eq_dec : EqDecision cthread.
Proof. solve_decision. Defined.

(** The state of a call. [cuda_buffer] is [None] for the null pointer: then
    [load_buffer] is the storage of the target itself. Otherwise
    [load_buffer] is the block from [malloc] and [cuda_buffer] the storage of
    the target. The last four fields are instrumentation: the byte ranges
    read from the file, those pushed on the queue, those copied to the
    device, and the notifications sent. *)
Record state := mkState {
  pc : main_pc;
  load_buffer : list byte;
  cuda_buffer : option (list byte);
  staging : heap_status;
  read_failed : bool;
  read_threads : list rthread;
  load_failed : bool;
  done_loading : bool;
  dq : list (Z * Z);
  threads : list lthread;
  copy_threads : list cthread;
  file_reads : list (Z * Z);
  pushed : list (Z * Z);
  copied : list (Z * Z);
  notified : list wake
}.

(** The storage of the target tensor, as the caller sees it. *)
Definition target_now (st : state) : list byte :=
  match cuda_buffer st with
  | Some d => d
  | None => load_buffer st
  end.

(** Field updates, one per kind of thread. *)
Definition set_pc (st : state) (p : main_pc) : state :=
  mkState p (load_buffer st) (cuda_buffer st) (staging st) (read_failed st)
    (read_threads st) (load_failed st) (done_loading st) (dq st) (threads st)
    (copy_threads st) (file_reads st) (pushed st) (copied st) (notified st).

Definition reader_update (st : state) (lb : list byte) (rf : bool)
    (rt : list rthread) (fr : list (Z * Z)) : state :=
  mkState (pc st) lb (cuda_buffer st) (staging st) rf rt (load_failed st)
    (done_loading st) (dq st) (threads st) (copy_threads st) fr (pushed st)
    (copied st) (notified st).

Definition loader_update (st : state) (lb : list byte) (lf : bool)
    (q : list (Z * Z)) (ts : list lthread) (fr ps : list (Z * Z))
    (ns : list wake) : state :=
  mkState (pc st) lb (cuda_buffer st) (staging st) (read_failed st)
    (read_threads st) lf (done_loading st) q ts (copy_threads st) fr ps
    (copied st) ns.

Definition copier_update (st : state) (cb : option (list byte)) (lf : bool)
    (q : list (Z * Z)) (cs : list cthread) (cp : list (Z * Z)) : state :=
  mkState (pc st) (load_buffer st) cb (staging st) (read_failed st)
    (read_threads st) lf (done_loading st) q (threads st) cs (file_reads st)
    (pushed st) cp (notified st).

(** The threads of a call. *)
Inductive tid :=
  | Main
  | Reader (i : nat)
  | Loader (i : nat)
  | Copier (j : nat).

Section Call.

Variable cfg : config.
Variable world : World.
Variables (offset size : Z).

Local Abbreviation T := (STLOADER_THREADS cfg).
Local Abbreviation B := (STLOADER_BLOCK_SIZE cfg).

(** Lines 19-66: the buffers, and the chunk readers created. The division of
    line 41 is undefined for no reader at all. *)
Definition chunk_size : Z := wrap64 (size + T - 1) / T.

Definition stloader_init (target : Target) : state :=
  if target_cpu target then
    if decide (T = 0) then
      mkState (Done Undefined) (target_data target) None NotAllocated false []
        false false [] [] [] [] [] [] []
    else
      mkState JoinRead (target_data target) None NotAllocated false
        (replicate (Z.to_nat T) RReady) false false [] [] [] [] [] [] []
  else
    match malloc_block world with
    | None =>
        mkState (Done (Raised "Can't allocate buffer for tensor")) []
          (Some (target_data target)) NotAllocated false [] false false [] []
          [] [] [] [] []
    | Some blk =>
        if decide (T = 0) then
          mkState (Done Undefined) blk (Some (target_data target)) Allocated
            false [] false false [] [] [] [] [] [] []
        else
          mkState JoinRead blk (Some (target_data target)) Allocated false
            (replicate (Z.to_nat T) RReady) false false [] [] [] [] [] [] []
    end.

(** Lines 46-65, the body of chunk reader [i] (the [__linux__] branch). *)
Definition reader_body (i : nat) (st : state) : state :=
  let done := <[i := RDone]> (read_threads st) in
  let start := wrap64 (Z.of_nat i * chunk_size) in
  let end_ := Z.min (wrap64 (start + chunk_size)) size in
  if decide (start >= end_) then
    reader_update st (load_buffer st) (read_failed st) done (file_reads st)
  else
    match fs_file world with
    | None => reader_update st (load_buffer st) true done (file_reads st)
    | Some file =>
        let count := wrap64 (end_ - start) in
        let '(br, d) := pread file count (wrap64 (offset + start)) in
        match write_at (load_buffer st) start d with
        | None => set_pc st (Done Undefined)
        | Some lb =>
            reader_update st lb
              (if decide (br ≠ to_ssize count) then true else read_failed st)
              done (file_reads st ++ [(start, start + Z.of_nat (length d))])
        end
    end.

(** Line 191: [for (i = 0; i < STLOADER_THREADS && i * STLOADER_BLOCK_SIZE < size; ++i)],
    each worker created with [pos_a = i * STLOADER_BLOCK_SIZE]. The loop runs
    at most [STLOADER_THREADS] times: [n] bounds what is left. *)
Fixpoint spawn_load_workers (n : nat) (i : Z) : list lthread :=
  match n with
  | O => []
  | S n' =>
      if decide (i < T ∧ wrap64 (i * B) < size)
      then LStart (wrap64 (i * B)) :: spawn_load_workers n' (i + 1)
      else []
  end.

(** Lines 238-242: the copy workers, only for a target off the CPU. *)
Definition spawn_copy_workers (cuda : option (list byte)) : list cthread :=
  match cuda with
  | Some _ => replicate (Z.to_nat (STLOADER_COPY_THREADS cfg)) CWait
  | None => []
  end.

(** One step of the worker spawned at line 193 (the [__linux__] branch): the
    [fopen]; one test of the loop condition with the [pread] that follows it;
    or the critical section that queues the block. This is what the worker
    does to the variables of [state]; its counter [blocks_processed] and the
    store of line 224 are none of them, and are in [inline_worker] below. *)
Definition inline_worker_step (i : nat) (w : lthread) (st : state) : state :=
  match w with
  | LStart pos_a =>
      match fs_file world with
      | None =>
          loader_update st (load_buffer st) true (dq st)
            (<[i := LExit]> (threads st)) (file_reads st) (pushed st) (notified st)
      | Some _ =>
          loader_update st (load_buffer st) (load_failed st) (dq st)
            (<[i := LLoop pos_a]> (threads st)) (file_reads st) (pushed st)
            (notified st)
      end
  | LLoop pos_a =>
      if decide (pos_a < size ∧ load_failed st = false) then
        let pos_b := wrap64 (pos_a + B) in
        let pos_b := if decide (pos_b > size) then size else pos_b in
        let count := wrap64 (pos_b - pos_a) in
        let '(br, d) := pread (default [] (fs_file world)) count (wrap64 (offset + pos_a)) in
        match write_at (load_buffer st) pos_a d with
        | None => set_pc st (Done Undefined)
        | Some lb =>
            let fr := file_reads st ++ [(pos_a, pos_a + Z.of_nat (length d))] in
            if decide (wrap64 br ≠ count) then
              loader_update st lb true (dq st) (<[i := LExit]> (threads st)) fr
                (pushed st) (notified st)
            else
              loader_update st lb (load_failed st) (dq st)
                (<[i := LPush pos_a pos_b]> (threads st)) fr (pushed st)
                (notified st)
        end
      else
        loader_update st (load_buffer st) (load_failed st) (dq st)
          (<[i := LExit]> (threads st)) (file_reads st) (pushed st) (notified st)
  | LPush pos_a pos_b =>
      loader_update st (load_buffer st) (load_failed st) (dq st ++ [(pos_a, pos_b)])
        (<[i := LLoop (wrap64 (pos_a + T * B))]> (threads st)) (file_reads st)
        (pushed st ++ [(pos_a, pos_b)]) (notified st ++ [NotifyOne])
  | LExit => st
  end.

(** One step of the lambda [load_worker] of lines 82-124, which no thread
    runs: what it does to the variables of [state]. What it prints and
    counts is in [load_worker] below. *)
Definition load_worker_step (i : nat) (w : lthread) (st : state) : state :=
  match w with
  | LStart pos_a =>
      match fs_file world with
      | None =>
          loader_update st (load_buffer st) true (dq st)
            (<[i := LExit]> (threads st)) (file_reads st) (pushed st) (notified st)
      | Some _ =>
          loader_update st (load_buffer st) (load_failed st) (dq st)
            (<[i := LLoop pos_a]> (threads st)) (file_reads st) (pushed st)
            (notified st)
      end
  | LLoop pos_a =>
      if decide (pos_a < size ∧ load_failed st = false) then
        let pos_b := wrap64 (pos_a + B) in
        let pos_b := if decide (pos_b > size) then size else pos_b in
        let count := wrap64 (pos_b - pos_a) in
        let '(br, d) := pread (default [] (fs_file world)) count (wrap64 (offset + pos_a)) in
        match write_at (load_buffer st) pos_a d with
        | None => set_pc st (Done Undefined)
        | Some lb =>
            let fr := file_reads st ++ [(pos_a, pos_a + Z.of_nat (length d))] in
            if decide (wrap64 br ≠ count) then
              loader_update st lb true (dq st) (<[i := LExit]> (threads st)) fr
                (pushed st) (notified st)
            else
              loader_update st lb (load_failed st) (dq st)
                (<[i := LPush pos_a pos_b]> (threads st)) fr (pushed st)
                (notified st)
        end
      else
        loader_update st (load_buffer st) (load_failed st) (dq st)
          (<[i := LExit]> (threads st)) (file_reads st) (pushed st) (notified st)
  | LPush pos_a pos_b =>
      loader_update st (load_buffer st) (load_failed st) (dq st ++ [(pos_a, pos_b)])
        (<[i := LLoop (wrap64 (pos_a + T * B))]> (threads st)) (file_reads st)
        (pushed st ++ [(pos_a, pos_b)]) (notified st ++ [NotifyAll])
  | LExit => st
  end.

(** One step of [copy_worker] (lines 131-186): the critical section of lines
    142-162, or the [cudaMemcpyAsync] of the block it has popped. The copy
    is carried out when it is issued: the worker synchronises its stream
    before it ends, and the bytes of a queued block are not written again.
    The flag [load_failed], which lines 175 and 232 store outside the mutex,
    is read once for the whole critical section. The worker's stream and its
    statistics counter are not modelled. *)
Definition copy_worker_step (j : nat) (c : cthread) (st : state) : state :=
  match c with
  | CWait =>
      if decide (dq st = [] ∧ load_failed st = false ∧ done_loading st = false) then st
      else if load_failed st then
        copier_update st (cuda_buffer st) (load_failed st) (dq st)
          (<[j := CExit]> (copy_threads st)) (copied st)
      else
        match dq st with
        | [] =>
            if done_loading st then
              copier_update st (cuda_buffer st) (load_failed st) (dq st)
                (<[j := CExit]> (copy_threads st)) (copied st)
            else st
        | (pos_a, pos_b) :: q =>
            copier_update st (cuda_buffer st) (load_failed st) q
              (<[j := CCopy pos_a pos_b]> (copy_threads st)) (copied st)
        end
  | CCopy pos_a pos_b =>
      if cuda_fails world pos_a then
        copier_update st (cuda_buffer st) true (dq st)
          (<[j := CExit]> (copy_threads st)) (copied st)
      else
        match cuda_buffer st with
        | None => set_pc st (Done Undefined)
        | Some dev =>
            if decide (0 ≤ pos_a ≤ pos_b ∧ pos_b ≤ Z.of_nat (length (load_buffer st))) then
              match write_at dev pos_a (slice (load_buffer st) pos_a pos_b) with
              | None => set_pc st (Done Undefined)
              | Some dev' =>
                  copier_update st (Some dev') (load_failed st) (dq st)
                    (<[j := CWait]> (copy_threads st)) (copied st ++ [(pos_a, pos_b)])
              end
            else set_pc st (Done Undefined)
        end
  | CExit => st
  end.

(** The calling thread: a join returns once every thread of the pool is
    gone. Lines 67-242, lines 245-261 and lines 264-286. *)
Definition main_step (st : state) : state :=
  match pc st with
  | JoinRead =>
      if decide (Forall (λ r, r = RDone) (read_threads st)) then
        if read_failed st then set_pc st (Done (Raised "Parallel file read failed"))
        else
          mkState JoinLoad (load_buffer st) (cuda_buffer st) (staging st)
            (read_failed st) (read_threads st) (load_failed st) (done_loading st)
            (dq st) (spawn_load_workers (Z.to_nat T) 0)
            (spawn_copy_workers (cuda_buffer st)) (file_reads st) (pushed st)
            (copied st) (notified st)
      else st
  | JoinLoad =>
      if decide (Forall (λ w, w = LExit) (threads st)) then
        mkState JoinCopy (load_buffer st) (cuda_buffer st) (staging st)
          (read_failed st) (read_threads st) (load_failed st) true (dq st)
          (threads st) (copy_threads st) (file_reads st) (pushed st) (copied st)
          (notified st ++ [NotifyAll])
      else st
  | JoinCopy =>
      if decide (Forall (λ c, c = CExit) (copy_threads st)) then
        if load_failed st then set_pc st (Done (Raised "I/O error reading tensor"))
        else
          mkState (Done Returned) (load_buffer st) (cuda_buffer st)
            (match cuda_buffer st with Some _ => Freed | None => staging st end)
            (read_failed st) (read_threads st) (load_failed st) (done_loading st)
            (dq st) (threads st) (copy_threads st) (file_reads st) (pushed st)
            (copied st) (notified st)
      else st
  | Done _ => st
  end.

(** One step of the thread the scheduler picks; a thread that does not
    exist, is blocked or is gone leaves the state as it is. *)
Definition step (t : tid) (st : state) : state :=
  match t, pc st with
  | Main, _ => main_step st
  | Reader i, JoinRead =>
      match read_threads st !! i with
      | Some RReady => reader_body i st
      | _ => st
      end
  | Loader i, JoinLoad =>
      match threads st !! i with
      | Some w => inline_worker_step i w st
      | None => st
      end
  | Copier j, (JoinLoad | JoinCopy) =>
      match copy_threads st !! j with
      | Some c => copy_worker_step j c st
      | None => st
      end
  | _, _ => st
  end.

(** A run of the call under a schedule: the threads picked, in order. *)
Definition run (sched : list tid) (st : state) : state :=
  foldl (λ s t, step t s) st sched.

(** [stloader_read(filename, offset, size, target)] under a schedule. *)
Definition stloader_read (target : Target) (sched : list tid) : state :=
  run sched (stloader_init target).

End Call.

(** *** Instrumentation *)

(** How many of the ranges contain the byte [p]. *)
Fixpoint times_covered (p : Z) (l : list (Z * Z)) : nat :=
  match l with
  | [] => O
  | r :: l' =>
      if decide (r.1 ≤ p < r.2) then S (times_covered p l') else times_covered p l'
  end.

(** The blocks popped by the copy workers and not yet copied. *)
Definition held (c : cthread) : list (Z * Z) :=
  match c with
  | CCopy a b => [(a, b)]
  | _ => []
  end.

Definition holding (cs : list cthread) : list (Z * Z) := cs ≫= held.


(** A fair schedule: [n] rounds over the threads of every pool. *)
Definition round_robin (cfg : config) (n : nat) : list tid :=
  let T := Z.to_nat (STLOADER_THREADS cfg) in
  let C := Z.to_nat (STLOADER_COPY_THREADS cfg) in
  mjoin (replicate n
    ((Reader <$> seq 0 T) ++ [Main] ++ (Loader <$> seq 0 T) ++ (Copier <$> seq 0 C))).

(** *** Invariants of a call *)

Section Invariants.

Variable cfg : config.
Variable world : World.
Variables (offset size : Z).

Local Abbreviation T := (STLOADER_THREADS cfg).
Local Abbreviation B := (STLOADER_BLOCK_SIZE cfg).

(** The calls the theorems are about: at least one reader and a block of at
    least one byte, and a segment whose offsets fit [off_t] and whose
    positions do not wrap around. *)
Definition valid_call : Prop :=
  1 ≤ T ∧ 1 ≤ B ∧ T * B ≤ 2 ^ 63 ∧
  0 ≤ size < 2 ^ 63 ∧ 0 ≤ offset ∧ offset + size ≤ 2 ^ 63.

(** The buffers hold the segment: the storage of the target, and the block
    [malloc] hands out. *)
Definition buffers_fit (target : Target) : Prop :=
  size ≤ Z.of_nat (length (target_data target)) ∧
  ∀ blk, malloc_block world = Some blk → size ≤ Z.of_nat (length blk).

(** The bytes of the file, and the segment asked for. *)
Definition file_bytes : list byte := default [] (fs_file world).
Definition segment : list byte :=
  take (Z.to_nat size) (drop (Z.to_nat offset) file_bytes).

(** Byte [p] of a buffer is byte [offset + p] of the file. *)
Definition byte_ok (buf : list byte) (p : Z) : Prop :=
  buf !! Z.to_nat p = file_bytes !! Z.to_nat (offset + p).

(** The load worker whose blocks contain byte [p]. *)
Definition owner (p : Z) : nat := Z.to_nat ((p / B) mod T).

(** Below [frontier] a worker has queued its blocks; below [readfront] it
    has read them. *)
Definition frontier (w : lthread) : Z :=
  match w with
  | LStart a | LLoop a | LPush a _ => a
  | LExit => size
  end.

Definition readfront (w : lthread) : Z :=
  match w with
  | LPush a _ => a + T * B
  | _ => frontier w
  end.

Definition lthread_ok (i : nat) (w : lthread) : Prop :=
  match w with
  | LStart a | LLoop a =>
      ∃ k, 0 ≤ k ∧ a = (Z.of_nat i + k * T) * B ∧ a < size + T * B
  | LPush a b =>
      ∃ k, 0 ≤ k ∧ a = (Z.of_nat i + k * T) * B ∧ a < size ∧ b = Z.min (a + B) size
  | LExit => True
  end.

Definition range_ok (r : Z * Z) : Prop := 0 ≤ r.1 ∧ r.1 < r.2 ∧ r.2 ≤ size.

(** While the chunk readers run. *)
Record Inv1 (st : state) : Prop := {
  inv1_buffer : size ≤ Z.of_nat (length (load_buffer st));
  inv1_device : ∀ dev, cuda_buffer st = Some dev → size ≤ Z.of_nat (length dev);
  inv1_readers : length (read_threads st) = Z.to_nat T;
  inv1_idle : threads st = [] ∧ copy_threads st = [] ∧ dq st = [] ∧
    pushed st = [] ∧ copied st = [] ∧ load_failed st = false ∧ done_loading st = false;
  inv1_reads : read_failed st = false → ∀ p, 0 ≤ p < size →
    times_covered p (file_reads st) =
      if decide (read_threads st !! Z.to_nat (p / chunk_size cfg size) = Some RDone)
      then 1%nat else 0%nat
}.

(** While the load workers and the copy workers run. *)
Record Inv2 (st : state) : Prop := {
  inv_buffer : size ≤ Z.of_nat (length (load_buffer st));
  inv_device : ∀ dev, cuda_buffer st = Some dev → size ≤ Z.of_nat (length dev);
  inv_workers : ∀ i w, threads st !! i = Some w → Z.of_nat i < T ∧ lthread_ok i w;
  inv_spawned : ∀ i, 0 ≤ i < T → i * B < size → is_Some (threads st !! Z.to_nat i);
  inv_blocks : load_failed st = false → ∀ p, 0 ≤ p < size →
    ∃ w, threads st !! owner p = Some w ∧
      times_covered p (pushed st) = (if decide (p < frontier w) then 1%nat else 0%nat) ∧
      times_covered p (file_reads st) = (if decide (p < readfront w) then 2%nat else 1%nat) ∧
      (p < readfront w → byte_ok (load_buffer st) p);
  inv_queue : load_failed st = false → ∀ p,
    times_covered p (pushed st) =
      (times_covered p (copied st) + times_covered p (holding (copy_threads st)) +
       times_covered p (dq st))%nat;
  inv_ranges : Forall range_ok (pushed st) ∧ Forall range_ok (dq st) ∧
    Forall range_ok (holding (copy_threads st));
  inv_copied : load_failed st = false → ∀ dev, cuda_buffer st = Some dev →
    ∀ p, 0 ≤ p < size → (0 < times_covered p (copied st))%nat → byte_ok dev p;
  inv_done : done_loading st = true → Forall (λ w, w = LExit) (threads st);
  inv_drained : load_failed st = false → CExit ∈ copy_threads st →
    dq st = [] ∧ done_loading st = true;
  inv_copiers : length (copy_threads st) =
    length (spawn_copy_workers cfg (cuda_buffer st))
}.

(** The ranges partition the segment: each lies inside it and is not empty,
    and every byte of the segment is in exactly one of them. *)
Definition partitions (l : list (Z * Z)) : Prop :=
  Forall range_ok l ∧
  ∀ p, times_covered p l = if decide (0 ≤ p < size) then 1%nat else 0%nat.

(** The invariant of a call. *)
Definition Inv (st : state) : Prop :=
  match pc st with
  | JoinRead => Inv1 st
  | JoinLoad => Inv2 st
  | JoinCopy => Inv2 st ∧ done_loading st = true
  | Done Returned =>
      Inv2 st ∧ done_loading st = true ∧
      Forall (λ c, c = CExit) (copy_threads st) ∧ load_failed st = false
  | Done (Raised _) => done_loading st = true → load_failed st = true
  | Done Undefined => False
  end.

End Invariants.

(** What a step of a load worker leaves alone. *)
Definition worker_frame (st st' : state) : Prop :=
  pc st' = pc st ∧ done_loading st' = done_loading st ∧
  copy_threads st' = copy_threads st ∧ cuda_buffer st' = cuda_buffer st ∧
  copied st' = copied st ∧ staging st' = staging st.

(** What a step of a copy worker leaves alone. *)
Definition copier_frame (st st' : state) : Prop :=
  pc st' = pc st ∧ done_loading st' = done_loading st ∧
  threads st' = threads st ∧ load_buffer st' = load_buffer st ∧
  pushed st' = pushed st ∧ file_reads st' = file_reads st ∧ staging st' = staging st.


(** *** The two lambdas in full *)

(** What a worker prints: line 85, with the value of [pos_a]. The [printf]
    of the error path (lines 120-121 and 229-230) is the same in both
    lambdas, and it is not reached: nothing reads through the stream, so
    [ferror] is false. *)
Inductive line := DebugStarted (pos_a : Z).

(** A worker run on its own: the variables the threads share, its counter
    [blocks_processed], the vector [blocks_processed_per_thread], and
    standard output. *)
Record worker_state := mkWorker {
  shared : state;
  blocks_processed : Z;
  blocks_processed_per_thread : list Z;
  stdout : list line
}.

Section Lambdas.

Variable cfg : config.
Variable world : World.
Variables (offset size : Z).

(** One step of the lambda [load_worker] (lines 82-124): it prints when it
    starts, counts the blocks it queues, and leaves the vector alone. *)
Definition load_worker (i : nat) (w : lthread) (ws : worker_state) : worker_state :=
  let sh := load_worker_step cfg world offset size i w (shared ws) in
  match w with
  | LStart pos_a =>
      mkWorker sh 0 (blocks_processed_per_thread ws) (stdout ws ++ [DebugStarted pos_a])
  | LPush _ _ =>
      mkWorker sh (wrap64 (blocks_processed ws + 1)) (blocks_processed_per_thread ws)
        (stdout ws)
  | LLoop _ | LExit =>
      mkWorker sh (blocks_processed ws) (blocks_processed_per_thread ws) (stdout ws)
  end.

(** One step of the worker spawned at line 193 (lines 193-233): it prints
    nothing, counts the blocks it queues, and when it leaves its loop
    without an error it stores the count in
    [blocks_processed_per_thread[i]] (line 224). *)
Definition inline_worker (i : nat) (w : lthread) (ws : worker_state) : worker_state :=
  let sh := inline_worker_step cfg world offset size i w (shared ws) in
  match w with
  | LStart _ =>
      mkWorker sh 0 (blocks_processed_per_thread ws) (stdout ws)
  | LLoop pos_a =>
      if decide (pos_a < size ∧ load_failed (shared ws) = false) then
        mkWorker sh (blocks_processed ws) (blocks_processed_per_thread ws) (stdout ws)
      else if decide (i < length (blocks_processed_per_thread ws))%nat then
        mkWorker sh (blocks_processed ws)
          (<[i := blocks_processed ws]> (blocks_processed_per_thread ws)) (stdout ws)
      else
        mkWorker (set_pc sh (Done Undefined)) (blocks_processed ws)
          (blocks_processed_per_thread ws) (stdout ws)
  | LPush _ _ =>
      mkWorker sh (wrap64 (blocks_processed ws + 1)) (blocks_processed_per_thread ws)
        (stdout ws)
  | LExit => ws
  end.

End Lambdas.

(** A lambda on its own: [n] steps of worker [i]. *)
Fixpoint lambda_run (body : nat → lthread → worker_state → worker_state) (n i : nat)
    (ws : worker_state) : worker_state :=
  match n with
  | O => ws
  | S n' =>
      match threads (shared ws) !! i with
      | Some w => lambda_run body n' i (body i w ws)
      | None => ws
      end
  end.


(** The progress measures of the threads. *)
Definition rmeasure (r : rthread) : nat :=
  match r with RReady => 1 | RDone => 0 end.

Definition lmeasure (cfg : config) (size : Z) (w : lthread) : nat :=
  let d a := Z.to_nat (size + STLOADER_THREADS cfg * STLOADER_BLOCK_SIZE cfg - a) in
  match w with
  | LStart a => 2 * d a + 3
  | LLoop a => 2 * d a + 2
  | LPush a _ => 2 * d a + 1
  | LExit => 0
  end.

Definition cmeasure (c : cthread) : nat :=
  match c with CWait => 1 | CCopy _ _ => 2 | CExit => 0 end.

(** A world in which nothing fails: the file holds the segment, [malloc]
    hands out a block, and no copy reports an error. *)
Definition nothing_fails (world : World) (offset size : Z) : Prop :=
  (∃ file, fs_file world = Some file ∧ offset + size ≤ Z.of_nat (length file)) ∧
  is_Some (malloc_block world) ∧
  ∀ a, cuda_fails world a = false.

(** A small call: two readers, blocks of three bytes, two copy workers; a
    file of sixteen bytes and a target of ten. *)
Definition example_config : config := mkConfig 2 3 2.
Definition example_file : list byte :=
  [x00; x01; x02; x03; x04; x05; x06; x07; x08; x09; x0a; x0b; x0c; x0d; x0e; x0f].
Definition example_world : World :=
  mkWorld (Some example_file) (Some (replicate 10 xff)) (λ _, false).
Definition example_device_target : Target := mkTarget false (replicate 10 xee).
Definition example_cpu_target : Target := mkTarget true (replicate 10 xee).
Definition example_no_memory : World :=
  mkWorld (Some example_file) None (λ _, false).

(** The first load worker of the example about to start, with the vector
    of the two workers. *)
Definition example_worker : worker_state :=
  mkWorker
    (stloader_read example_config example_world 2 10 example_cpu_target
       [Reader 0; Reader 1; Main])
    0 [0; 0] [].

End Loader.

(** ** Remapping twice, and the packed remapper over nibbles *)

Module RemapLaws.
Import Remap.

(** The index that does in one call what [p] and then [q] do in two: entry
    [c] is [p[q[c]]]. *)
Definition compose_index (p q : Tensor) : Tensor :=
  {| dtype := dtype q; sizes := sizes q; data := gather_row (data p) (data q) |}.

(** An index vector of [n] 32-bit entries, in range or not. *)
Definition is_raw_index (t : Tensor) (n : nat) : Prop :=
  dtype t = kInt ∧ sizes t = [Z.of_nat n] ∧ length (data t) = n ∧
  Forall (λ i, 0 ≤ i < 2 ^ 32) (data t) ∧
  fits_int n.

(** The eight nibbles of a word, lowest first, and the logical elements of
    a packed row or matrix. *)
Definition nibbles (w : Z) : list Z := (λ k, nibble w (Z.of_nat k)) <$> seq 0 8.
Definition unpack (ws : list Z) : list Z := ws ≫= nibbles.
Definition unpack_tensor (t : Tensor) (rows words : nat) : Tensor :=
  {| dtype := dtype t; sizes := [Z.of_nat rows; Z.of_nat (8 * words)];
     data := unpack (data t) |}.

(** An index of eight entries whose first entry is one past the last
    column. *)
Definition example_out_of_range : Tensor := mkTensor kInt [8] [8; 6; 5; 4; 3; 2; 1; 0].

End RemapLaws.

(** ** Every run of the segment loader *)

(** What holds in every state of every run of [stloader_read]: the
    invariants behind the theorems on failures, on the buffers while the call
    is under way, and on the pools of threads; and the bodies of the threads
    where [__linux__] is not defined. *)

Module LoaderRuns.
Import Loader.

(** *** Flags, pools and notifications *)


(** The state of the block from [malloc] that goes with a state of a call to
    a target off the CPU. *)
Definition staging_of (world : World) (st : state) : heap_status :=
  match malloc_block world with
  | None => NotAllocated
  | Some _ => match pc st with Done Returned => Freed | _ => Allocated end
  end.

(** The number of load workers line 191 creates. *)
Definition load_workers (cfg : config) (size : Z) : Z :=
  Z.min (STLOADER_THREADS cfg)
    ((size + STLOADER_BLOCK_SIZE cfg - 1) / STLOADER_BLOCK_SIZE cfg).

(** The threads a call has once its chunk readers are joined. *)
Definition pools_of (cfg : config) (size : Z) (st : state) : Prop :=
  length (threads st) = Z.to_nat (load_workers cfg size) ∧
  length (copy_threads st) =
    match cuda_buffer st with
    | Some _ => Z.to_nat (STLOADER_COPY_THREADS cfg)
    | None => O
    end.

Definition pools (cfg : config) (size : Z) (st : state) : Prop :=
  match pc st with
  | JoinRead => True
  | JoinLoad | JoinCopy | Done Returned => pools_of cfg size st
  | Done (Raised msg) => msg = "I/O error reading tensor"%string → pools_of cfg size st
  | Done Undefined => True
  end.

(** The notifications that go with the blocks queued and the flag of line
    259. *)
Definition notifications (st : state) : list wake :=
  replicate (length (pushed st)) NotifyOne ++
  (if done_loading st then [NotifyAll] else []).

Definition notified_ok (st : state) : Prop :=
  notified st = notifications st ∧
  match pc st with
  | JoinRead | JoinLoad => done_loading st = false
  | _ => True
  end.

(** The blocks copied, held by a copy worker or queued are among the blocks
    pushed. *)
Definition in_flight (st : state) : Prop :=
  copied st ++ holding (copy_threads st) ++ dq st ⊆+ pushed st.

(** *** The buffers while the call is under way *)

Section Mixture.

Variable cfg : config.
Variable world : World.
Variables (offset size : Z).

(** A buffer that holds, byte by byte, what it held before the call or the
    byte of the file that belongs there; beyond the segment, what it held
    before. *)
Definition old_or_file (old buf : list byte) : Prop :=
  length buf = length old ∧
  ∀ q : nat, buf !! q = old !! q ∨
    (Z.of_nat q < size ∧ buf !! q = file_bytes world !! (Z.to_nat offset + q)%nat).

Definition block_read (buf : list byte) (r : Z * Z) : Prop :=
  ∀ p, r.1 ≤ p < r.2 → byte_ok world offset buf p.

(** The buffers of a call that started with [lb0] and [dev0]. *)
Record Mix (lb0 : list byte) (dev0 : option (list byte)) (st : state) : Prop := {
  mix_buffer : old_or_file lb0 (load_buffer st);
  mix_device : option_Forall2 old_or_file dev0 (cuda_buffer st);
  mix_read : ∀ i a b, threads st !! i = Some (LPush a b) →
    block_read (load_buffer st) (a, b);
  mix_queue : Forall (block_read (load_buffer st)) (dq st ++ holding (copy_threads st))
}.

(** A range inside the segment. *)
Definition in_segment (r : Z * Z) : Prop := 0 ≤ r.1 ∧ r.1 ≤ r.2 ∧ r.2 ≤ size.

(** The blocks of the segment: aligned, whole but for the last. *)
Definition is_block (r : Z * Z) : Prop :=
  0 ≤ r.1 < size ∧ r.1 mod STLOADER_BLOCK_SIZE cfg = 0 ∧
  r.2 = Z.min (r.1 + STLOADER_BLOCK_SIZE cfg) size.

End Mixture.

(** *** A file that does not hold the segment *)

(** The file holds the segment. *)
Definition holds_segment (world : World) (offset size : Z) : Prop :=
  ∃ file, fs_file world = Some file ∧ offset + size ≤ Z.of_nat (length file).

(** What the chunk readers that are done have found, as long as none has
    set the flag: the bytes of their chunks are in the file. *)
Definition chunks_read (cfg : config) (world : World) (offset size : Z)
    (st : state) : Prop :=
  read_failed st = false → ∀ p, 0 ≤ p < size →
  read_threads st !! Z.to_nat (p / chunk_size cfg size) = Some RDone →
  is_Some (file_bytes world !! Z.to_nat (offset + p)).

(** A call that has not got beyond its first pass: no load worker and no
    copy worker was created. *)
Definition first_pass (st : state) : Prop :=
  (pc st = JoinRead ∨ pc st = Done (Raised "Parallel file read failed") ∨
   pc st = Done (Raised "Can't allocate buffer for tensor")) ∧
  threads st = [] ∧ copy_threads st = [] ∧ dq st = [] ∧ pushed st = [] ∧
  copied st = [] ∧ load_failed st = false.

(** *** An empty segment *)

(** A call that has nothing to do: no byte read, no block queued or copied,
    no load worker, the copy workers waiting or gone, no flag set. *)
Definition quiet (st : state) : Prop :=
  file_reads st = [] ∧ pushed st = [] ∧ copied st = [] ∧ dq st = [] ∧
  threads st = [] ∧ Forall (λ c, c = CWait ∨ c = CExit) (copy_threads st) ∧
  read_failed st = false ∧ load_failed st = false ∧
  match pc st with
  | JoinRead | JoinLoad => True
  | JoinCopy => done_loading st = true
  | Done o => o = Returned ∨ o = Raised "Can't allocate buffer for tensor"
  end.

(** *** Other systems *)



Section OtherSystems.

Variable cfg : config.
Variable world : World.
Variables (offset size : Z).

Local Abbreviation T := (STLOADER_THREADS cfg).
Local Abbreviation B := (STLOADER_BLOCK_SIZE cfg).













End OtherSystems.

(** *** Examples *)

(** The world of the example with a copy that fails, the one of the block
    at 3; and without the file. *)
Definition example_copy_fails : World :=
  mkWorld (Some example_file) (Some (replicate 10 xff)) (λ a, bool_decide (a = 3)).
Definition example_no_file : World :=
  mkWorld None (Some (replicate 10 xff)) (λ _, false).

End LoaderRuns.

(** * Proofs *)

(** ** The remappers *)

Module RemapProofs.
Import Remap.

Section Dense.

Local Open Scope nat_scope.

Lemma read_words_Some a p n temp :
  read_words a p n = Some temp →
  p + n ≤ length a ∧ length temp = n ∧ ∀ k, k < n → temp !! k = a !! (p + k).
Proof.
  unfold read_words. case_decide; [|done]. intros [= <-].
  split; [done|]. split.
  - rewrite length_take, length_drop. lia.
  - intros k Hk. rewrite lookup_take_lt by done. by rewrite lookup_drop.
Qed.

Lemma store_word_Some a p v st :
  store_word a p v = Some st → p < length a ∧ st = (<[p := v]> a, S p).
Proof. unfold store_word. case_decide; [|done]. by intros [= <-]. Qed.

(** The column loop writes [n] words from [p] on and nothing else. *)
Lemma remap_cols_spec temp idx n : ∀ c a p a' p',
  remap_cols temp idx n c (a, p) = Some (a', p') →
  p' = p + n ∧ length a' = length a ∧
  (∀ q, q < p ∨ p + n ≤ q → a' !! q = a !! q) ∧
  (∀ k, k < n → ∃ i, idx !! (c + k) = Some i ∧
      is_Some (temp !! Z.to_nat i) ∧ a' !! (p + k) = temp !! Z.to_nat i).
Proof.
  induction n as [|n IH]; intros c a p a' p'; simpl.
  - intros [= <- <-]. split; [lia|]. split; [done|]. split; [done|].
    intros; lia.
  - destruct (idx !! c) as [i|] eqn:Hi; simpl; [|done].
    destruct (temp !! Z.to_nat i) as [v|] eqn:Hv; simpl; [|done].
    destruct (store_word a p v) as [st|] eqn:Hst; simpl; [|done].
    apply store_word_Some in Hst as [Hp ->].
    intros H. apply IH in H as (-> & Hlen & Hout & Hin).
    rewrite length_insert in Hlen.
    split; [lia|]. split; [done|]. split.
    + intros q Hq. rewrite Hout by lia. apply list_lookup_insert_ne. lia.
    + intros [|k] Hk.
      * exists i. rewrite !Nat.add_0_r. split; [done|]. split; [by rewrite Hv|].
        rewrite Hout by lia. rewrite Hv. by apply list_lookup_insert_eq.
      * destruct (Hin k ltac:(lia)) as (i' & Hi' & Hs & Hl).
        exists i'. replace (c + S k) with (S c + k) by lia.
        replace (p + S k) with (S p + k) by lia. done.
Qed.

Lemma remap_cols_total temp idx n : ∀ c a p,
  (∀ k, k < n → ∃ i, idx !! (c + k) = Some i ∧ Z.to_nat i < length temp) →
  p + n ≤ length a →
  is_Some (remap_cols temp idx n c (a, p)).
Proof.
  induction n as [|n IH]; intros c a p Hidx Hfit; simpl; [by eexists|].
  destruct (Hidx 0 ltac:(lia)) as (i & Hi & Hlt). rewrite Nat.add_0_r in Hi.
  rewrite Hi. simpl. destruct (lookup_lt_is_Some_2 temp (Z.to_nat i) Hlt) as [v Hv].
  rewrite Hv. simpl. unfold store_word. case_decide; [|lia]. simpl.
  apply IH.
  - intros k Hk. destruct (Hidx (S k) ltac:(lia)) as (i' & Hi' & Hlt').
    exists i'. by replace (S c + k) with (c + S k) by lia.
  - rewrite length_insert. lia.
Qed.


Lemma row_lookup d cols r c : c < cols → row d cols r !! c = d !! (r * cols + c).
Proof. intros Hc. unfold row. rewrite lookup_take_lt by done. by rewrite lookup_drop. Qed.

(** The row loop gathers each of the [n] rows from [p] on out of itself. *)
Lemma remap_rows_spec idx cols n : ∀ a p a' p',
  remap_rows idx cols n (a, p) = Some (a', p') →
  p' = p + n * cols ∧ length a' = length a ∧
  (∀ q, q < p ∨ p + n * cols ≤ q → a' !! q = a !! q) ∧
  (∀ r c, r < n → c < cols → ∃ i, idx !! c = Some i ∧ Z.to_nat i < cols ∧
      a' !! (p + r * cols + c) = a !! (p + r * cols + Z.to_nat i)).
Proof.
  induction n as [|n IH]; intros a p a' p'; simpl.
  - intros [= <- <-]. split; [lia|]. split; [done|]. split; [done|]. intros; lia.
  - destruct (read_words a p cols) as [temp|] eqn:Htemp; simpl; [|done].
    apply read_words_Some in Htemp as (Hfit & Hlt & Htemp).
    destruct (remap_cols temp idx cols 0 (a, p)) as [[a1 p1]|] eqn:Hcols; simpl; [|done].
    apply remap_cols_spec in Hcols as (-> & Hlen1 & Hout1 & Hin1).
    intros H. apply IH in H as (-> & Hlen & Hout & Hin).
    split; [lia|]. split; [congruence|]. split.
    + intros q Hq. rewrite Hout by lia. apply Hout1. lia.
    + intros [|r] c Hr Hc.
      * destruct (Hin1 c Hc) as (i & Hi & Hs & Hl). simpl in Hi.
        apply lookup_lt_is_Some_1 in Hs as Hi'. rewrite Hlt in Hi'.
        exists i. split; [done|]. split; [done|].
        simpl. rewrite !Nat.add_0_r. rewrite Hout by lia. rewrite Hl.
        by apply Htemp.
      * destruct (Hin r c ltac:(lia) Hc) as (i & Hi & Hi' & Hl).
        exists i. split; [done|]. split; [done|].
        replace (p + S r * cols + c) with (p + cols + r * cols + c) by lia.
        replace (p + S r * cols + Z.to_nat i) with (p + cols + r * cols + Z.to_nat i) by lia.
        rewrite Hl. apply Hout1. lia.
Qed.

Lemma remap_rows_total idx cols n : ∀ a p,
  (∀ c, c < cols → ∃ i, idx !! c = Some i ∧ Z.to_nat i < cols) →
  p + n * cols ≤ length a →
  is_Some (remap_rows idx cols n (a, p)).
Proof.
  induction n as [|n IH]; intros a p Hidx Hfit; simpl; [by eexists|].
  unfold read_words. case_decide; [|lia]. simpl.
  destruct (remap_cols_total (take cols (drop p a)) idx cols 0 a p) as [[a1 p1] H1].
  - intros k Hk. destruct (Hidx k Hk) as (i & Hi & Hlt). exists i. split; [done|].
    rewrite length_take, length_drop. lia.
  - lia.
  - rewrite H1. simpl. apply remap_cols_spec in H1 as (-> & Hlen & _).
    apply IH; [done|]. lia.
Qed.

Lemma index_lookup index n bound c :
  is_index index n bound → c < n →
  ∃ i, data index !! c = Some i ∧ (0 ≤ i < bound)%Z.
Proof.
  intros (_ & _ & Hlen & Hall & _) Hc.
  destruct (lookup_lt_is_Some_2 (data index) c) as [i Hi]; [lia|].
  exists i. split; [done|]. by eapply Forall_lookup_1 in Hall.
Qed.

Lemma checks_pass tensor index rows cols bound :
  is_matrix tensor rows cols → is_index index cols bound →
  TORCH_CHECK_SHAPES tensor 1 index 0 1 = true ∧
  TORCH_CHECK_DTYPE tensor kInt = true ∧ TORCH_CHECK_DTYPE index kInt = true.
Proof.
  intros (Hd & Hs & _) (Hd' & Hs' & _).
  unfold TORCH_CHECK_SHAPES, TORCH_CHECK_DTYPE, size. rewrite Hd, Hd', Hs, Hs'. simpl.
  rewrite !bool_decide_eq_true. split; [lia|done].
Qed.

Lemma to_int_small (n : nat) : fits_int n → to_int (Z.of_nat n) = Z.of_nat n.
Proof.
  unfold fits_int, to_int. intros Hn.
  rewrite Z.mod_small by lia. lia.
Qed.

Lemma tensor_remap_body_spec tensor index rows cols :
  is_matrix tensor rows cols → is_index index cols (Z.of_nat cols) →
  ∃ d, tensor_remap_body true tensor index = Some d ∧ length d = rows * cols ∧
    ∀ r c, r < rows → c < cols → ∃ i, data index !! c = Some i ∧ Z.to_nat i < cols ∧
      d !! (r * cols + c) = data tensor !! (r * cols + Z.to_nat i).
Proof.
  intros Hm Hi. pose proof Hm as (Hd & Hs & Hlen & _ & Hbr & Hbc).
  unfold tensor_remap_body, size. rewrite Hs. simpl.
  rewrite !to_int_small by done.
  rewrite decide_False by (intros [_ Hno]; apply Hno; split; [lia|done]).
  rewrite !Nat2Z.id.
  destruct (remap_rows_total (data index) cols rows (data tensor) 0) as [[d p] Hrun].
  - intros c Hc. destruct (index_lookup _ _ _ _ Hi Hc) as (i & Hl & Hr).
    exists i. split; [done|]. lia.
  - lia.
  - rewrite Hrun. simpl. exists d. split; [done|].
    apply remap_rows_spec in Hrun as (_ & Hlen' & _ & Hin).
    split; [congruence|]. intros r c Hr Hc.
    destruct (Hin r c Hr Hc) as (i & H1 & H2 & H3). exists i. by rewrite !Nat.add_0_l in H3.
Qed.


End Dense.

Section Nibbles.
Local Open Scope Z_scope.

Lemma testbit_15 n : 0 ≤ n → Z.testbit 15 n = bool_decide (n < 4).
Proof.
  intros Hn. change 15 with (Z.ones 4).
  destruct (decide (n < 4)).
  - rewrite bool_decide_eq_true_2 by done. apply Z.ones_spec_low. lia.
  - rewrite bool_decide_eq_false_2 by done. apply Z.ones_spec_high. lia.
Qed.

Lemma nibble_testbit w k n :
  0 ≤ k → 0 ≤ n → Z.testbit (nibble w k) n = Z.testbit w (n + k * 4) && bool_decide (n < 4).
Proof.
  intros Hk Hn. unfold nibble. rewrite Z.land_spec, Z.shiftr_spec by done.
  by rewrite testbit_15.
Qed.

Lemma nibble_range w k : 0 ≤ nibble w k < 16.
Proof.
  unfold nibble. change 15 with (Z.ones 4). rewrite Z.land_ones by lia.
  change (2 ^ 4) with 16. apply Z.mod_pos_bound. lia.
Qed.

Lemma small_testbit v n : 0 ≤ v < 16 → 4 ≤ n → Z.testbit v n = false.
Proof.
  intros Hv Hn. destruct (decide (v = 0)) as [->|]; [apply Z.bits_0|].
  apply Z.bits_above_log2; [lia|].
  assert (Z.log2 v < 4); [|lia]. apply Z.log2_lt_pow2; lia.
Qed.

(** Two words with the same nibbles are the same word. *)
Lemma nibble_ext x y : (∀ k, 0 ≤ k → nibble x k = nibble y k) → x = y.
Proof.
  intros H. apply Z.bits_inj'. intros n Hn.
  pose proof (Z.div_mod n 4 ltac:(lia)) as Hdm.
  pose proof (Z.mod_pos_bound n 4 ltac:(lia)) as Hm.
  assert (0 ≤ n / 4) as Hq by (apply Z.div_pos; lia).
  pose proof (f_equal (λ v, Z.testbit v (n mod 4)) (H (n / 4) Hq)) as E. simpl in E.
  rewrite !nibble_testbit in E by lia.
  rewrite bool_decide_eq_true_2, !andb_true_r in E by lia.
  by replace (n mod 4 + n / 4 * 4) with n in E by lia.
Qed.

Lemma nibble_0 k : nibble 0 k = 0.
Proof. unfold nibble. by rewrite Z.shiftr_0_l. Qed.

Lemma nibble_high w k : 0 ≤ w < 2 ^ 32 → 8 ≤ k → nibble w k = 0.
Proof.
  intros Hw Hk. unfold nibble. rewrite Z.shiftr_div_pow2 by lia.
  rewrite Z.div_small; [done|]. split; [lia|].
  assert (2 ^ 32 ≤ 2 ^ (k * 4)); [|lia]. apply Z.pow_le_mono_r; lia.
Qed.

Lemma nibble_lor x y k : nibble (Z.lor x y) k = Z.lor (nibble x k) (nibble y k).
Proof. unfold nibble. by rewrite Z.shiftr_lor, Z.land_lor_distr_l. Qed.

(** A nibble value shifted to slot [b] fills that slot and no other. *)
Lemma nibble_shiftl v b k :
  0 ≤ v < 16 → 0 ≤ b → 0 ≤ k →
  nibble (Z.shiftl v (b * 4)) k = if decide (k = b) then v else 0.
Proof.
  intros Hv Hb Hk. apply Z.bits_inj'. intros n Hn.
  rewrite nibble_testbit by done. rewrite Z.shiftl_spec by lia.
  destruct (decide (n < 4)) as [Hn4|Hn4].
  - rewrite bool_decide_eq_true_2, andb_true_r by done.
    case_decide as Hkb.
    + subst. f_equal. lia.
    + rewrite Z.bits_0. destruct (decide (k < b)).
      * apply Z.testbit_neg_r. lia.
      * apply small_testbit; [done|lia].
  - rewrite bool_decide_eq_false_2, andb_false_r by done.
    case_decide; [|by rewrite Z.bits_0]. symmetry. apply small_testbit; [done|lia].
Qed.

Lemma wrap32_slot v b :
  0 ≤ v < 16 → 0 ≤ b < 8 → wrap32 (Z.shiftl v (b * 4)) = Z.shiftl v (b * 4).
Proof.
  intros Hv Hb. unfold wrap32. apply Z.mod_small. rewrite Z.shiftl_mul_pow2 by lia.
  split; [apply Z.mul_nonneg_nonneg; lia|].
  assert (2 ^ (b * 4) ≤ 2 ^ 28) by (apply Z.pow_le_mono_r; lia).
  assert (0 < 2 ^ (b * 4)) by (apply Z.pow_pos_nonneg; lia).
  change (2 ^ 32) with (16 * 2 ^ 28). nia.
Qed.

Lemma land_7 i : Z.land i 7 = i mod 8.
Proof. change 7 with (Z.ones 3). by rewrite Z.land_ones by lia. Qed.


End Nibbles.

Section Packed.
Local Open Scope Z_scope.

Lemma remap4_slots_spec temp idx n : ∀ b c rv rv' c',
  remap4_slots temp idx n b c rv = Some (rv', c') →
  0 ≤ b → b + Z.of_nat n ≤ 8 →
  c' = (c + n)%nat ∧
  (∀ k, 0 ≤ k → k < b ∨ b + Z.of_nat n ≤ k → nibble rv' k = nibble rv k) ∧
  (∀ j : nat, (j < n)%nat → ∃ i w, idx !! (c + j)%nat = Some i ∧
      temp !! Z.to_nat (i / 8) = Some w ∧
      nibble rv' (b + Z.of_nat j) = Z.lor (nibble rv (b + Z.of_nat j)) (nibble w (i mod 8))).
Proof.
  induction n as [|n IH]; intros b c rv rv' c'; simpl.
  - intros [= <- <-] _ _. split; [lia|]. split; [done|]. intros; lia.
  - destruct (idx !! c) as [i|] eqn:Hi; simpl; [|done].
    destruct (temp !! Z.to_nat (i / 8)) as [w|] eqn:Hw; simpl; [|done].
    intros H Hb Hn. apply IH in H as (-> & Hout & Hin); [|lia..].
    fold (nibble w (Z.land i 7)) in Hout, Hin. rewrite land_7 in Hout, Hin.
    pose proof (nibble_range w (i mod 8)) as Hv.
    rewrite wrap32_slot in Hout, Hin by lia.
    assert (∀ k, 0 ≤ k → k ≠ b →
      nibble (Z.lor rv (Z.shiftl (nibble w (i mod 8)) (b * 4))) k = nibble rv k) as Hne.
    { intros k Hk Hkb. rewrite nibble_lor, nibble_shiftl by lia.
      case_decide; [done|]. apply Z.lor_0_r. }
    split; [lia|]. split.
    + intros k Hk Hkb. rewrite Hout by lia. apply Hne; lia.
    + intros [|j] Hj.
      * exists i, w. rewrite Nat.add_0_r, Z.add_0_r. split; [done|]. split; [done|].
        rewrite Hout by lia. rewrite nibble_lor, nibble_shiftl by lia.
        by rewrite decide_True.
      * destruct (Hin j ltac:(lia)) as (i' & w' & Hi' & Hw' & Hnib).
        exists i', w'. replace (c + S j)%nat with (S c + j)%nat by lia.
        split; [done|]. split; [done|].
        replace (b + Z.of_nat (S j)) with (b + 1 + Z.of_nat j) by lia.
        rewrite Hnib. f_equal. apply Hne; lia.
Qed.

Lemma remap4_word_spec temp idx c rv c' :
  remap4_slots temp idx 8 0 c 0 = Some (rv, c') →
  c' = (c + 8)%nat ∧ assembled temp idx c rv.
Proof.
  intros H. apply remap4_slots_spec in H as (-> & Hout & Hin); [|lia..].
  split; [done|]. split.
  - intros b Hb. destruct (Hin b Hb) as (i & w & Hi & Hw & Hnib).
    exists i, w. split; [done|]. split; [done|].
    rewrite Z.add_0_l, nibble_0, Z.lor_0_l in Hnib. done.
  - intros k Hk. rewrite Hout by lia. apply nibble_0.
Qed.

Lemma remap4_slots_total temp idx n : ∀ b c rv,
  (∀ j, (j < n)%nat → ∃ i, idx !! (c + j)%nat = Some i ∧ (Z.to_nat (i / 8) < length temp)%nat) →
  is_Some (remap4_slots temp idx n b c rv).
Proof.
  induction n as [|n IH]; intros b c rv Hidx; simpl; [by eexists|].
  destruct (Hidx O ltac:(lia)) as (i & Hi & Hlt). rewrite Nat.add_0_r in Hi.
  rewrite Hi. simpl. destruct (lookup_lt_is_Some_2 temp _ Hlt) as [w Hw].
  rewrite Hw. simpl. apply IH. intros j Hj.
  destruct (Hidx (S j) ltac:(lia)) as (i' & Hi' & Hlt').
  exists i'. by replace (S c + j)%nat with (c + S j)%nat by lia.
Qed.

Local Open Scope nat_scope.
Local Arguments Nat.mul : simpl never.
Local Arguments Nat.div : simpl never.

(** The group loop, entered at group [g] of [words]: it stores one assembled
    word per group left. *)
Lemma remap4_cols_spec temp idx words fuel : ∀ g a p a' p',
  remap4_cols temp idx (8 * words) fuel (8 * g) (a, p) = Some (a', p') →
  g ≤ words →
  p' = p + (words - g) ∧ length a' = length a ∧
  (∀ q, q < p ∨ p + (words - g) ≤ q → a' !! q = a !! q) ∧
  (∀ j, j < words - g → ∃ rv, a' !! (p + j) = Some rv ∧ assembled temp idx (8 * (g + j)) rv).
Proof.
  induction fuel as [|fuel IH]; intros g a p a' p'; cbn [remap4_cols].
  - case_decide; [done|]. intros [= <- <-] Hg. assert (g = words) by lia; subst g.
    split; [lia|]. split; [done|]. split; [done|]. intros; lia.
  - case_decide as Hlt.
    + destruct (remap4_slots temp idx 8 0 (8 * g) 0) as [[rv c']|] eqn:Hslots; simpl; [|done].
      apply remap4_word_spec in Hslots as (-> & Hasm).
      destruct (store_word a p rv) as [st|] eqn:Hst; simpl; [|done].
      apply store_word_Some in Hst as [Hp ->].
      replace (8 * g + 8) with (8 * S g) by lia.
      intros H Hg. apply IH in H as (-> & Hlen & Hout & Hin); [|lia].
      rewrite length_insert in Hlen.
      split; [lia|]. split; [done|]. split.
      * intros q Hq. rewrite Hout by lia. apply list_lookup_insert_ne. lia.
      * intros [|j] Hj.
        -- exists rv. rewrite !Nat.add_0_r. split; [|done].
           rewrite Hout by lia. by apply list_lookup_insert_eq.
        -- destruct (Hin j ltac:(lia)) as (rv' & Hl & Hasm').
           exists rv'. replace (p + S j) with (S p + j) by lia.
           by replace (g + S j) with (S g + j) by lia.
    + intros [= <- <-] Hg. assert (g = words) by lia; subst g.
      split; [lia|]. split; [done|]. split; [done|]. intros; lia.
Qed.

Lemma remap4_cols_total temp idx words fuel : ∀ g a p,
  (∀ c, c < 8 * words → ∃ i, idx !! c = Some i ∧ Z.to_nat (i / 8) < length temp) →
  g ≤ words → words - g ≤ fuel → p + (words - g) ≤ length a →
  is_Some (remap4_cols temp idx (8 * words) fuel (8 * g) (a, p)).
Proof.
  induction fuel as [|fuel IH]; intros g a p Hidx Hg Hfuel Hfit; cbn [remap4_cols].
  - case_decide; [lia|]. by eexists.
  - case_decide as Hlt; [|by eexists].
    destruct (remap4_slots_total temp idx 8 0%Z (8 * g) 0%Z) as [[rv c'] Hs].
    { intros j Hj. apply Hidx. lia. }
    rewrite Hs. simpl. apply remap4_word_spec in Hs as (-> & _).
    unfold store_word. case_decide; [|lia]. simpl.
    replace (8 * g + 8) with (8 * S g) by lia.
    apply IH; [done|lia|lia|]. rewrite length_insert. lia.
Qed.

(** The row loop of the packed variant. *)
Lemma remap4_rows_spec idx words n : ∀ a p a' p',
  remap4_rows idx (8 * words) n (a, p) = Some (a', p') →
  p' = p + n * words ∧ length a' = length a ∧
  (∀ q, q < p ∨ p + n * words ≤ q → a' !! q = a !! q) ∧
  (∀ r g, r < n → g < words → ∃ rv, a' !! (p + r * words + g) = Some rv ∧
      assembled (take words (drop (p + r * words) a)) idx (8 * g) rv).
Proof.
  assert (8 * words / 8 = words) as Hw.
  { rewrite Nat.mul_comm. apply Nat.div_mul. lia. }
  induction n as [|n IH]; intros a p a' p'; simpl.
  - intros [= <- <-]. split; [lia|]. split; [done|]. split; [done|]. intros; lia.
  - rewrite Hw.
    destruct (read_words a p words) as [temp|] eqn:Htemp; simpl; [|done].
    assert (temp = take words (drop p a)) as ->.
    { unfold read_words in Htemp. case_decide; [|done]. by injection Htemp. }
    destruct (remap4_cols _ idx (8 * words) (8 * words) 0 (a, p)) as [[a1 p1]|] eqn:Hcols;
      simpl; [|done].
    change 0 with (8 * 0) in Hcols.
    apply remap4_cols_spec in Hcols as (-> & Hlen1 & Hout1 & Hin1); [|lia].
    rewrite Nat.sub_0_r in *.
    intros H. apply IH in H as (-> & Hlen & Hout & Hin).
    split; [lia|]. split; [congruence|]. split.
    + intros q Hq. rewrite Hout by lia. apply Hout1. lia.
    + intros [|r] g Hr Hg.
      * destruct (Hin1 g Hg) as (rv & Hl & Hasm). exists rv.
        simpl. rewrite !Nat.add_0_r. split; [|done]. rewrite Hout by lia. done.
      * destruct (Hin r g ltac:(lia) Hg) as (rv & Hl & Hasm). exists rv.
        replace (p + S r * words + g) with (p + words + r * words + g) by lia.
        split; [done|].
        replace (p + S r * words) with (p + words + r * words) by lia.
        assert (take words (drop (p + words + r * words) a1) =
                take words (drop (p + words + r * words) a)) as <-; [|done].
        apply list_eq. intros k. destruct (decide (k < words)).
        -- rewrite !lookup_take_lt, !lookup_drop by done. apply Hout1. lia.
        -- by rewrite !lookup_take_ge by lia.
Qed.

Lemma remap4_rows_total idx words n : ∀ a p,
  (∀ c, c < 8 * words → ∃ i, idx !! c = Some i ∧ (0 ≤ i < Z.of_nat (8 * words))%Z) →
  p + n * words ≤ length a →
  is_Some (remap4_rows idx (8 * words) n (a, p)).
Proof.
  assert (8 * words / 8 = words) as Hw.
  { rewrite Nat.mul_comm. apply Nat.div_mul. lia. }
  induction n as [|n IH]; intros a p Hidx Hfit; simpl; [by eexists|].
  rewrite Hw. unfold read_words. case_decide; [|lia]. simpl.
  destruct (remap4_cols_total (take words (drop p a)) idx words (8 * words) 0 a p)
    as [[a1 p1] H1].
  - intros c Hc. destruct (Hidx c Hc) as (i & Hi & Hr). exists i. split; [done|].
    rewrite length_take, length_drop.
    assert (i / 8 < Z.of_nat words)%Z by (apply Z.div_lt_upper_bound; lia).
    assert (0 ≤ i / 8)%Z by (apply Z.div_pos; lia). lia.
  - lia.
  - lia.
  - lia.
  - pose proof H1 as H1'. change (8 * 0) with 0 in H1'. rewrite H1'. simpl.
    apply remap4_cols_spec in H1 as (-> & Hlen & _); [|lia].
    apply IH; [done|]. lia.
Qed.


End Packed.

Section EndToEnd.
Local Open Scope Z_scope.

Lemma testbit_nibble x n : 0 ≤ n → Z.testbit x n = Z.testbit (nibble x (n / 4)) (n mod 4).
Proof.
  intros Hn.
  pose proof (Z.div_mod n 4 ltac:(lia)) as Hdm.
  pose proof (Z.mod_pos_bound n 4 ltac:(lia)) as Hm.
  assert (0 ≤ n / 4) as Hq by (apply Z.div_pos; lia).
  rewrite nibble_testbit by lia.
  rewrite bool_decide_eq_true_2, andb_true_r by lia. f_equal. lia.
Qed.

Lemma word_of_nibbles rv : (∀ k, 8 ≤ k → nibble rv k = 0) → 0 ≤ rv < 2 ^ 32.
Proof.
  intros H. assert (rv = rv mod 2 ^ 32) as ->; [|apply Z.mod_pos_bound; lia].
  apply Z.bits_inj'. intros n Hn. destruct (decide (n < 32)).
  - by rewrite Z.mod_pow2_bits_low by lia.
  - rewrite Z.mod_pow2_bits_high by lia. rewrite testbit_nibble by done.
    rewrite H; [apply Z.bits_0|].
    apply Z.div_le_lower_bound; lia.
Qed.

Local Open Scope nat_scope.
Local Arguments Nat.mul : simpl never.
Local Arguments Nat.div : simpl never.

Lemma cell_split q rows cols :
  q < rows * cols → ∃ r c, r < rows ∧ c < cols ∧ q = r * cols + c.
Proof.
  intros Hq. assert (cols ≠ 0) as Hc by (intros ->; lia).
  exists (q / cols), (q mod cols).
  pose proof (Nat.div_mod_eq q cols). pose proof (Nat.mod_upper_bound q cols Hc).
  split; [|split; [done|lia]]. apply Nat.Div0.div_lt_upper_bound. lia.
Qed.

Lemma identity_lookup n c : c < n → data (identity_index n) !! c = Some (Z.of_nat c).
Proof.
  intros Hc. simpl. rewrite list_lookup_fmap, lookup_seq_lt by done. done.
Qed.

Lemma identity_is_index n : fits_int n → is_index (identity_index n) n (Z.of_nat n).
Proof.
  intros Hn. split; [done|]. split; [done|]. split; [|split; [|done]].
  - simpl. by rewrite length_fmap, length_seq.
  - apply Forall_lookup_2. intros c i Hi.
    assert (c < n) as Hc.
    { apply lookup_lt_Some in Hi. simpl in Hi. by rewrite length_fmap, length_seq in Hi. }
    rewrite identity_lookup in Hi by done. injection Hi as <-. lia.
Qed.

Lemma with_data_same t : with_data t (data t) = t.
Proof. by destruct t. Qed.

(** The dense remapper, end to end. *)
Lemma tensor_remap_returns tensor index rows cols :
  is_matrix tensor rows cols → is_index index cols (Z.of_nat cols) →
  ∃ d, tensor_remap tensor index = (Returned, with_data tensor d) ∧
    length d = rows * cols ∧
    ∀ r c, r < rows → c < cols → ∃ i, data index !! c = Some i ∧ Z.to_nat i < cols ∧
      d !! (r * cols + c) = data tensor !! (r * cols + Z.to_nat i).
Proof.
  intros Hm Hi. destruct (checks_pass _ _ _ _ _ Hm Hi) as (H1 & H2 & H3).
  destruct (tensor_remap_body_spec _ _ _ _ Hm Hi) as (d & Hd & Hlen & Hcells).
  exists d. unfold tensor_remap, tensor_remap_in. rewrite H1, H2, H3, Hd. done.
Qed.

Lemma tensor_remap_identity tensor rows cols :
  is_matrix tensor rows cols →
  tensor_remap tensor (identity_index cols) = (Returned, tensor).
Proof.
  intros Hm. pose proof Hm as (_ & _ & _ & _ & _ & Hbc).
  destruct (tensor_remap_returns _ _ _ _ Hm (identity_is_index cols Hbc))
    as (d & -> & Hlen & Hcells).
  f_equal. rewrite <- (with_data_same tensor) at 2. f_equal.
  pose proof Hm as (_ & _ & Hlen' & _).
  apply list_eq. intros q. destruct (decide (q < rows * cols)) as [Hq|Hq].
  - destruct (cell_split _ _ _ Hq) as (r & c & Hr & Hc & ->).
    destruct (Hcells r c Hr Hc) as (i & Hi & _ & ->).
    rewrite identity_lookup in Hi by done. injection Hi as <-. by rewrite Nat2Z.id.
  - by rewrite !lookup_ge_None_2 by lia.
Qed.

(** The packed remapper, end to end. *)
Lemma checks_pass_4bit tensor index rows words bound :
  is_matrix tensor rows words → is_index index (8 * words) bound →
  TORCH_CHECK_SHAPES index 0 tensor 1 8 = true ∧
  TORCH_CHECK_DTYPE tensor kInt = true ∧ TORCH_CHECK_DTYPE index kInt = true.
Proof.
  intros (Hd & Hs & _) (Hd' & Hs' & _).
  unfold TORCH_CHECK_SHAPES, TORCH_CHECK_DTYPE, size. rewrite Hd, Hd', Hs, Hs'. simpl.
  rewrite !bool_decide_eq_true. split; [lia|done].
Qed.

Lemma tensor_remap_4bit_returns tensor index rows words :
  is_matrix tensor rows words → is_index index (8 * words) (Z.of_nat (8 * words)) →
  ∃ d, tensor_remap_4bit tensor index = (Returned, with_data tensor d) ∧
    length d = rows * words ∧
    ∀ r g, r < rows → g < words → ∃ rv, d !! (r * words + g) = Some rv ∧
      assembled (row (data tensor) words r) (data index) (8 * g) rv.
Proof.
  intros Hm Hi. destruct (checks_pass_4bit _ _ _ _ _ Hm Hi) as (H1 & H2 & H3).
  pose proof Hm as (_ & Hs & Hlen & _ & Hbr & _). pose proof Hi as (_ & Hs' & _ & _ & Hbc).
  unfold tensor_remap_4bit, tensor_remap_4bit_in, tensor_remap_4bit_body, size.
  rewrite H1, H2, H3, Hs, Hs'. simpl.
  rewrite !to_int_small by done.
  rewrite decide_False by (intros [_ Hno]; apply Hno; split; [lia|done]).
  rewrite !Nat2Z.id.
  destruct (remap4_rows_total (data index) words rows (data tensor) 0) as [[d p] Hrun].
  - intros c Hc. by apply (index_lookup index (8 * words)).
  - lia.
  - rewrite Hrun. simpl. exists d. split; [done|].
    apply remap4_rows_spec in Hrun as (_ & Hlen' & _ & Hin).
    split; [congruence|]. intros r g Hr Hg.
    destruct (Hin r g Hr Hg) as (rv & Hl & Hasm). exists rv.
    rewrite !Nat.add_0_l in *. split; [done|]. unfold row.
    by rewrite (Nat.mul_comm r words) in *.
Qed.

Lemma tensor_remap_4bit_identity tensor rows words :
  is_matrix tensor rows words → fits_int (8 * words) →
  tensor_remap_4bit tensor (identity_index (8 * words)) = (Returned, tensor).
Proof.
  intros Hm Hbc.
  destruct (tensor_remap_4bit_returns _ _ _ _ Hm (identity_is_index (8 * words) Hbc))
    as (d & -> & Hlen & Hcells).
  f_equal. rewrite <- (with_data_same tensor) at 2. f_equal.
  pose proof Hm as (_ & _ & Hlen' & Hrange & _).
  apply list_eq. intros q. destruct (decide (q < rows * words)) as [Hq|Hq].
  - destruct (cell_split _ _ _ Hq) as (r & g & Hr & Hg & ->).
    destruct (Hcells r g Hr Hg) as (rv & -> & Hslots & Hhigh).
    destruct (lookup_lt_is_Some_2 (data tensor) (r * words + g)) as [w Hw]; [lia|].
    rewrite Hw. f_equal. apply nibble_ext. intros k Hk.
    pose proof (Forall_lookup_1 _ _ _ _ Hrange Hw) as Hwr. simpl in Hwr.
    destruct (decide (k < 8)%Z) as [Hk8|Hk8].
    + destruct (Hslots (Z.to_nat k) ltac:(lia)) as (i & w' & Hi & Hw' & Hnib).
      rewrite identity_lookup in Hi by lia. injection Hi as <-.
      rewrite Z2Nat.id in Hnib by lia. rewrite Hnib.
      replace (Z.of_nat (8 * g + Z.to_nat k)) with (k + Z.of_nat g * 8)%Z in * by lia.
      rewrite Z.div_add, Z.div_small, Z.add_0_l, Nat2Z.id in Hw' by lia.
      rewrite row_lookup in Hw' by done.
      rewrite Z.mod_add, Z.mod_small by lia. congruence.
    + rewrite Hhigh by lia. symmetry. apply nibble_high; [done|lia].
  - by rewrite !lookup_ge_None_2 by lia.
Qed.


Lemma is_matrix_with_data tensor rows cols d :
  is_matrix tensor rows cols → length d = rows * cols →
  Forall (λ w, (0 ≤ w < 2 ^ 32)%Z) d →
  is_matrix (with_data tensor d) rows cols.
Proof. intros (Hd & Hs & _ & _ & Hbr & Hbc) Hlen Hall. by repeat split. Qed.

(** C5: on a rows x cols matrix of 32-bit values, with rows and cols below
    2^31 as [is_matrix] has them, and an index of cols entries below cols,
    [tensor_remap], the call whose [calloc] hands out the scratch buffer,
    returns, keeps the shape, and leaves at (r, c) the original element at
    (r, index[c]); row r of the result is the gather of row r of the input
    alone. *)
Theorem tensor_remap_gathers_each_row tensor index rows cols :
  is_matrix tensor rows cols → is_index index cols (Z.of_nat cols) →
  ∃ out, tensor_remap tensor index = (Returned, out) ∧ is_matrix out rows cols ∧
    (∀ r c, r < rows → c < cols → ∃ i, data index !! c = Some i ∧
        data out !! (r * cols + c) = data tensor !! (r * cols + Z.to_nat i)) ∧
    (∀ r, r < rows →
        row (data out) cols r = gather_row (row (data tensor) cols r) (data index)).
Proof.
  intros Hm Hi. destruct (tensor_remap_returns _ _ _ _ Hm Hi) as (d & Hrun & Hlen & Hcells).
  pose proof Hm as (_ & _ & Hlen0 & Hrange & _). pose proof Hi as (_ & _ & Hleni & _).
  exists (with_data tensor d). split; [done|]. split; [|split].
  - apply is_matrix_with_data; [done..|]. apply Forall_lookup_2. intros q w Hq.
    assert (q < rows * cols) as Hlt by (apply lookup_lt_Some in Hq; lia).
    destruct (cell_split _ _ _ Hlt) as (r & c & Hr & Hc & ->).
    destruct (Hcells r c Hr Hc) as (i & _ & _ & Heq). rewrite Heq in Hq.
    by apply (Forall_lookup_1 _ _ _ _ Hrange Hq).
  - intros r c Hr Hc. destruct (Hcells r c Hr Hc) as (i & Hl & _ & Heq). by exists i.
  - intros r Hr. apply list_eq. intros c. simpl. destruct (decide (c < cols)) as [Hc|Hc].
    + destruct (Hcells r c Hr Hc) as (i & Hl & Hlt & Heq).
      rewrite row_lookup, Heq by done. unfold gather_row.
      rewrite list_lookup_fmap, Hl. simpl. rewrite row_lookup by done.
      destruct (lookup_lt_is_Some_2 (data tensor) (r * cols + Z.to_nat i)) as [x Hx]; [nia|].
      by rewrite Hx.
    + rewrite !lookup_ge_None_2; [done|..].
      * unfold gather_row. rewrite length_fmap. lia.
      * unfold row. rewrite length_take. lia.
Qed.

Lemma tensor_remap_gathers_each_row_witness :
  ∃ out, tensor_remap example_row example_reversal = (Returned, out) ∧
    is_matrix out 1 8 ∧
    (∀ r c, r < 1 → c < 8 → ∃ i, data example_reversal !! c = Some i ∧
        data out !! (r * 8 + c) = data example_row !! (r * 8 + Z.to_nat i)) ∧
    (∀ r, r < 1 →
        row (data out) 8 r = gather_row (row (data example_row) 8 r) (data example_reversal)).
Proof.
  apply (tensor_remap_gathers_each_row example_row example_reversal 1 8).
  - repeat split. repeat (constructor; [lia|]). constructor.
  - repeat split. repeat (constructor; [simpl; lia|]). constructor.
Defined.

(** C6: on a packed matrix of rows x words 32-bit words and an index of
    8 * words entries below 8 * words, with rows and 8 * words below 2^31 as
    [is_matrix] and [is_index] have them, [tensor_remap_4bit], the call whose
    [calloc] hands out the scratch buffer, returns, keeps the shape, and for
    the logical output position c = 8 * g + b of row r the nibble b of the
    output word g is the nibble index[c] % 8 of the original word
    index[c] / 8 of the same row. *)
Theorem tensor_remap_4bit_permutes_nibbles tensor index rows words :
  is_matrix tensor rows words → is_index index (8 * words) (Z.of_nat (8 * words)) →
  ∃ out, tensor_remap_4bit tensor index = (Returned, out) ∧ is_matrix out rows words ∧
    ∀ r g b, r < rows → g < words → b < 8 → ∃ i w_out w_src,
      data index !! (8 * g + b) = Some i ∧
      data out !! (r * words + g) = Some w_out ∧
      data tensor !! (r * words + Z.to_nat (i / 8)) = Some w_src ∧
      nibble w_out (Z.of_nat b) = nibble w_src (i mod 8).
Proof.
  intros Hm Hi.
  destruct (tensor_remap_4bit_returns _ _ _ _ Hm Hi) as (d & Hrun & Hlen & Hcells).
  exists (with_data tensor d). split; [done|]. split.
  - apply is_matrix_with_data; [done..|]. apply Forall_lookup_2. intros q w Hq.
    assert (q < rows * words) as Hlt by (apply lookup_lt_Some in Hq; lia).
    destruct (cell_split _ _ _ Hlt) as (r & g & Hr & Hg & ->).
    destruct (Hcells r g Hr Hg) as (rv & Hrv & _ & Hhigh).
    assert (w = rv) as -> by congruence. by apply word_of_nibbles.
  - intros r g b Hr Hg Hb. destruct (Hcells r g Hr Hg) as (rv & Hrv & Hslots & _).
    destruct (Hslots b Hb) as (i & w & Hl & Hw & Hnib).
    exists i, rv, w. split; [done|]. split; [done|]. split; [|done].
    assert (Z.to_nat (i / 8) < words) as Hlt.
    { apply lookup_lt_Some in Hw. unfold row in Hw. rewrite length_take in Hw. lia. }
    by rewrite row_lookup in Hw.
Qed.

Lemma tensor_remap_4bit_permutes_nibbles_witness :
  ∃ out, tensor_remap_4bit example_packed example_reversal = (Returned, out) ∧
    is_matrix out 1 1 ∧
    ∀ r g b, r < 1 → g < 1 → b < 8 → ∃ i w_out w_src,
      data example_reversal !! (8 * g + b) = Some i ∧
      data out !! (r * 1 + g) = Some w_out ∧
      data example_packed !! (r * 1 + Z.to_nat (i / 8)) = Some w_src ∧
      nibble w_out (Z.of_nat b) = nibble w_src (i mod 8).
Proof.
  apply (tensor_remap_4bit_permutes_nibbles example_packed example_reversal 1 1).
  - repeat split. repeat (constructor; [lia|]). constructor.
  - repeat split. repeat (constructor; [simpl; lia|]). constructor.
Defined.

(** C7: with the identity permutation as index, [tensor_remap] and
    [tensor_remap_4bit], the calls whose [calloc] hands out the scratch
    buffer, return and leave every element of the matrix as it was, for
    dimensions that fit the [int]s of the code: rows and n below 2^31, and
    8 * n below 2^31 for the packed remapper. *)
Theorem remap_identity_is_noop tensor rows n :
  is_matrix tensor rows n →
  tensor_remap tensor (identity_index n) = (Returned, tensor) ∧
  (fits_int (8 * n) →
     tensor_remap_4bit tensor (identity_index (8 * n)) = (Returned, tensor)).
Proof.
  intros Hm. split.
  - by apply (tensor_remap_identity tensor rows n).
  - by apply (tensor_remap_4bit_identity tensor rows n).
Qed.

Lemma remap_identity_is_noop_witness :
  tensor_remap example_row (identity_index 8) = (Returned, example_row) ∧
  tensor_remap_4bit example_row (identity_index (8 * 8)) = (Returned, example_row).
Proof.
  destruct (remap_identity_is_noop example_row 1 8) as [Hdense Hpacked].
  - repeat split. repeat (constructor; [lia|]). constructor.
  - split; [exact Hdense|]. apply Hpacked. reflexivity.
Defined.

Lemma tensor_remap_in_no_rows scratch tensor index cols :
  is_matrix tensor 0 cols → is_index index cols (Z.of_nat cols) →
  (tensor_remap_in scratch tensor index).1 = Returned.
Proof.
  intros Hm Hi. destruct (checks_pass _ _ _ _ _ Hm Hi) as (H1 & H2 & H3).
  pose proof Hm as (_ & Hs & _ & _ & Hbr & Hbc).
  unfold tensor_remap_in, tensor_remap_body, size. rewrite H1, H2, H3, Hs. simpl.
  done.
Qed.

Lemma tensor_remap_4bit_in_no_rows scratch tensor index words :
  is_matrix tensor 0 words → is_index index (8 * words) (Z.of_nat (8 * words)) →
  (tensor_remap_4bit_in scratch tensor index).1 = Returned.
Proof.
  intros Hm Hi. destruct (checks_pass_4bit _ _ _ _ _ Hm Hi) as (H1 & H2 & H3).
  pose proof Hm as (_ & Hs & _ & _ & Hbr & _). pose proof Hi as (_ & Hs' & _ & _ & Hbc).
  unfold tensor_remap_4bit_in, tensor_remap_4bit_body, size.
  rewrite H1, H2, H3, Hs, Hs'. simpl.
  done.
Qed.

(** C10: neither remapper tests what [calloc] hands out. When it hands out
    the scratch buffer (or the matrix has no row, so that the buffer is never
    used), every entry of the index is in range (below cols for the dense
    variant, below 8 times the packed word count for the packed one) and the
    dimensions fit the [int]s of the code (rows, and cols or 8 times the
    word count, below 2^31), no access of either remapper leaves its array,
    the scratch buffer included: the call returns, whether or not the index
    is a bijection. *)
Theorem remap_accesses_stay_in_bounds scratch tensor index rows n :
  rows = 0 ∨ scratch = true →
  (is_matrix tensor rows n → is_index index n (Z.of_nat n) →
     (tensor_remap_in scratch tensor index).1 = Returned) ∧
  (is_matrix tensor rows n → is_index index (8 * n) (Z.of_nat (8 * n)) →
     (tensor_remap_4bit_in scratch tensor index).1 = Returned).
Proof.
  intros [->| ->].
  - split; intros Hm Hi.
    + by apply (tensor_remap_in_no_rows scratch tensor index n).
    + by apply (tensor_remap_4bit_in_no_rows scratch tensor index n).
  - split; intros Hm Hi.
    + destruct (tensor_remap_returns _ _ _ _ Hm Hi) as (d & Hrun & _).
      unfold tensor_remap in Hrun. by rewrite Hrun.
    + destruct (tensor_remap_4bit_returns _ _ _ _ Hm Hi) as (d & Hrun & _).
      unfold tensor_remap_4bit in Hrun. by rewrite Hrun.
Qed.

Lemma remap_accesses_stay_in_bounds_witness :
  (tensor_remap_in true example_row example_repeats).1 = Returned ∧
  (tensor_remap_4bit_in true example_packed example_repeats).1 = Returned.
Proof.
  split.
  - apply (remap_accesses_stay_in_bounds true example_row example_repeats 1 8).
    + right. reflexivity.
    + repeat split. repeat (constructor; [lia|]). constructor.
    + repeat split. repeat (constructor; [simpl; lia|]). constructor.
  - apply (remap_accesses_stay_in_bounds true example_packed example_repeats 1 1).
    + right. reflexivity.
    + repeat split. repeat (constructor; [lia|]). constructor.
    + repeat split. repeat (constructor; [simpl; lia|]). constructor.
Defined.

End EndToEnd.

End RemapProofs.

(** ** The segment loader *)

Module LoaderProofs.
Import Loader.

Section Basics.

(** *** Ranges and their counts *)

Lemma times_covered_app p l1 l2 :
  times_covered p (l1 ++ l2) = (times_covered p l1 + times_covered p l2)%nat.
Proof. induction l1 as [|r l1 IH]; simpl; [done|]. case_decide; lia. Qed.

Lemma times_covered_one p a b :
  times_covered p [(a, b)] = if decide (a ≤ p < b) then 1%nat else 0%nat.
Proof. simpl. by case_decide. Qed.

Lemma times_covered_outside p l (lo hi : Z) :
  Forall (λ r, lo ≤ r.1 ∧ r.2 ≤ hi) l → ¬ (lo ≤ p < hi) → times_covered p l = 0%nat.
Proof.
  induction 1 as [|r l [Hlo Hhi] _ IH]; intros Hp; simpl; [done|].
  case_decide; [lia|]. by apply IH.
Qed.

Lemma holding_insert_count p cs j c c' :
  cs !! j = Some c →
  (times_covered p (holding (<[j := c']> cs)) + times_covered p (held c) =
   times_covered p (holding cs) + times_covered p (held c'))%nat.
Proof.
  revert j. induction cs as [|x cs IH]; intros [|j] Hj; simplify_eq/=.
  - unfold holding. simpl. rewrite !times_covered_app. lia.
  - unfold holding in *. simpl. rewrite !times_covered_app.
    specialize (IH j Hj). lia.
Qed.

Lemma holding_insert_Forall (P : Z * Z → Prop) cs j c' :
  Forall P (holding cs) → Forall P (held c') → Forall P (holding (<[j := c']> cs)).
Proof.
  revert j. induction cs as [|x cs IH]; intros j Hcs Hc; [done|].
  unfold holding in *. simpl in Hcs. apply Forall_app in Hcs as [Hx Hcs].
  destruct j as [|j]; simpl; apply Forall_app; split; auto.
Qed.

Lemma holding_lookup_Forall (P : Z * Z → Prop) cs j c :
  Forall P (holding cs) → cs !! j = Some c → Forall P (held c).
Proof.
  revert j. induction cs as [|x cs IH]; intros j Hcs Hj; [done|].
  unfold holding in *. simpl in Hcs. apply Forall_app in Hcs as [Hx Hcs].
  destruct j as [|j]; simplify_eq/=; eauto.
Qed.

Lemma holding_all_exited cs : Forall (λ c, c = CExit) cs → holding cs = [].
Proof. induction 1 as [|c cs -> _ IH]; [done|]. unfold holding in *. simpl. done. Qed.

Lemma holding_replicate_wait n : holding (replicate n CWait) = [].
Proof. induction n as [|n IH]; [done|]. unfold holding in *. simpl. done. Qed.

Lemma times_covered_lookup p l j r :
  l !! j = Some r → r.1 ≤ p < r.2 → (1 ≤ times_covered p l)%nat.
Proof.
  revert j. induction l as [|x l IH]; intros [|j] Hj Hr; simplify_eq/=.
  - rewrite decide_True by done. lia.
  - specialize (IH j Hj Hr). case_decide; lia.
Qed.

(** Two ranges of a list that share a byte make its count two at least. *)
Lemma times_covered_overlap p l i j r1 r2 :
  (i < j)%nat → l !! i = Some r1 → l !! j = Some r2 →
  r1.1 ≤ p < r1.2 → r2.1 ≤ p < r2.2 → (2 ≤ times_covered p l)%nat.
Proof.
  revert i j. induction l as [|x l IH]; intros i j Hij Hi Hj H1 H2; [done|].
  destruct j as [|j]; [lia|]. simpl in Hj. destruct i as [|i]; simpl in *.
  - injection Hi as ->. rewrite decide_True by done.
    pose proof (times_covered_lookup p l j r2 Hj H2). lia.
  - specialize (IH i j ltac:(lia) Hi Hj H1 H2). case_decide; lia.
Qed.

(** *** Buffers *)

Lemma write_at_Some buf pos d buf' :
  write_at buf pos d = Some buf' →
  0 ≤ pos ∧ length buf' = length buf ∧
  ∀ q : nat, buf' !! q =
    if decide (Z.to_nat pos ≤ q < Z.to_nat pos + length d)%nat
    then d !! (q - Z.to_nat pos)%nat else buf !! q.
Proof.
  unfold write_at. case_decide as H; [|done]. destruct H as [Hpos Hfit].
  intros [= <-]. split; [done|]. split.
  - rewrite !length_app, length_take, length_drop. lia.
  - intros q. case_decide as Hq.
    + rewrite lookup_app_r; rewrite length_take; [|lia].
      rewrite lookup_app_l by lia. f_equal. lia.
    + destruct (decide (q < Z.to_nat pos)%nat).
      * rewrite lookup_app_l by (rewrite length_take; lia).
        by rewrite lookup_take_lt by lia.
      * rewrite lookup_app_r; rewrite length_take; [|lia].
        rewrite lookup_app_r by lia. rewrite lookup_drop. f_equal. lia.
Qed.

Lemma write_at_fits buf pos d :
  0 ≤ pos → pos + Z.of_nat (length d) ≤ Z.of_nat (length buf) →
  is_Some (write_at buf pos d).
Proof. intros Hp Hfit. unfold write_at. case_decide as H; [by eexists|]. lia. Qed.

Lemma slice_length buf a b :
  0 ≤ a ≤ b → b ≤ Z.of_nat (length buf) → Z.of_nat (length (slice buf a b)) = b - a.
Proof. intros Ha Hb. unfold slice. rewrite length_take, length_drop. lia. Qed.

Lemma slice_lookup buf a b (k : nat) :
  0 ≤ a → Z.of_nat k < b - a → slice buf a b !! k = buf !! (Z.to_nat a + k)%nat.
Proof.
  intros Ha Hk. unfold slice. rewrite lookup_take_lt by lia. by rewrite lookup_drop.
Qed.

Lemma pread_spec file count off br d :
  pread file count off = (br, d) → 0 ≤ off < 2 ^ 63 → 0 ≤ count →
  br = Z.of_nat (length d) ∧ Z.of_nat (length d) ≤ count ∧
  ∀ k : nat, (k < length d)%nat → d !! k = file !! (Z.to_nat off + k)%nat.
Proof.
  unfold pread. case_decide; [lia|]. intros [= <- <-] Hoff Hc.
  split; [done|]. split.
  - rewrite length_take. lia.
  - intros k Hk. rewrite length_take in Hk. rewrite lookup_take_lt by lia.
    by rewrite lookup_drop.
Qed.

End Basics.

Section Arith.

Variable cfg : config.
Variables (offset size : Z).
Hypothesis Hvalid : valid_call cfg offset size.

Local Abbreviation T := (STLOADER_THREADS cfg).
Local Abbreviation B := (STLOADER_BLOCK_SIZE cfg).

Lemma wrap64_small x : 0 ≤ x < 2 ^ 64 → wrap64 x = x.
Proof. intros Hx. by apply Z.mod_small. Qed.

Lemma block_quotient (i k p : Z) :
  0 ≤ i < T → 0 ≤ k → (i + k * T) * B ≤ p < (i + k * T) * B + B →
  p / B = i + k * T.
Proof.
  intros Hi Hk Hp. destruct Hvalid as (HT & HB & _).
  symmetry. apply (Z.div_unique p B _ (p - (i + k * T) * B)); lia.
Qed.

(** A byte of the block at [(i + k T) B] belongs to worker [i]. *)
Lemma owner_in_block (i : nat) (k p : Z) :
  Z.of_nat i < T → 0 ≤ k →
  (Z.of_nat i + k * T) * B ≤ p < (Z.of_nat i + k * T) * B + B →
  owner cfg p = i.
Proof.
  intros Hi Hk Hp. destruct Hvalid as (HT & HB & _). unfold owner.
  rewrite (block_quotient (Z.of_nat i) k) by lia.
  rewrite Z.mod_add, Z.mod_small by lia. lia.
Qed.

(** The bytes of worker [i] past its block at [(i + k T) B] lie at least one
    stride further. *)
Lemma owner_next (i : nat) (k p : Z) :
  owner cfg p = i → 0 ≤ k → 0 ≤ p → (Z.of_nat i + k * T) * B + B ≤ p →
  (Z.of_nat i + k * T) * B + T * B ≤ p.
Proof.
  intros Hown Hk Hp0 Hp. destruct Hvalid as (HT & HB & _). unfold owner in Hown.
  pose proof (Z.div_mod p B ltac:(lia)) as Hdm.
  pose proof (Z.mod_pos_bound p B ltac:(lia)) as Hm.
  pose proof (Z.div_mod (p / B) T ltac:(lia)) as Hdm'.
  pose proof (Z.mod_pos_bound (p / B) T ltac:(lia)) as Hm'.
  assert ((p / B) mod T = Z.of_nat i) as Hi by lia.
  set (q := p / B) in *. set (m := q / T) in *.
  assert (Z.of_nat i + k * T < q) by nia.
  assert (k < m) by nia.
  assert (Z.of_nat i + (k + 1) * T ≤ q) by nia.
  nia.
Qed.

Lemma owner_spawned p :
  0 ≤ p < size →
  0 ≤ Z.of_nat (owner cfg p) < T ∧ Z.of_nat (owner cfg p) * B ≤ p.
Proof.
  intros Hp. destruct Hvalid as (HT & HB & _). unfold owner.
  pose proof (Z.div_mod p B ltac:(lia)) as Hdm.
  pose proof (Z.mod_pos_bound p B ltac:(lia)) as Hm.
  assert (0 ≤ p / B) by (apply Z.div_pos; lia).
  pose proof (Z.div_mod (p / B) T ltac:(lia)) as Hdm'.
  pose proof (Z.mod_pos_bound (p / B) T ltac:(lia)) as Hm'.
  assert (0 ≤ p / B / T) by (apply Z.div_pos; lia).
  rewrite Z2Nat.id by lia. split; [lia|]. nia.
Qed.

(** The chunks of the first pass. *)
Lemma chunk_size_eq : chunk_size cfg size = (size + T - 1) / T.
Proof.
  destruct Hvalid as (HT & HB & HTB & Hs & _). unfold chunk_size.
  rewrite wrap64_small; [done|]. assert (T ≤ T * B) by nia. lia.
Qed.

Lemma chunk_size_bounds :
  0 ≤ chunk_size cfg size ∧ size ≤ T * chunk_size cfg size ∧
  T * chunk_size cfg size ≤ size + T - 1.
Proof.
  destruct Hvalid as (HT & HB & HTB & Hs & _). rewrite chunk_size_eq.
  pose proof (Z.div_mod (size + T - 1) T ltac:(lia)) as Hdm.
  pose proof (Z.mod_pos_bound (size + T - 1) T ltac:(lia)) as Hm.
  assert (0 ≤ (size + T - 1) / T) by (apply Z.div_pos; lia). lia.
Qed.

Lemma chunk_of_byte (i : nat) p :
  0 ≤ p < size →
  Z.to_nat (p / chunk_size cfg size) = i ↔
  Z.of_nat i * chunk_size cfg size ≤ p < Z.of_nat i * chunk_size cfg size + chunk_size cfg size.
Proof.
  intros Hp. destruct Hvalid as (HT & HB & _).
  pose proof chunk_size_bounds as (Hc0 & Hc1 & Hc2).
  set (cs := chunk_size cfg size) in *.
  assert (0 < cs) by nia.
  pose proof (Z.div_mod p cs ltac:(lia)) as Hdm.
  pose proof (Z.mod_pos_bound p cs ltac:(lia)) as Hm.
  assert (0 ≤ p / cs) by (apply Z.div_pos; lia).
  split.
  - intros <-. rewrite Z2Nat.id by lia. lia.
  - intros Hi. assert (p / cs = Z.of_nat i); [|lia].
    symmetry. apply (Z.div_unique p cs _ (p - Z.of_nat i * cs)); lia.
Qed.

Lemma chunk_index_bound p :
  0 ≤ p < size → (Z.to_nat (p / chunk_size cfg size) < Z.to_nat T)%nat.
Proof.
  intros Hp. destruct Hvalid as (HT & HB & _).
  pose proof chunk_size_bounds as (Hc0 & Hc1 & Hc2).
  set (cs := chunk_size cfg size) in *.
  assert (0 < cs) by nia.
  assert (p / cs < T) by (apply Z.div_lt_upper_bound; nia).
  assert (0 ≤ p / cs) by (apply Z.div_pos; lia). lia.
Qed.

End Arith.

Section Phase1.

Variable cfg : config.
Variable world : World.
Variables (offset size : Z).
Hypothesis Hvalid : valid_call cfg offset size.

Local Abbreviation T := (STLOADER_THREADS cfg).
Local Abbreviation B := (STLOADER_BLOCK_SIZE cfg).
Local Abbreviation Inv1 := (Inv1 cfg size).
Local Abbreviation Inv2 := (Inv2 cfg world offset size).

Lemma to_ssize_small x : 0 ≤ x < 2 ^ 63 → to_ssize x = x.
Proof. intros Hx. unfold to_ssize. case_decide; lia. Qed.

Lemma reader_body_inv i st :
  Inv1 st → read_threads st !! i = Some RReady →
  pc (reader_body cfg world offset size i st) = pc st ∧
  Inv1 (reader_body cfg world offset size i st).
Proof.
  intros [Hbuf Hdev Hlen Hidle Hreads] Hi.
  pose proof Hvalid as (HT & HB & HTB & Hs & Hoff & Hoffs).
  pose proof (chunk_size_bounds cfg offset size Hvalid) as (Hc0 & Hc1 & Hc2).
  assert (Z.of_nat i < T) as HiT by (apply lookup_lt_Some in Hi; lia).
  unfold reader_body. set (cs := chunk_size cfg size) in *.
  assert (T ≤ T * B) by nia.
  assert (0 ≤ Z.of_nat i * cs ∧ Z.of_nat i * cs + cs ≤ T * cs) as [Hs0 Hs1] by nia.
  rewrite (wrap64_small (Z.of_nat i * cs)) by lia.
  rewrite (wrap64_small (Z.of_nat i * cs + cs)) by lia.
  set (start := Z.of_nat i * cs) in *.
  set (end_ := Z.min (start + cs) size).
  assert (∀ p, 0 ≤ p < size →
    (Z.to_nat (p / cs) = i ↔ start ≤ p < end_)) as Hchunk.
  { intros p Hp. pose proof (chunk_of_byte cfg offset size Hvalid i p Hp) as Hc.
    change (chunk_size cfg size) with cs in Hc. unfold end_, start. lia. }
  assert (∀ p, 0 ≤ p < size → Z.to_nat (p / cs) ≠ i →
    <[i := RDone]> (read_threads st) !! Z.to_nat (p / cs) =
    read_threads st !! Z.to_nat (p / cs)) as Hother.
  { intros p Hp Hne. by apply list_lookup_insert_ne. }
  case_decide as Hempty.
  - split; [done|]. split; simpl; try done.
    + by rewrite length_insert.
    + intros Hrf p Hp. change (chunk_size cfg size) with cs.
      destruct (decide (Z.to_nat (p / cs) = i)) as [Heq|Hne].
      * apply Hchunk in Heq; [|done]. lia.
      * rewrite Hother by done. by apply Hreads.
  - destruct (fs_file world) as [file|] eqn:Hfile.
    + destruct (pread file (wrap64 (end_ - start)) (wrap64 (offset + start)))
        as [br d] eqn:Hpread.
      assert (0 ≤ end_ - start < 2 ^ 63) as Hcount by lia.
      rewrite (wrap64_small (end_ - start)) in * by lia.
      rewrite (wrap64_small (offset + start)) in Hpread by lia.
      apply pread_spec in Hpread as (-> & Hshort & Hdata); [|lia..].
      destruct (write_at_fits (load_buffer st) start d) as [lb Hlb]; [lia..|].
      rewrite Hlb. apply write_at_Some in Hlb as (_ & Hlblen & Hlbdata).
      split; [done|]. split; simpl; try done.
      * lia.
      * by rewrite length_insert.
      * rewrite to_ssize_small by lia. case_decide as Hfull; [done|].
        intros Hrf p Hp. change (chunk_size cfg size) with cs.
        rewrite times_covered_app, times_covered_one.
        rewrite Hfull.
        replace (start + (end_ - start)) with end_ by lia.
        destruct (decide (Z.to_nat (p / cs) = i)) as [Heq|Hne].
        -- rewrite (Hreads Hrf p Hp), Heq, Hi.
           rewrite list_lookup_insert_eq by (by apply lookup_lt_Some in Hi).
           apply Hchunk in Heq; [|done].
           rewrite decide_False, decide_True, decide_True by (done || lia). done.
        -- rewrite Hother by done. rewrite (Hreads Hrf p Hp).
           rewrite (decide_False (P := start ≤ p < end_)); [lia|].
           intros Hin. by apply Hchunk in Hin.
    + split; [done|]. split; simpl; try done. by rewrite length_insert.
Qed.

End Phase1.

Section MainThread.

Variable cfg : config.
Variable world : World.
Variables (offset size : Z).
Hypothesis Hvalid : valid_call cfg offset size.

Local Abbreviation T := (STLOADER_THREADS cfg).
Local Abbreviation B := (STLOADER_BLOCK_SIZE cfg).
Local Abbreviation Inv1 := (Inv1 cfg size).
Local Abbreviation Inv2 := (Inv2 cfg world offset size).
Local Abbreviation Inv := (Inv cfg world offset size).

Lemma spawn_lookup n : ∀ i0 (j : nat) w,
  0 ≤ i0 →
  spawn_load_workers cfg size n i0 !! j = Some w →
  w = LStart ((i0 + Z.of_nat j) * B) ∧ i0 + Z.of_nat j < T ∧ (i0 + Z.of_nat j) * B < size.
Proof.
  pose proof Hvalid as (HT & HB & HTB & Hs & _).
  induction n as [|n IH]; intros i0 j w Hi0; simpl; [done|].
  case_decide as Hc; [|done]. destruct Hc as [Hc1 Hc2].
  rewrite wrap64_small in * by nia.
  destruct j as [|j]; simpl.
  - intros [= <-]. rewrite Z.add_0_r. done.
  - intros Hj. apply IH in Hj; [|lia].
    by replace (i0 + Z.of_nat (S j)) with (i0 + 1 + Z.of_nat j) by lia.
Qed.

Lemma spawn_is_Some n : ∀ i0 (j : nat),
  0 ≤ i0 → (j < n)%nat → i0 + Z.of_nat j < T → (i0 + Z.of_nat j) * B < size →
  is_Some (spawn_load_workers cfg size n i0 !! j).
Proof.
  pose proof Hvalid as (HT & HB & HTB & Hs & _).
  induction n as [|n IH]; intros i0 j Hi0 Hj HjT Hjs; [lia|]. simpl.
  rewrite wrap64_small by nia.
  rewrite decide_True by nia.
  destruct j as [|j]; simpl; [by eexists|].
  apply IH; [lia..| |]; by replace (i0 + 1 + Z.of_nat j) with (i0 + Z.of_nat (S j)) by lia.
Qed.

Lemma spawn_copy_no_exit cuda : CExit ∉ spawn_copy_workers cfg cuda.
Proof.
  unfold spawn_copy_workers. destruct cuda; [|by apply not_elem_of_nil].
  intros [? _]%elem_of_replicate. done.
Qed.

Lemma spawn_copy_holding cuda : holding (spawn_copy_workers cfg cuda) = [].
Proof. destruct cuda; [apply holding_replicate_wait|done]. Qed.

Lemma main_step_inv st : Inv st → Inv (main_step cfg size st).
Proof.
  pose proof Hvalid as (HT & HB & HTB & Hs & _).
  unfold Inv at 1, main_step. destruct (pc st) as [| | |o] eqn:Hpc.
  - intros HI. pose proof HI as [Hbuf Hdev Hlen (Hts & Hcs & Hdq & Hpu & Hco & Hlf & Hdl) Hreads].
    case_decide as Hall; [|by (unfold Inv; rewrite Hpc)].
    destruct (read_failed st) eqn:Hrf.
    { unfold Inv. simpl. by rewrite Hdl. }
    unfold Inv. simpl. split; simpl; try done.
    + intros i w Hw. apply spawn_lookup in Hw as (-> & HiT & His); [|done].
      split; [lia|]. exists 0. simpl. split; [done|]. split; [lia|]. nia.
    + intros i Hi His. apply spawn_is_Some; [lia..|]. rewrite Z2Nat.id by lia. lia.
    + intros _ p Hp.
      destruct (owner_spawned cfg offset size Hvalid p Hp) as [Hown1 Hown2].
      destruct (spawn_is_Some (Z.to_nat T) 0 (owner cfg p)) as [w Hw]; [lia..|].
      exists w. split; [done|].
      apply spawn_lookup in Hw as (-> & _); [|done]. simpl.
      rewrite Hpu. simpl. rewrite !decide_False by lia. split; [done|]. split; [|intros ?; lia].
      rewrite (Hreads eq_refl p Hp). rewrite decide_True; [done|].
      pose proof (chunk_index_bound cfg offset size Hvalid p Hp) as Hidx.
      destruct (lookup_lt_is_Some_2 (read_threads st)
        (Z.to_nat (p / chunk_size cfg size)) ltac:(lia)) as [r Hr].
      rewrite Hr. f_equal. by apply (Forall_lookup_1 _ _ _ _ Hall Hr).
    + intros _ p. by rewrite Hpu, Hco, Hdq, spawn_copy_holding.
    + rewrite Hpu, Hdq, spawn_copy_holding. done.
    + intros _ dev _ p _. rewrite Hco. simpl. lia.
    + by rewrite Hdl.
    + intros _ Hin. by apply spawn_copy_no_exit in Hin.
  - intros HI. pose proof HI as [Hbuf Hdev Hw Hsp Hbl Hq Hr Hcp Hdn Hdr Hcn].
    case_decide as Hall; [|by (unfold Inv; rewrite Hpc)].
    unfold Inv. simpl. split; [|done]. split; simpl; try done.
    intros Hlf Hin. by destruct (Hdr Hlf Hin) as [-> _].
  - intros HI. pose proof HI as [[Hbuf Hdev Hw Hsp Hbl Hq Hr Hcp Hdn Hdr Hcn] Hdl].
    case_decide as Hall; [|by (unfold Inv; rewrite Hpc)].
    destruct (load_failed st) eqn:Hlf.
    { unfold Inv. simpl. done. }
    unfold Inv. simpl. split; [|done]. split; simpl; try done.
  - intros H. unfold Inv. by rewrite Hpc.
Qed.

End MainThread.

Section LoadWorkers.

Variable cfg : config.
Variable world : World.
Variables (offset size : Z).
Hypothesis Hvalid : valid_call cfg offset size.

Local Abbreviation T := (STLOADER_THREADS cfg).
Local Abbreviation B := (STLOADER_BLOCK_SIZE cfg).
Local Abbreviation Inv2 := (Inv2 cfg world offset size).
Local Abbreviation inline_worker_step := (inline_worker_step cfg world offset size).

Lemma running_not_done st i w :
  Inv2 st → threads st !! i = Some w → w ≠ LExit → done_loading st = false.
Proof.
  intros HI Hw Hne. destruct (done_loading st) eqn:Hdl; [|done].
  pose proof (inv_done _ _ _ _ _ HI Hdl) as Hall.
  by pose proof (Forall_lookup_1 _ _ _ _ Hall Hw).
Qed.

Lemma insert_is_Some {A} (l : list A) i x j : is_Some (l !! j) → is_Some (<[i := x]> l !! j).
Proof. rewrite !lookup_lt_is_Some, length_insert. done. Qed.

(** The [fopen] of a load worker. *)
Lemma worker_open_inv st i a :
  Inv2 st → threads st !! i = Some (LStart a) →
  worker_frame st (inline_worker_step i (LStart a) st) ∧
  Inv2 (inline_worker_step i (LStart a) st).
Proof.
  intros HI Hi. pose proof HI as [Hbuf Hdev Hw Hsp Hbl Hq Hr Hcp Hdn Hdr Hcn].
  pose proof (running_not_done _ _ _ HI Hi ltac:(done)) as Hdl.
  pose proof (lookup_lt_Some _ _ _ Hi) as Hlt.
  simpl. destruct (fs_file world) as [file|] eqn:Hfile.
  - split; [done|]. split; simpl; try done.
    + intros j w Hj. destruct (decide (j = i)) as [->|Hne].
      * rewrite list_lookup_insert_eq in Hj by done. injection Hj as <-.
        by apply (Hw i (LStart a)).
      * rewrite list_lookup_insert_ne in Hj by done. by apply Hw.
    + intros j Hj Hjs. by apply insert_is_Some, Hsp.
    + intros Hlf p Hp. destruct (Hbl Hlf p Hp) as (w0 & Hw0 & Hfacts).
      destruct (decide (owner cfg p = i)) as [Heq|Hne].
      * exists (LLoop a). rewrite Heq in *. rewrite list_lookup_insert_eq by done.
        split; [done|]. by simplify_eq.
      * exists w0. by rewrite list_lookup_insert_ne.
    + by rewrite Hdl.
  - split; [done|]. split; simpl; try done.
    + intros j w Hj. destruct (decide (j = i)) as [->|Hne].
      * rewrite list_lookup_insert_eq in Hj by done. injection Hj as <-.
        split; [|done]. by apply (Hw i (LStart a)).
      * rewrite list_lookup_insert_ne in Hj by done. by apply Hw.
    + intros j Hj Hjs. by apply insert_is_Some, Hsp.
    + by rewrite Hdl.
Qed.

(** The hand-over of a block to the queue. *)
Lemma worker_push_inv st i a b :
  Inv2 st → threads st !! i = Some (LPush a b) →
  worker_frame st (inline_worker_step i (LPush a b) st) ∧
  Inv2 (inline_worker_step i (LPush a b) st).
Proof.
  intros HI Hi. pose proof HI as [Hbuf Hdev Hw Hsp Hbl Hq Hr Hcp Hdn Hdr Hcn].
  pose proof Hvalid as (HT & HB & HTB & Hs & Hoff & Hoffs).
  pose proof (running_not_done _ _ _ HI Hi ltac:(done)) as Hdl.
  pose proof (lookup_lt_Some _ _ _ Hi) as Hlt.
  destruct (Hw i _ Hi) as (HiT & k & Hk & Ha & Has & Hb).
  assert (0 ≤ a) as Ha0 by nia.
  assert (B ≤ T * B) as HBT by nia.
  simpl. rewrite wrap64_small by lia.
  split; [done|]. split; simpl; try done.
  - intros j w Hj. destruct (decide (j = i)) as [->|Hne].
    + rewrite list_lookup_insert_eq in Hj by done. injection Hj as <-.
      split; [done|]. exists (k + 1). split; [lia|]. split; [lia|]. lia.
    + rewrite list_lookup_insert_ne in Hj by done. by apply Hw.
  - intros j Hj Hjs. by apply insert_is_Some, Hsp.
  - intros Hlf p Hp. destruct (Hbl Hlf p Hp) as (w0 & Hw0 & Hpu & Hrd & Hok).
    rewrite times_covered_app, times_covered_one. simpl.
    destruct (decide (owner cfg p = i)) as [Heq|Hne].
    + exists (LLoop (a + T * B)). subst i.
      rewrite list_lookup_insert_eq by done. split; [done|].
      assert (w0 = LPush a b) as -> by congruence. simpl in *.
      split; [|done]. rewrite Hpu.
      assert (p < b ∨ a + T * B ≤ p) as Hcases.
      { destruct (decide (p < b)); [by left|right]. rewrite Ha.
        apply (owner_next cfg offset size Hvalid (owner cfg p) k p); [done|lia..]. }
      repeat case_decide; lia.
    + exists w0. rewrite list_lookup_insert_ne by done. split; [done|].
      split; [|done]. rewrite Hpu, (decide_False (P := a ≤ p < b)); [lia|].
      intros Hin. apply Hne. subst a.
      apply (owner_in_block cfg offset size Hvalid i k p); lia.
  - intros Hlf p. rewrite !times_covered_app, (Hq Hlf p). lia.
  - destruct Hr as (Hr1 & Hr2 & Hr3).
    assert (range_ok size (a, b)) by (unfold range_ok; simpl; lia).
    split; [|split]; [apply Forall_app; split; [done|by constructor]..|done].
  - by rewrite Hdl.
  - intros Hlf Hin. destruct (Hdr Hlf Hin) as [_ Hcontra]. congruence.
Qed.

(** One test of the loop condition, with the [pread] behind it. *)
Lemma worker_read_inv st i a :
  Inv2 st → threads st !! i = Some (LLoop a) →
  worker_frame st (inline_worker_step i (LLoop a) st) ∧
  Inv2 (inline_worker_step i (LLoop a) st).
Proof.
  intros HI Hi. pose proof HI as [Hbuf Hdev Hw Hsp Hbl Hq Hr Hcp Hdn Hdr Hcn].
  pose proof Hvalid as (HT & HB & HTB & Hs & Hoff & Hoffs).
  pose proof (running_not_done _ _ _ HI Hi ltac:(done)) as Hdl.
  pose proof (lookup_lt_Some _ _ _ Hi) as Hlt.
  destruct (Hw i _ Hi) as (HiT & k & Hk & Ha & Hab).
  assert (0 ≤ a) as Ha0 by nia.
  assert (B ≤ T * B) as HBT by nia.
  simpl. case_decide as Hcond.
  - destruct Hcond as [Has Hlf0].
    rewrite (wrap64_small (a + B)) by lia.
    set (b := if decide (a + B > size) then size else a + B).
    assert (b = Z.min (a + B) size) as Hb by (unfold b; case_decide; lia).
    rewrite (wrap64_small (b - a)), (wrap64_small (offset + a)) by lia.
    destruct (pread (default [] (fs_file world)) (b - a) (offset + a)) as [br d] eqn:Hpread.
    apply pread_spec in Hpread as (-> & Hshort & Hdata); [|lia..].
    destruct (write_at_fits (load_buffer st) a d) as [lb Hlb]; [lia..|]. rewrite Hlb.
    apply write_at_Some in Hlb as (_ & Hlblen & Hlbdata).
    rewrite (wrap64_small (Z.of_nat (length d))) by lia.
    case_decide as Hfull.
    + split; [done|]. split; simpl; try done.
      * lia.
      * intros j w Hj. destruct (decide (j = i)) as [->|Hne].
        -- rewrite list_lookup_insert_eq in Hj by done. by injection Hj as <-.
        -- rewrite list_lookup_insert_ne in Hj by done. by apply Hw.
      * intros j Hj Hjs. by apply insert_is_Some, Hsp.
      * by rewrite Hdl.
    + split; [done|]. split; simpl; try done.
      * lia.
      * intros j w Hj. destruct (decide (j = i)) as [->|Hne].
        -- rewrite list_lookup_insert_eq in Hj by done. injection Hj as <-.
           split; [done|]. exists k. split; [done|]. split; [done|]. split; [done|]. done.
        -- rewrite list_lookup_insert_ne in Hj by done. by apply Hw.
      * intros j Hj Hjs. by apply insert_is_Some, Hsp.
      * intros Hlf p Hp. destruct (Hbl Hlf p Hp) as (w0 & Hw0 & Hpu & Hrd & Hok).
        rewrite times_covered_app, times_covered_one. rewrite Hfull.
        replace (a + (b - a)) with b by lia.
        assert (byte_ok world offset lb p ↔
          if decide (a ≤ p < b) then True else byte_ok world offset (load_buffer st) p)
          as Hbyte.
        { unfold byte_ok. rewrite Hlbdata.
          destruct (decide (Z.to_nat a ≤ Z.to_nat p < Z.to_nat a + length d)%nat) as [Hin1|Hin1];
            destruct (decide (a ≤ p < b)) as [Hin2|Hin2]; try lia.
          - unfold file_bytes. rewrite Hdata by lia.
            replace (Z.to_nat (offset + a) + (Z.to_nat p - Z.to_nat a))%nat
              with (Z.to_nat (offset + p)) by lia. done.
          - done. }
        destruct (decide (owner cfg p = i)) as [Heq|Hne].
        -- exists (LPush a b). subst i.
           rewrite list_lookup_insert_eq by done. split; [done|].
           assert (w0 = LLoop a) as -> by congruence. simpl in *.
           assert (p < b ∨ a + T * B ≤ p) as Hcases.
           { destruct (decide (p < b)); [by left|right]. rewrite Ha.
             apply (owner_next cfg offset size Hvalid (owner cfg p) k p); [done|lia..]. }
           split; [done|]. rewrite Hrd. split; [repeat case_decide; lia|].
           intros Hlt'. apply Hbyte. case_decide; [done|]. apply Hok. lia.
        -- exists w0. rewrite list_lookup_insert_ne by done. split; [done|].
           assert (¬ a ≤ p < b) as Hout.
           { intros Hin. apply Hne. rewrite Ha in Hin.
             apply (owner_in_block cfg offset size Hvalid i k p); lia. }
           split; [done|]. rewrite Hrd. split; [repeat case_decide; lia|].
           intros Hlt'. apply Hbyte. rewrite decide_False by done. by apply Hok.
      * by rewrite Hdl.
  - split; [done|]. split; simpl; try done.
    + intros j w Hj. destruct (decide (j = i)) as [->|Hne].
      * rewrite list_lookup_insert_eq in Hj by done. by injection Hj as <-.
      * rewrite list_lookup_insert_ne in Hj by done. by apply Hw.
    + intros j Hj Hjs. by apply insert_is_Some, Hsp.
    + intros Hlf p Hp. destruct (Hbl Hlf p Hp) as (w0 & Hw0 & Hpu & Hrd & Hok).
      assert (size ≤ a) as Hend by (destruct (decide (a < size)); [tauto|lia]).
      destruct (decide (owner cfg p = i)) as [Heq|Hne].
      * exists LExit. subst i. rewrite list_lookup_insert_eq by done. split; [done|].
        assert (w0 = LLoop a) as -> by congruence. simpl in *.
        rewrite Hpu, Hrd. split; [repeat case_decide; lia|].
        split; [repeat case_decide; lia|]. intros _. apply Hok. lia.
      * exists w0. by rewrite list_lookup_insert_ne.
    + by rewrite Hdl.
Qed.

Lemma inline_worker_step_inv st i w :
  Inv2 st → threads st !! i = Some w →
  worker_frame st (inline_worker_step i w st) ∧ Inv2 (inline_worker_step i w st).
Proof.
  intros HI Hi. destruct w as [a|a|a b|].
  - by apply worker_open_inv.
  - by apply worker_read_inv.
  - by apply worker_push_inv.
  - done.
Qed.

End LoadWorkers.

Section CopyWorkers.

Variable cfg : config.
Variable world : World.
Variables (offset size : Z).
Hypothesis Hvalid : valid_call cfg offset size.

Local Abbreviation T := (STLOADER_THREADS cfg).
Local Abbreviation B := (STLOADER_BLOCK_SIZE cfg).
Local Abbreviation Inv2 := (Inv2 cfg world offset size).
Local Abbreviation copy_worker_step := (copy_worker_step world).

Lemma elem_of_insert_inv {A} (l : list A) j x y : x ∈ <[j := y]> l → x = y ∨ x ∈ l.
Proof.
  revert j. induction l as [|z l IH]; intros j; [by right|].
  destruct j as [|j]; simpl; rewrite !elem_of_cons; [tauto|].
  intros [->|Hin]; [tauto|]. destruct (IH _ Hin); tauto.
Qed.

Lemma copiers_have_device st j c :
  Inv2 st → copy_threads st !! j = Some c → is_Some (cuda_buffer st).
Proof.
  intros HI Hj. apply lookup_lt_Some in Hj.
  rewrite (inv_copiers _ _ _ _ _ HI) in Hj.
  destruct (cuda_buffer st); [by eexists|]. simpl in Hj. lia.
Qed.

Lemma queued_byte_ok st p :
  Inv2 st → load_failed st = false → 0 ≤ p < size →
  (0 < times_covered p (pushed st))%nat → byte_ok world offset (load_buffer st) p.
Proof.
  intros HI Hlf Hp Hcount. pose proof Hvalid as (HT & HB & _).
  destruct (inv_blocks _ _ _ _ _ HI Hlf p Hp) as (w & Hw & Hpu & _ & Hok).
  apply Hok. rewrite Hpu in Hcount. case_decide as Hfr; [|lia].
  destruct (inv_workers _ _ _ _ _ HI _ _ Hw) as [_ Hwok].
  destruct w; simpl in *; try done. nia.
Qed.

Lemma copy_worker_step_inv st j c :
  Inv2 st → copy_threads st !! j = Some c →
  copier_frame st (copy_worker_step j c st) ∧ Inv2 (copy_worker_step j c st).
Proof.
  intros HI Hj. pose proof HI as [Hbuf Hdev Hw Hsp Hbl Hq Hr Hcp Hdn Hdr Hcn].
  pose proof Hvalid as (HT & HB & HTB & Hs & Hoff & Hoffs).
  pose proof (lookup_lt_Some _ _ _ Hj) as Hlt.
  destruct Hr as (Hr1 & Hr2 & Hr3).
  destruct c as [|a b|]; simpl; [| |done].
  - case_decide as Hblocked; [done|].
    destruct (load_failed st) eqn:Hlf.
    { split; [done|]. split; simpl; try done.
      - split; [done|]. split; [done|]. by apply holding_insert_Forall.
      - by rewrite length_insert. }
    destruct (dq st) as [|[a b] q] eqn:Hdq.
    + destruct (done_loading st) eqn:Hdl; [|done].
      split; [done|]. split; simpl; try done.
      * intros _ p. pose proof (holding_insert_count p _ _ _ CExit Hj) as Hc.
        rewrite (Hq eq_refl p). simpl in *. lia.
      * split; [done|]. split; [done|]. by apply holding_insert_Forall.
      * intros _. by apply Hdn.
      * by rewrite length_insert.
    + apply Forall_cons in Hr2 as [Hab Hr2].
      split; [done|]. split; simpl; try done.
      * intros _ p. pose proof (holding_insert_count p _ _ _ (CCopy a b) Hj) as Hc.
        rewrite (Hq eq_refl p). simpl in *. case_decide; lia.
      * split; [done|]. split; [done|]. apply holding_insert_Forall; [done|].
        by constructor.
      * intros _ Hin. apply elem_of_insert_inv in Hin as [?|Hin]; [done|].
        by destruct (Hdr eq_refl Hin).
      * by rewrite length_insert.
  - pose proof (holding_lookup_Forall _ _ _ _ Hr3 Hj) as Hab.
    apply Forall_cons in Hab as [(Ha0 & Hab & Hbs) _]. simpl in *.
    destruct (cuda_fails world a).
    { split; [done|]. split; simpl; try done.
      - split; [done|]. split; [done|]. by apply holding_insert_Forall.
      - by rewrite length_insert. }
    destruct (copiers_have_device _ _ _ HI Hj) as [dev Hcuda]. rewrite Hcuda.
    rewrite decide_True by lia.
    pose proof (slice_length (load_buffer st) a b ltac:(lia) ltac:(lia)) as Hsl.
    specialize (Hdev dev Hcuda).
    destruct (write_at_fits dev a (slice (load_buffer st) a b)) as [dev' Hdev'];
      [lia..|]. rewrite Hdev'.
    apply write_at_Some in Hdev' as (_ & Hlen' & Hdata').
    split; [done|]. split; simpl; try done.
    + intros dev0 [= <-]. lia.
    + intros Hlf p. rewrite times_covered_app, times_covered_one.
      pose proof (holding_insert_count p _ _ _ CWait Hj) as Hc.
      rewrite (Hq Hlf p). simpl in *. case_decide; lia.
    + split; [done|]. split; [done|]. by apply holding_insert_Forall.
    + intros Hlf dev0 [= <-] p Hp. rewrite times_covered_app, times_covered_one.
      intros Hcount. unfold byte_ok. rewrite Hdata'.
      destruct (decide (a ≤ p < b)) as [Hin|Hout].
      * rewrite decide_True by lia. rewrite slice_lookup by lia.
        replace (Z.to_nat a + (Z.to_nat p - Z.to_nat a))%nat with (Z.to_nat p) by lia.
        apply (queued_byte_ok st p HI Hlf); [lia|].
        pose proof (holding_insert_count p _ _ _ CWait Hj) as Hc.
        rewrite (Hq Hlf p). simpl in Hc. rewrite decide_True in Hc by done. lia.
      * rewrite decide_False by lia. apply (Hcp Hlf dev Hcuda p Hp). lia.
    + intros Hlf Hin. apply elem_of_insert_inv in Hin as [?|Hin]; [done|].
      by apply Hdr.
    + rewrite length_insert, Hcn, Hcuda. done.
Qed.

End CopyWorkers.

Section Runs.

Variable cfg : config.
Variable world : World.
Variables (offset size : Z).

Local Abbreviation T := (STLOADER_THREADS cfg).
Local Abbreviation B := (STLOADER_BLOCK_SIZE cfg).
Local Abbreviation step := (step cfg world offset size).
Local Abbreviation run := (run cfg world offset size).
Local Abbreviation stloader_init := (stloader_init cfg world).
Local Abbreviation stloader_read := (stloader_read cfg world offset size).

(** *** Facts that hold for every call *)

Lemma step_done t st o : pc st = Done o → step t st = st.
Proof.
  intros Hpc. unfold Loader.step, main_step. rewrite Hpc. by destruct t.
Qed.

Lemma run_done sched st o : pc st = Done o → run sched st = st.
Proof.
  intros Hpc. induction sched as [|t sched IH]; [done|].
  unfold Loader.run in *. simpl. by rewrite (step_done t st o).
Qed.

Lemma run_snoc sched t st : run (sched ++ [t]) st = step t (run sched st).
Proof. unfold Loader.run. by rewrite foldl_app. Qed.

(** The block from [malloc] is released by the last step of a call that
    returns, and by no other step. *)
Lemma step_staging t st :
  staging (step t st) = staging st ∨ pc (step t st) = Done Returned.
Proof.
  unfold Loader.step, main_step, reader_body, inline_worker_step, copy_worker_step.
  destruct t as [|i|i|j]; destruct (pc st) eqn:Hpc; simpl;
    repeat (case_match || case_decide); simpl; auto.
Qed.

Lemma step_device t st :
  is_Some (cuda_buffer (step t st)) ↔ is_Some (cuda_buffer st).
Proof.
  unfold Loader.step, main_step, reader_body, inline_worker_step, copy_worker_step.
  destruct t as [|i|i|j]; destruct (pc st) eqn:Hpc; simpl;
    repeat (case_match || case_decide); simpl; try done.
  all: repeat match goal with H : cuda_buffer _ = _ |- _ => rewrite H end; try done.
  all: split; intros _; by eexists.
Qed.

Lemma run_staging sched st :
  staging (run sched st) = staging st ∨ pc (run sched st) = Done Returned.
Proof.
  induction sched as [|t sched IH] using rev_ind; [by left|].
  rewrite run_snoc. destruct IH as [IH|IH].
  - rewrite <- IH. apply step_staging.
  - right. by rewrite (step_done _ _ _ IH).
Qed.

Lemma run_device sched st :
  is_Some (cuda_buffer (run sched st)) ↔ is_Some (cuda_buffer st).
Proof.
  induction sched as [|t sched IH] using rev_ind; [done|].
  rewrite run_snoc. by rewrite step_device.
Qed.



Lemma init_device target :
  is_Some (cuda_buffer (stloader_init target)) ↔ target_cpu target = false.
Proof.
  unfold Loader.stloader_init.
  destruct (target_cpu target); repeat (case_match || case_decide); simpl;
    split; try done; intros [? ?]; done.
Qed.

(** *** The invariant along a run *)

Hypothesis Hvalid : valid_call cfg offset size.

Local Abbreviation Inv := (Inv cfg world offset size).

Lemma init_inv target : buffers_fit world size target → Inv (stloader_init target).
Proof.
  intros [Hfit Hmalloc]. pose proof Hvalid as (HT & HB & _).
  assert (∀ lb dev, size ≤ Z.of_nat (length lb) →
    (∀ d, dev = Some d → size ≤ Z.of_nat (length d)) →
    Inv1 cfg size (mkState JoinRead lb dev
      (match dev with Some _ => Allocated | None => NotAllocated end) false
      (replicate (Z.to_nat T) RReady) false false [] [] [] [] [] [] [])) as Hinit.
  { intros lb dev Hlb Hdev. split; simpl; try done.
    - by rewrite length_replicate.
    - intros _ p Hp. rewrite decide_False; [done|].
      intros [? _]%lookup_replicate. done. }
  unfold Loader.stloader_init. destruct (target_cpu target).
  - rewrite decide_False by lia. apply (Hinit _ None); [done|done].
  - destruct (malloc_block world) as [blk|] eqn:Hblk.
    + rewrite decide_False by lia. apply (Hinit _ (Some _)); [by apply Hmalloc|].
      by intros d [= <-].
    + unfold Loader.Inv. simpl. done.
Qed.

Lemma step_inv t st : Inv st → Inv (step t st).
Proof.
  intros HI. unfold Loader.step.
  destruct t as [|i|i|j].
  - by apply main_step_inv.
  - destruct (pc st) eqn:Hpc; try done.
    destruct (read_threads st !! i) as [[|]|] eqn:Hi; try done.
    unfold Loader.Inv in HI. rewrite Hpc in HI.
    destruct (reader_body_inv cfg world offset size Hvalid i st HI Hi) as [Hpc' HI'].
    unfold Loader.Inv. by rewrite Hpc', Hpc.
  - destruct (pc st) eqn:Hpc; try done.
    destruct (threads st !! i) as [w|] eqn:Hi; try done.
    unfold Loader.Inv in HI. rewrite Hpc in HI.
    destruct (inline_worker_step_inv cfg world offset size Hvalid st i w HI Hi)
      as [(Hpc' & _) HI'].
    unfold Loader.Inv. by rewrite Hpc', Hpc.
  - destruct (pc st) eqn:Hpc; try done.
    + destruct (copy_threads st !! j) as [c|] eqn:Hj; try done.
      unfold Loader.Inv in HI. rewrite Hpc in HI.
      destruct (copy_worker_step_inv cfg world offset size Hvalid st j c HI Hj)
        as [(Hpc' & _) HI'].
      unfold Loader.Inv. by rewrite Hpc', Hpc.
    + destruct (copy_threads st !! j) as [c|] eqn:Hj; try done.
      unfold Loader.Inv in HI. rewrite Hpc in HI. destruct HI as [HI Hdl].
      destruct (copy_worker_step_inv cfg world offset size Hvalid st j c HI Hj)
        as [(Hpc' & Hdl' & _) HI'].
      unfold Loader.Inv. rewrite Hpc', Hpc. split; [done|congruence].
Qed.

Lemma run_inv sched st : Inv st → Inv (run sched st).
Proof.
  intros HI. induction sched as [|t sched IH] using rev_ind; [done|].
  rewrite run_snoc. by apply step_inv.
Qed.

Lemma read_inv target sched :
  buffers_fit world size target → Inv (stloader_read target sched).
Proof. intros Hfit. by apply run_inv, init_inv. Qed.

(** *** Once the load workers are joined without a failure *)

Lemma inv2_of_done st :
  Inv st → done_loading st = true → load_failed st = false → Inv2 cfg world offset size st.
Proof.
  unfold Loader.Inv. intros HI Hdl Hlf.
  destruct (pc st) as [| | |[| |]]; try done.
  - destruct HI as [_ _ _ (_ & _ & _ & _ & _ & _ & ?) _]. congruence.
  - by destruct HI.
  - by destruct HI.
  - specialize (HI Hdl). congruence.
Qed.

Lemma joined_blocks st p :
  Inv2 cfg world offset size st → done_loading st = true → load_failed st = false →
  0 ≤ p < size →
  times_covered p (pushed st) = 1%nat ∧ times_covered p (file_reads st) = 2%nat ∧
  byte_ok world offset (load_buffer st) p.
Proof.
  intros HI Hdl Hlf Hp.
  destruct (inv_blocks _ _ _ _ _ HI Hlf p Hp) as (w & Hw & Hpu & Hrd & Hok).
  pose proof (Forall_lookup_1 _ _ _ _ (inv_done _ _ _ _ _ HI Hdl) Hw) as ->.
  simpl in *. rewrite decide_True in Hpu, Hrd by lia. split; [done|]. split; [done|].
  apply Hok. lia.
Qed.

Lemma joined_partition st :
  Inv2 cfg world offset size st → done_loading st = true → load_failed st = false →
  partitions size (pushed st).
Proof.
  intros HI Hdl Hlf. destruct (inv_ranges _ _ _ _ _ HI) as (Hr & _).
  split; [done|]. intros p. case_decide as Hp.
  - by apply joined_blocks.
  - apply (times_covered_outside p _ 0 size); [|done].
    eapply Forall_impl; [exact Hr|]. intros [a b] (? & ? & ?). simpl in *. lia.
Qed.

(** *** Once the call has returned *)

Lemma returned_inv target sched :
  buffers_fit world size target →
  pc (stloader_read target sched) = Done Returned →
  Inv2 cfg world offset size (stloader_read target sched) ∧
  done_loading (stloader_read target sched) = true ∧
  Forall (λ c, c = CExit) (copy_threads (stloader_read target sched)) ∧
  load_failed (stloader_read target sched) = false.
Proof.
  intros Hfit Hpc. pose proof (read_inv target sched Hfit) as HI.
  unfold Loader.Inv in HI. by rewrite Hpc in HI.
Qed.

Lemma returned_copied target sched p :
  buffers_fit world size target →
  pc (stloader_read target sched) = Done Returned →
  target_cpu target = false → 1 ≤ STLOADER_COPY_THREADS cfg →
  times_covered p (copied (stloader_read target sched)) =
  times_covered p (pushed (stloader_read target sched)).
Proof.
  intros Hfit Hpc Hcpu Hct.
  destruct (returned_inv target sched Hfit Hpc) as (HI & Hdl & Hall & Hlf).
  set (st := stloader_read target sched) in *.
  assert (is_Some (cuda_buffer st)) as [dev Hdev].
  { unfold st, Loader.stloader_read. rewrite run_device. by apply init_device. }
  assert (CExit ∈ copy_threads st) as Hin.
  { pose proof (inv_copiers _ _ _ _ _ HI) as Hlen. rewrite Hdev in Hlen. simpl in Hlen.
    rewrite length_replicate in Hlen.
    destruct (copy_threads st) as [|c cs] eqn:Hcs; [simpl in Hlen; lia|].
    apply Forall_cons in Hall as [-> _]. by left. }
  destruct (inv_drained _ _ _ _ _ HI Hlf Hin) as [Hdq _].
  rewrite (inv_queue _ _ _ _ _ HI Hlf p), Hdq, (holding_all_exited _ Hall). simpl. lia.
Qed.

Lemma bytes_of_segment buf :
  size ≤ Z.of_nat (length buf) →
  (∀ p, 0 ≤ p < size → byte_ok world offset buf p) →
  take (Z.to_nat size) buf = segment world offset size.
Proof.
  intros Hlen Hok. pose proof Hvalid as (_ & _ & _ & Hs & Hoff & _).
  apply list_eq. intros k. unfold segment.
  destruct (decide (k < Z.to_nat size)%nat) as [Hk|Hk].
  - rewrite !lookup_take_lt, lookup_drop by done.
    specialize (Hok (Z.of_nat k) ltac:(lia)). unfold byte_ok in Hok.
    rewrite Nat2Z.id in Hok. rewrite Hok. f_equal. lia.
  - by rewrite !lookup_take_ge by lia.
Qed.

Lemma returned_target target sched :
  buffers_fit world size target →
  pc (stloader_read target sched) = Done Returned →
  target_cpu target = true ∨ 1 ≤ STLOADER_COPY_THREADS cfg →
  take (Z.to_nat size) (target_now (stloader_read target sched)) =
  segment world offset size.
Proof.
  intros Hfit Hpc Hct.
  destruct (returned_inv target sched Hfit Hpc) as (HI & Hdl & Hall & Hlf).
  pose proof (returned_copied target sched) as Hcopied.
  set (st := stloader_read target sched) in *.
  unfold target_now. destruct (cuda_buffer st) as [dev|] eqn:Hdev.
  - assert (target_cpu target = false) as Hcpu.
    { assert (is_Some (cuda_buffer st)) as Hsome by (rewrite Hdev; by eexists).
      unfold st, Loader.stloader_read in Hsome. rewrite run_device in Hsome.
      by apply init_device in Hsome. }
    destruct Hct as [?|Hct]; [congruence|].
    apply bytes_of_segment; [by apply (inv_device _ _ _ _ _ HI)|].
    intros p Hp. apply (inv_copied _ _ _ _ _ HI Hlf dev Hdev p Hp).
    rewrite (Hcopied p Hfit Hpc Hcpu Hct).
    destruct (joined_blocks st p HI Hdl Hlf Hp) as (-> & _). lia.
  - apply bytes_of_segment; [by apply (inv_buffer _ _ _ _ _ HI)|].
    intros p Hp. by apply joined_blocks.
Qed.

End Runs.

(** *** Progress: a call in which nothing fails returns *)

Section Progress.

Variable cfg : config.
Variable world : World.
Variables (offset size : Z).
Hypothesis Hvalid : valid_call cfg offset size.
Hypothesis Hworld : nothing_fails world offset size.

Local Abbreviation T := (STLOADER_THREADS cfg).
Local Abbreviation B := (STLOADER_BLOCK_SIZE cfg).
Local Abbreviation Inv1 := (Inv1 cfg size).
Local Abbreviation Inv2 := (Inv2 cfg world offset size).
Local Abbreviation Inv := (Inv cfg world offset size).
Local Abbreviation step := (step cfg world offset size).
Local Abbreviation run := (run cfg world offset size).
Local Abbreviation lmeasure := (lmeasure cfg size).

Lemma sum_list_with_insert {A} (f : A → nat) l i x y :
  l !! i = Some x → (f y < f x)%nat →
  (sum_list_with f (<[i := y]> l) < sum_list_with f l)%nat.
Proof.
  revert i. induction l as [|z l IH]; intros [|i] Hi Hlt; simplify_eq/=; [lia|].
  specialize (IH i Hi Hlt). lia.
Qed.

Lemma sum_list_with_zero {A} (f : A → nat) (P : A → Prop) l :
  (∀ x, f x = 0%nat → P x) → sum_list_with f l = 0%nat → Forall P l.
Proof.
  intros HP. induction l as [|x l IH]; simpl; [done|]. intros Hsum.
  constructor; [apply HP; lia|apply IH; lia].
Qed.

Lemma sum_list_with_pos {A} (f : A → nat) l :
  (0 < sum_list_with f l)%nat → ∃ i x, l !! i = Some x ∧ (0 < f x)%nat.
Proof.
  induction l as [|x l IH]; simpl; [lia|]. intros Hsum.
  destruct (decide (0 < f x)%nat).
  - by exists 0%nat, x.
  - destruct IH as (i & y & Hy & Hlt); [lia|]. by exists (S i), y.
Qed.

Lemma run_app s1 s2 st : run (s1 ++ s2) st = run s2 (run s1 st).
Proof. unfold Loader.run. by rewrite foldl_app. Qed.

Lemma pread_full file count off :
  0 ≤ off < 2 ^ 63 → 0 ≤ count → off + count ≤ Z.of_nat (length file) →
  ∃ d, pread file count off = (count, d) ∧ Z.of_nat (length d) = count.
Proof.
  intros Hoff Hc Hfit. unfold pread. rewrite decide_False by lia.
  assert (Z.of_nat (length (take (Z.to_nat count) (drop (Z.to_nat off) file))) = count)
    as Hlen by (rewrite length_take, length_drop; lia).
  eexists. split; [|exact Hlen]. by rewrite Hlen.
Qed.

(** *** The chunk readers *)

Lemma reader_progress i st :
  Inv1 st → read_threads st !! i = Some RReady → read_failed st = false →
  pc (reader_body cfg world offset size i st) = pc st ∧
  read_failed (reader_body cfg world offset size i st) = false ∧
  read_threads (reader_body cfg world offset size i st) = <[i := RDone]> (read_threads st).
Proof.
  intros [Hbuf Hdev Hlen Hidle Hreads] Hi Hrf.
  pose proof Hvalid as (HT & HB & HTB & Hs & Hoff & Hoffs).
  destruct Hworld as ((file & Hfile & Hflen) & _ & _).
  pose proof (chunk_size_bounds cfg offset size Hvalid) as (Hc0 & Hc1 & Hc2).
  assert (Z.of_nat i < T) as HiT by (apply lookup_lt_Some in Hi; lia).
  unfold reader_body. set (cs := chunk_size cfg size) in *.
  assert (T ≤ T * B) by nia.
  assert (0 ≤ Z.of_nat i * cs ∧ Z.of_nat i * cs + cs ≤ T * cs) as [Hs0 Hs1] by nia.
  rewrite (wrap64_small (Z.of_nat i * cs)) by lia.
  rewrite (wrap64_small (Z.of_nat i * cs + cs)) by lia.
  set (start := Z.of_nat i * cs) in *.
  set (end_ := Z.min (start + cs) size).
  case_decide as Hempty; [done|]. rewrite Hfile.
  rewrite (wrap64_small (end_ - start)), (wrap64_small (offset + start)) by lia.
  destruct (pread_full file (end_ - start) (offset + start)) as (d & -> & Hd); [lia..|].
  destruct (write_at_fits (load_buffer st) start d) as [lb Hlb]; [lia..|].
  rewrite Hlb. simpl. rewrite to_ssize_small by lia. by rewrite decide_False by lia.
Qed.

Lemma readers_finish n : ∀ st,
  (sum_list_with rmeasure (read_threads st) ≤ n)%nat →
  pc st = JoinRead → Inv st → read_failed st = false →
  ∃ sched, pc (run sched st) = JoinRead ∧ read_failed (run sched st) = false ∧
    Forall (λ r, r = RDone) (read_threads (run sched st)).
Proof.
  induction n as [|n IH]; intros st Hm Hpc HI Hrf.
  - exists []. unfold Loader.run. simpl. split; [done|]. split; [done|].
    apply (sum_list_with_zero rmeasure); [by intros []|]. lia.
  - destruct (decide (sum_list_with rmeasure (read_threads st) = 0)%nat) as [Hz|Hnz].
    { apply (IH st); [lia|done..]. }
    destruct (sum_list_with_pos rmeasure (read_threads st)) as (i & r & Hi & Hr); [lia|].
    destruct r; [|simpl in Hr; lia].
    pose proof HI as HI1. unfold Loader.Inv in HI1. rewrite Hpc in HI1.
    destruct (reader_progress i st HI1 Hi Hrf) as (Hpc' & Hrf' & Hts).
    assert (step (Reader i) st = reader_body cfg world offset size i st) as Hstep.
    { unfold Loader.step. by rewrite Hpc, Hi. }
    destruct (IH (step (Reader i) st)) as (sched & H1 & H2 & H3).
    + rewrite Hstep, Hts.
      pose proof (sum_list_with_insert rmeasure _ i RReady RDone Hi ltac:(simpl; lia)). lia.
    + rewrite Hstep. congruence.
    + by apply step_inv.
    + by rewrite Hstep.
    + exists (Reader i :: sched). by rewrite (run_app [Reader i] sched).
Qed.

(** *** The load workers *)

Lemma sum_list_with_insert_eq {A} (f : A → nat) l i x y :
  l !! i = Some x →
  (sum_list_with f (<[i := y]> l) + f x = sum_list_with f l + f y)%nat.
Proof.
  revert i. induction l as [|z l IH]; intros [|i] Hi; simplify_eq/=; [lia|].
  specialize (IH i Hi). lia.
Qed.

Lemma worker_progress i w st :
  Inv2 st → threads st !! i = Some w → w ≠ LExit → load_failed st = false →
  load_failed (inline_worker_step cfg world offset size i w st) = false ∧
  ∃ w', threads (inline_worker_step cfg world offset size i w st) =
      <[i := w']> (threads st) ∧
    (lmeasure w' < lmeasure w)%nat.
Proof.
  intros HI Hi Hne Hlf. pose proof HI as [Hbuf Hdev Hw Hsp Hbl Hq Hr Hcp Hdn Hdr Hcn].
  pose proof Hvalid as (HT & HB & HTB & Hs & Hoff & Hoffs).
  destruct Hworld as ((file & Hfile & Hflen) & _ & _).
  assert (1 ≤ T * B) as HTB1 by nia.
  assert (B ≤ T * B) as HBT by nia.
  destruct (Hw i w Hi) as [HiT Hok].
  destruct w as [a|a|a b|]; simpl; [| | |done].
  - rewrite Hfile. simpl. split; [done|]. exists (LLoop a). split; [done|]. simpl. lia.
  - destruct Hok as (k & Hk & Ha & Hab). assert (0 ≤ a) as Ha0 by nia.
    case_decide as Hcond.
    + destruct Hcond as [Has _].
      rewrite (wrap64_small (a + B)) by lia.
      set (b := if decide (a + B > size) then size else a + B).
      assert (b = Z.min (a + B) size) as Hb by (unfold b; case_decide; lia).
      rewrite (wrap64_small (b - a)), (wrap64_small (offset + a)) by lia.
      rewrite Hfile. simpl.
      destruct (pread_full file (b - a) (offset + a)) as (d & -> & Hd); [lia..|].
      destruct (write_at_fits (load_buffer st) a d) as [lb Hlb]; [lia..|].
      rewrite Hlb. rewrite (wrap64_small (b - a)) by lia.
      rewrite decide_False by lia. simpl.
      split; [done|]. exists (LPush a b). split; [done|]. simpl. lia.
    + simpl. split; [done|]. exists LExit. split; [done|]. simpl. lia.
  - destruct Hok as (k & Hk & Ha & Has & Hb). assert (0 ≤ a) as Ha0 by nia.
    rewrite wrap64_small by lia. split; [done|].
    exists (LLoop (a + T * B)). split; [done|]. simpl. lia.
Qed.

Lemma workers_finish n : ∀ st,
  (sum_list_with lmeasure (threads st) ≤ n)%nat →
  pc st = JoinLoad → Inv st → load_failed st = false →
  ∃ sched, pc (run sched st) = JoinLoad ∧ load_failed (run sched st) = false ∧
    Forall (λ w, w = LExit) (threads (run sched st)).
Proof.
  induction n as [|n IH]; intros st Hm Hpc HI Hlf.
  - exists []. unfold Loader.run. simpl. split; [done|]. split; [done|].
    apply (sum_list_with_zero lmeasure); [|lia].
    intros [a|a|a b|]; simpl; try done; lia.
  - destruct (decide (sum_list_with lmeasure (threads st) = 0)%nat) as [Hz|Hnz].
    { apply (IH st); [lia|done..]. }
    destruct (sum_list_with_pos lmeasure (threads st)) as (i & w & Hi & Hpos); [lia|].
    assert (w ≠ LExit) as Hne by (intros ->; simpl in Hpos; lia).
    pose proof HI as HI2. unfold Loader.Inv in HI2. rewrite Hpc in HI2.
    destruct (worker_progress i w st HI2 Hi Hne Hlf) as (Hlf' & w' & Hts & Hlt).
    destruct (inline_worker_step_inv cfg world offset size Hvalid st i w HI2 Hi)
      as [(Hpc' & _) _].
    assert (step (Loader i) st = inline_worker_step cfg world offset size i w st) as Hstep.
    { unfold Loader.step. by rewrite Hpc, Hi. }
    destruct (IH (step (Loader i) st)) as (sched & H1 & H2 & H3).
    + rewrite Hstep, Hts.
      pose proof (sum_list_with_insert lmeasure _ i w w' Hi Hlt). lia.
    + rewrite Hstep. congruence.
    + by apply step_inv.
    + by rewrite Hstep.
    + exists (Loader i :: sched). by rewrite (run_app [Loader i] sched).
Qed.

(** *** The copy workers *)

Lemma copier_progress j c st :
  Inv2 st → done_loading st = true → load_failed st = false →
  copy_threads st !! j = Some c → c ≠ CExit →
  load_failed (copy_worker_step world j c st) = false ∧
  (2 * length (dq (copy_worker_step world j c st)) +
     sum_list_with cmeasure (copy_threads (copy_worker_step world j c st)) <
   2 * length (dq st) + sum_list_with cmeasure (copy_threads st))%nat.
Proof.
  intros HI Hdl Hlf Hj Hne. pose proof HI as [Hbuf Hdev Hw Hsp Hbl Hq Hr Hcp Hdn Hdr Hcn].
  pose proof Hvalid as (HT & HB & HTB & Hs & Hoff & Hoffs).
  destruct Hworld as (_ & _ & Hcuda). destruct Hr as (Hr1 & Hr2 & Hr3).
  destruct c as [|a b|]; simpl; [| |done].
  - rewrite decide_False by (intros (_ & _ & ?); congruence).
    rewrite Hlf. destruct (dq st) as [|[a b] q] eqn:Hdq.
    + rewrite Hdl. simpl. split; [done|].
      pose proof (sum_list_with_insert_eq cmeasure _ j CWait CExit Hj). simpl in *. lia.
    + simpl. split; [done|].
      pose proof (sum_list_with_insert_eq cmeasure _ j CWait (CCopy a b) Hj). simpl in *. lia.
  - pose proof (holding_lookup_Forall _ _ _ _ Hr3 Hj) as Hab.
    apply Forall_cons in Hab as [(Ha0 & Hab & Hbs) _]. simpl in *.
    rewrite Hcuda.
    destruct (copiers_have_device cfg world offset size _ _ _ HI Hj) as [dev Hdevice].
    rewrite Hdevice. rewrite decide_True by lia.
    pose proof (slice_length (load_buffer st) a b ltac:(lia) ltac:(lia)) as Hsl.
    specialize (Hdev dev Hdevice).
    destruct (write_at_fits dev a (slice (load_buffer st) a b)) as [dev' Hdev'];
      [lia..|]. rewrite Hdev'. simpl. split; [done|].
    pose proof (sum_list_with_insert_eq cmeasure _ j (CCopy a b) CWait Hj). simpl in *. lia.
Qed.

Lemma copiers_finish n : ∀ st,
  (2 * length (dq st) + sum_list_with cmeasure (copy_threads st) ≤ n)%nat →
  pc st = JoinCopy → Inv st → load_failed st = false →
  ∃ sched, pc (run sched st) = JoinCopy ∧ load_failed (run sched st) = false ∧
    Forall (λ c, c = CExit) (copy_threads (run sched st)).
Proof.
  induction n as [|n IH]; intros st Hm Hpc HI Hlf.
  - exists []. unfold Loader.run. simpl. split; [done|]. split; [done|].
    apply (sum_list_with_zero cmeasure); [|lia].
    intros [|a b|]; simpl; try done; lia.
  - destruct (decide (sum_list_with cmeasure (copy_threads st) = 0)%nat) as [Hz|Hnz].
    { exists []. unfold Loader.run. simpl. split; [done|]. split; [done|].
      apply (sum_list_with_zero cmeasure); [|lia].
      intros [|a b|]; simpl; try done; lia. }
    destruct (sum_list_with_pos cmeasure (copy_threads st)) as (j & c & Hj & Hpos); [lia|].
    assert (c ≠ CExit) as Hne by (intros ->; simpl in Hpos; lia).
    pose proof HI as HI2. unfold Loader.Inv in HI2. rewrite Hpc in HI2.
    destruct HI2 as [HI2 Hdl].
    destruct (copier_progress j c st HI2 Hdl Hlf Hj Hne) as (Hlf' & Hlt).
    destruct (copy_worker_step_inv cfg world offset size Hvalid st j c HI2 Hj)
      as [(Hpc' & _) _].
    assert (step (Copier j) st = copy_worker_step world j c st) as Hstep.
    { unfold Loader.step. by rewrite Hpc, Hj. }
    destruct (IH (step (Copier j) st)) as (sched & H1 & H2 & H3).
    + rewrite Hstep. lia.
    + rewrite Hstep. congruence.
    + by apply step_inv.
    + by rewrite Hstep.
    + exists (Copier j :: sched). by rewrite (run_app [Copier j] sched).
Qed.

(** *** The whole call *)

Lemma call_returns target :
  buffers_fit world size target →
  ∃ sched, pc (stloader_read cfg world offset size target sched) = Done Returned.
Proof.
  intros Hfit. pose proof Hvalid as (HT & HB & HTB & Hs & Hoff & Hoffs).
  destruct Hworld as (_ & [blk Hblk] & _).
  set (st0 := stloader_init cfg world target).
  assert (pc st0 = JoinRead ∧ read_failed st0 = false) as [Hpc0 Hrf0].
  { unfold st0, stloader_init. rewrite Hblk.
    destruct (target_cpu target); by rewrite decide_False by lia. }
  pose proof (init_inv cfg world offset size Hvalid target Hfit) as HI0. fold st0 in HI0.
  destruct (readers_finish _ st0 (le_n _) Hpc0 HI0 Hrf0) as (s1 & Hpc1 & Hrf1 & Hall1).
  pose proof (run_inv cfg world offset size Hvalid s1 st0 HI0) as HI1.
  set (st1 := run s1 st0) in *.
  assert (load_failed st1 = false) as Hlf1.
  { unfold Loader.Inv in HI1. rewrite Hpc1 in HI1.
    by destruct HI1 as [_ _ _ (_ & _ & _ & _ & _ & ? & _) _]. }
  set (st2 := step Main st1).
  assert (pc st2 = JoinLoad ∧ load_failed st2 = false) as [Hpc2 Hlf2].
  { unfold st2, Loader.step, main_step. rewrite Hpc1, decide_True, Hrf1 by done. done. }
  pose proof (step_inv cfg world offset size Hvalid Main st1 HI1) as HI2. fold st2 in HI2.
  destruct (workers_finish _ st2 (le_n _) Hpc2 HI2 Hlf2) as (s2 & Hpc3 & Hlf3 & Hall3).
  pose proof (run_inv cfg world offset size Hvalid s2 st2 HI2) as HI3.
  set (st3 := run s2 st2) in *.
  set (st4 := step Main st3).
  assert (pc st4 = JoinCopy ∧ load_failed st4 = false) as [Hpc4 Hlf4].
  { unfold st4, Loader.step, main_step. rewrite Hpc3, decide_True by done. done. }
  pose proof (step_inv cfg world offset size Hvalid Main st3 HI3) as HI4. fold st4 in HI4.
  destruct (copiers_finish _ st4 (le_n _) Hpc4 HI4 Hlf4) as (s3 & Hpc5 & Hlf5 & Hall5).
  set (st5 := run s3 st4) in *.
  exists (s1 ++ [Main] ++ s2 ++ [Main] ++ s3 ++ [Main]).
  unfold stloader_read. rewrite !run_app. fold st0 st1.
  change (run [Main] st1) with st2. fold st3.
  change (run [Main] st3) with st4. fold st5.
  change (run [Main] st5) with (step Main st5).
  unfold Loader.step, main_step. rewrite Hpc5, decide_True, Hlf5 by done. done.
Qed.

End Progress.

Section Specification.

Variable cfg : config.
Variable world : World.
Variables (offset size : Z).

Local Abbreviation load_worker_step := (load_worker_step cfg world offset size).
Local Abbreviation inline_worker_step := (inline_worker_step cfg world offset size).
Local Abbreviation load_worker := (load_worker cfg world offset size).
Local Abbreviation inline_worker := (inline_worker cfg world offset size).
Local Abbreviation stloader_read := (stloader_read cfg world offset size).




Local Abbreviation valid_call := (valid_call cfg offset size).
Local Abbreviation buffers_fit := (buffers_fit world size).

(** C1: for a valid segment and any number of readers and copy workers (one
    at least of each that the call uses), a call of [stloader_read] that
    returns leaves in the first [size] bytes of the target the bytes of the
    file over [offset, offset + size), whatever the interleaving of its
    threads. When nothing fails, some schedule makes the call return. *)
Theorem stloader_read_loads_segment target :
  valid_call → buffers_fit target →
  target_cpu target = true ∨ 1 ≤ STLOADER_COPY_THREADS cfg →
  (∀ sched,
     pc (stloader_read target sched) = Done Returned →
     take (Z.to_nat size) (target_now (stloader_read target sched)) =
     segment world offset size) ∧
  (nothing_fails world offset size →
     ∃ sched, pc (stloader_read target sched) = Done Returned).
Proof.
  intros Hvalid Hfit Hct. split.
  - intros sched Hpc. by apply returned_target.
  - intros Hworld. by apply call_returns.
Qed.

(** C2: for any segment size, block size and number of load workers, once
    the load workers are joined and none has failed, the block ranges they
    pushed on the queue partition [0, size): each is a non-empty range inside
    the segment, every byte of the segment lies in exactly one of them and no
    other byte in any, and no two of them overlap. When nothing fails, some
    schedule brings the load workers to that point. *)
Theorem pushed_blocks_partition_segment target :
  valid_call → buffers_fit target →
  (∀ sched,
     done_loading (stloader_read target sched) = true →
     load_failed (stloader_read target sched) = false →
     partitions size (pushed (stloader_read target sched)) ∧
     ∀ i j r1 r2, i ≠ j →
       pushed (stloader_read target sched) !! i = Some r1 →
       pushed (stloader_read target sched) !! j = Some r2 →
       r1.2 ≤ r2.1 ∨ r2.2 ≤ r1.1) ∧
  (nothing_fails world offset size →
     ∃ sched, done_loading (stloader_read target sched) = true ∧
       load_failed (stloader_read target sched) = false).
Proof.
  intros Hvalid Hfit. split; [|intros Hworld].
  2:{ destruct (call_returns cfg world offset size Hvalid Hworld target Hfit) as [sched Hpc].
      exists sched.
      by destruct (returned_inv cfg world offset size Hvalid target sched Hfit Hpc)
        as (_ & ? & _ & ?). }
  intros sched Hdl Hlf.
  pose proof (read_inv cfg world offset size Hvalid target sched Hfit) as HI.
  pose proof (inv2_of_done cfg world offset size _ HI Hdl Hlf) as HI2.
  pose proof (joined_partition cfg world offset size _ HI2 Hdl Hlf) as Hpart.
  split; [done|]. destruct Hpart as [Hranges Hcount].
  intros i j r1 r2 Hij Hi Hj.
  destruct (decide (r1.2 ≤ r2.1 ∨ r2.2 ≤ r1.1)) as [|Hover]; [done|]. exfalso.
  pose proof (Forall_lookup_1 _ _ _ _ Hranges Hi) as (? & ? & ?).
  pose proof (Forall_lookup_1 _ _ _ _ Hranges Hj) as (? & ? & ?).
  set (p := Z.max r1.1 r2.1).
  assert (r1.1 ≤ p < r1.2 ∧ r2.1 ≤ p < r2.2) as [Hp1 Hp2] by lia.
  specialize (Hcount p). rewrite decide_True in Hcount by lia.
  destruct (decide (i < j)%nat).
  - pose proof (times_covered_overlap p _ i j r1 r2 ltac:(done) Hi Hj Hp1 Hp2). lia.
  - pose proof (times_covered_overlap p _ j i r2 r1 ltac:(lia) Hj Hi Hp2 Hp1). lia.
Qed.


(** C4: a call that raises, for a target off the CPU whose staging block was
    obtained, leaves that block allocated: no path that raises frees it. *)
Theorem staging_leaks_when_call_raises target sched blk msg :
  target_cpu target = false → malloc_block world = Some blk →
  pc (stloader_read target sched) = Done (Raised msg) →
  staging (stloader_read target sched) = Allocated.
Proof.
  intros Hcpu Hblk Hpc.
  destruct (run_staging cfg world offset size sched (stloader_init cfg world target))
    as [Hsame|Hret].
  - unfold Loader.stloader_read. rewrite Hsame. unfold Loader.stloader_init.
    rewrite Hcpu, Hblk. by case_decide.
  - unfold Loader.stloader_read in Hpc. congruence.
Qed.















(** C9: a failed allocation of the staging block ends [stloader_read] before
    any thread is created, with nothing read and the target as it was; an
    index whose length does not match the columns of the matrix ends
    [tensor_remap] and [tensor_remap_4bit] with the matrix as it was. *)
Theorem early_errors_leave_target_unchanged target sched tensor index rows cols n :
  (target_cpu target = false → malloc_block world = None →
     pc (stloader_read target sched) = Done (Raised "Can't allocate buffer for tensor") ∧
     target_now (stloader_read target sched) = target_data target ∧
     read_threads (stloader_read target sched) = [] ∧
     threads (stloader_read target sched) = [] ∧
     copy_threads (stloader_read target sched) = [] ∧
     file_reads (stloader_read target sched) = [] ∧
     copied (stloader_read target sched) = []) ∧
  (Remap.sizes tensor = [rows; cols] → Remap.sizes index = [n] → cols ≠ n →
     ∃ msg, Remap.tensor_remap tensor index = (Raised msg, tensor)) ∧
  (Remap.sizes tensor = [rows; cols] → Remap.sizes index = [n] → n ≠ cols * 8 →
     ∃ msg, Remap.tensor_remap_4bit tensor index = (Raised msg, tensor)).
Proof.
  split; [|split].
  - intros Hcpu Hblk. unfold Loader.stloader_read.
    rewrite (run_done cfg world offset size sched _
      (Raised "Can't allocate buffer for tensor")).
    + unfold Loader.stloader_init. by rewrite Hcpu, Hblk.
    + unfold Loader.stloader_init. by rewrite Hcpu, Hblk.
  - intros Ht Hi Hne. eexists.
    unfold Remap.tensor_remap, Remap.tensor_remap_in, Remap.TORCH_CHECK_SHAPES, Remap.size.
    rewrite Ht, Hi. simpl. rewrite bool_decide_eq_false_2 by lia. done.
  - intros Ht Hi Hne. eexists.
    unfold Remap.tensor_remap_4bit, Remap.tensor_remap_4bit_in, Remap.TORCH_CHECK_SHAPES,
      Remap.size.
    rewrite Ht, Hi. simpl. rewrite bool_decide_eq_false_2 by lia. done.
Qed.

End Specification.

(** *** The same on the example call *)

Lemma example_call_valid : valid_call example_config 2 10.
Proof. unfold valid_call. simpl. lia. Defined.

Lemma example_buffers_fit target :
  length (target_data target) = 10%nat → buffers_fit example_world 10 target.
Proof.
  intros Hlen. split; [rewrite Hlen; lia|]. intros blk [= <-]. simpl. lia.
Defined.

Lemma stloader_read_loads_segment_witness :
  take (Z.to_nat 10)
    (target_now (stloader_read example_config example_world 2 10 example_device_target
       (round_robin example_config 12))) =
  segment example_world 2 10.
Proof.
  assert (target_cpu example_device_target = true ∨
          1 ≤ STLOADER_COPY_THREADS example_config) as Hworkers.
  { right. simpl. lia. }
  destruct (stloader_read_loads_segment example_config example_world 2 10
    example_device_target example_call_valid
    (example_buffers_fit example_device_target eq_refl) Hworkers) as [Hall _].
  apply Hall. vm_compute. reflexivity.
Defined.

Lemma example_nothing_fails : nothing_fails example_world 2 10.
Proof.
  split; [|split].
  - exists example_file. split; [reflexivity|]. simpl. lia.
  - by eexists.
  - reflexivity.
Defined.

Lemma pushed_blocks_partition_segment_witness :
  partitions 10
    (pushed (stloader_read example_config example_world 2 10 example_cpu_target
       (round_robin example_config 12))) ∧
  ∃ sched,
    done_loading (stloader_read example_config example_world 2 10 example_cpu_target
      sched) = true ∧
    load_failed (stloader_read example_config example_world 2 10 example_cpu_target
      sched) = false.
Proof.
  destruct (pushed_blocks_partition_segment example_config example_world 2 10
    example_cpu_target example_call_valid
    (example_buffers_fit example_cpu_target eq_refl)) as [Hall Hsome].
  split.
  - apply (Hall (round_robin example_config 12)); vm_compute; reflexivity.
  - apply Hsome. exact example_nothing_fails.
Defined.



(** The file of the example, cut short at sixteen bytes, does not hold the
    segment of ten bytes at offset 8. *)
Lemma staging_leaks_when_call_raises_witness :
  staging (stloader_read example_config example_world 8 10 example_device_target
    (round_robin example_config 12)) = Allocated.
Proof.
  apply (staging_leaks_when_call_raises example_config example_world 8 10
    example_device_target (round_robin example_config 12) (replicate 10 xff)
    "Parallel file read failed").
  - reflexivity.
  - reflexivity.
  - vm_compute. reflexivity.
Defined.



Example lambdas_on_the_example :
  stdout (lambda_run (load_worker example_config example_world 2 10) 12 0
    example_worker) = [DebugStarted 0] ∧
  stdout (lambda_run (inline_worker example_config example_world 2 10) 12 0
    example_worker) = [] ∧
  blocks_processed_per_thread (lambda_run (load_worker example_config example_world 2 10)
    12 0 example_worker) = [0; 0] ∧
  blocks_processed_per_thread (lambda_run (inline_worker example_config example_world 2 10)
    12 0 example_worker) = [2; 0] ∧
  pushed (shared (lambda_run (inline_worker example_config example_world 2 10) 12 0
    example_worker)) = [(0, 3); (6, 9)].
Proof. vm_compute. done. Qed.

Lemma early_errors_leave_target_unchanged_witness :
  pc (stloader_read example_config example_no_memory 2 10 example_device_target
    (round_robin example_config 12)) = Done (Raised "Can't allocate buffer for tensor") ∧
  (∃ msg, Remap.tensor_remap Remap.example_row Remap.example_short_index =
     (Raised msg, Remap.example_row)) ∧
  (∃ msg, Remap.tensor_remap_4bit Remap.example_packed Remap.example_short_index =
     (Raised msg, Remap.example_packed)).
Proof.
  split; [|split].
  - apply (early_errors_leave_target_unchanged example_config example_no_memory 2 10
      example_device_target (round_robin example_config 12)
      Remap.example_row Remap.example_short_index 1 8 7); reflexivity.
  - apply (early_errors_leave_target_unchanged example_config example_no_memory 2 10
      example_device_target (round_robin example_config 12)
      Remap.example_row Remap.example_short_index 1 8 7); [reflexivity..|lia].
  - apply (early_errors_leave_target_unchanged example_config example_no_memory 2 10
      example_device_target (round_robin example_config 12)
      Remap.example_packed Remap.example_short_index 1 1 7); [reflexivity..|lia].
Defined.

(** A segment shorter than one stride: of four load workers only the first
    two are created, and the second block is clipped to the segment. *)
Example short_segment_spawns_fewer_workers :
  pc (stloader_read (mkConfig 4 3 1) example_world 2 4 (mkTarget true (replicate 4 xee))
        (round_robin (mkConfig 4 3 1) 8)) = Done Returned ∧
  threads (stloader_read (mkConfig 4 3 1) example_world 2 4 (mkTarget true (replicate 4 xee))
        (round_robin (mkConfig 4 3 1) 8)) = [LExit; LExit] ∧
  pushed (stloader_read (mkConfig 4 3 1) example_world 2 4 (mkTarget true (replicate 4 xee))
        (round_robin (mkConfig 4 3 1) 8)) = [(0, 3); (3, 4)].
Proof. vm_compute. repeat split. Qed.

End LoaderProofs.

Module RemapLawsProofs.
Import Remap RemapProofs RemapLaws.

Section Dense.

Local Open Scope nat_scope.
Local Arguments Nat.mul : simpl never.
Local Arguments Nat.div : simpl never.

Lemma tensor_remap_is_matrix tensor index rows cols d :
  is_matrix tensor rows cols → is_index index cols (Z.of_nat cols) →
  tensor_remap tensor index = (Returned, with_data tensor d) →
  is_matrix (with_data tensor d) rows cols.
Proof.
  intros Hm Hi Hrun.
  destruct (tensor_remap_returns _ _ _ _ Hm Hi) as (d' & Hrun' & Hlen & Hcells).
  assert (d' = d) as -> by (rewrite Hrun in Hrun'; by injection Hrun').
  pose proof Hm as (_ & _ & _ & Hrange & _).
  apply is_matrix_with_data; [done..|]. apply Forall_lookup_2. intros q w Hq.
  assert (q < rows * cols) as Hlt by (apply lookup_lt_Some in Hq; lia).
  destruct (cell_split _ _ _ Hlt) as (r & c & Hr & Hc & ->).
  destruct (Hcells r c Hr Hc) as (i & _ & _ & Heq). rewrite Heq in Hq.
  by apply (Forall_lookup_1 _ _ _ _ Hrange Hq).
Qed.

Lemma compose_is_index p q cols :
  is_index p cols (Z.of_nat cols) → is_index q cols (Z.of_nat cols) →
  is_index (compose_index p q) cols (Z.of_nat cols) ∧
  ∀ c, c < cols → ∃ i j, data q !! c = Some i ∧ data p !! Z.to_nat i = Some j ∧
    data (compose_index p q) !! c = Some j.
Proof.
  intros Hp Hq. pose proof Hq as (Hd & Hs & Hlen & _ & Hfit).
  assert (∀ c, c < cols → ∃ i j, data q !! c = Some i ∧ data p !! Z.to_nat i = Some j ∧
    (0 ≤ j < Z.of_nat cols)%Z ∧ data (compose_index p q) !! c = Some j) as Hcells.
  { intros c Hc. destruct (index_lookup _ _ _ _ Hq Hc) as (i & Hi & Hir).
    destruct (index_lookup p cols _ (Z.to_nat i) Hp ltac:(lia)) as (j & Hj & Hjr).
    exists i, j. split; [done|]. split; [done|]. split; [done|].
    simpl. unfold gather_row. by rewrite list_lookup_fmap, Hi; simpl; rewrite Hj. }
  split.
  - split; [done|]. split; [done|]. split; [|split; [|done]].
    + simpl. unfold gather_row. by rewrite length_fmap.
    + apply Forall_lookup_2. intros c j Hc.
      assert (c < cols) as Hlt.
      { apply lookup_lt_Some in Hc. simpl in Hc. unfold gather_row in Hc.
        rewrite length_fmap in Hc. lia. }
      destruct (Hcells c Hlt) as (i & j' & _ & _ & Hr & Hl). congruence.
  - intros c Hc. destruct (Hcells c Hc) as (i & j & ? & ? & _ & ?). by exists i, j.
Qed.

Lemma remap_twice tensor p q rows cols :
  is_matrix tensor rows cols →
  is_index p cols (Z.of_nat cols) → is_index q cols (Z.of_nat cols) →
  tensor_remap (tensor_remap tensor p).2 q = tensor_remap tensor (compose_index p q).
Proof.
  intros Hm Hp Hq.
  destruct (tensor_remap_returns _ _ _ _ Hm Hp) as (d1 & Hrun1 & Hlen1 & Hcells1).
  pose proof (tensor_remap_is_matrix _ _ _ _ _ Hm Hp Hrun1) as Hm1.
  destruct (tensor_remap_returns _ _ _ _ Hm1 Hq) as (d2 & Hrun2 & Hlen2 & Hcells2).
  destruct (compose_is_index p q cols Hp Hq) as [Hpq Hcomp].
  destruct (tensor_remap_returns _ _ _ _ Hm Hpq) as (d3 & Hrun3 & Hlen3 & Hcells3).
  rewrite Hrun1. simpl. rewrite Hrun2, Hrun3. f_equal.
  unfold with_data. simpl. f_equal.
  apply list_eq. intros k. destruct (decide (k < rows * cols)) as [Hk|Hk].
  - destruct (cell_split _ _ _ Hk) as (r & c & Hr & Hc & ->).
    destruct (Hcells2 r c Hr Hc) as (i & Hi & Hilt & ->). simpl.
    destruct (Hcells1 r (Z.to_nat i) Hr Hilt) as (j & Hj & Hjlt & ->).
    destruct (Hcells3 r c Hr Hc) as (j' & Hj' & _ & ->).
    destruct (Hcomp c Hc) as (i0 & j0 & Hi0 & Hj0 & Hc0).
    by simplify_eq.
  - by rewrite !lookup_ge_None_2 by lia.
Qed.

Lemma remap_back tensor p q rows cols :
  is_matrix tensor rows cols →
  is_index p cols (Z.of_nat cols) → is_index q cols (Z.of_nat cols) →
  (∀ c i, data q !! c = Some i → data p !! Z.to_nat i = Some (Z.of_nat c)) →
  tensor_remap (tensor_remap tensor p).2 q = (Returned, tensor).
Proof.
  intros Hm Hp Hq Hinv.
  destruct (tensor_remap_returns _ _ _ _ Hm Hp) as (d1 & Hrun1 & Hlen1 & Hcells1).
  pose proof (tensor_remap_is_matrix _ _ _ _ _ Hm Hp Hrun1) as Hm1.
  destruct (tensor_remap_returns _ _ _ _ Hm1 Hq) as (d2 & Hrun2 & Hlen2 & Hcells2).
  rewrite Hrun1. simpl. rewrite Hrun2. f_equal.
  rewrite <- (with_data_same tensor) at 2. unfold with_data. simpl. f_equal.
  pose proof Hm as (_ & _ & Hlen & _).
  apply list_eq. intros k. destruct (decide (k < rows * cols)) as [Hk|Hk].
  - destruct (cell_split _ _ _ Hk) as (r & c & Hr & Hc & ->).
    destruct (Hcells2 r c Hr Hc) as (i & Hi & Hilt & ->). simpl.
    destruct (Hcells1 r (Z.to_nat i) Hr Hilt) as (j & Hj & Hjlt & ->).
    rewrite (Hinv c i Hi) in Hj. injection Hj as <-. by rewrite Nat2Z.id.
  - by rewrite !lookup_ge_None_2 by lia.
Qed.

Lemma tensor_remap_row tensor index rows cols d r :
  is_matrix tensor rows cols → is_index index cols (Z.of_nat cols) →
  tensor_remap tensor index = (Returned, with_data tensor d) → r < rows →
  row d cols r = gather_row (row (data tensor) cols r) (data index).
Proof.
  intros Hm Hi Hrun Hr.
  destruct (tensor_remap_returns _ _ _ _ Hm Hi) as (d' & Hrun' & Hlen & Hcells).
  assert (d' = d) as -> by (rewrite Hrun in Hrun'; by injection Hrun').
  pose proof Hm as (_ & _ & Hlen0 & _). pose proof Hi as (_ & _ & Hleni & _).
  apply list_eq. intros c. destruct (decide (c < cols)) as [Hc|Hc].
  - destruct (Hcells r c Hr Hc) as (i & Hl & Hlt & Heq).
    rewrite row_lookup, Heq by done. unfold gather_row.
    rewrite list_lookup_fmap, Hl. simpl. rewrite row_lookup by done.
    destruct (lookup_lt_is_Some_2 (data tensor) (r * cols + Z.to_nat i)) as [x Hx]; [nia|].
    by rewrite Hx.
  - rewrite !lookup_ge_None_2; [done|..].
    + unfold gather_row. rewrite length_fmap. lia.
    + unfold row. rewrite length_take. lia.
Qed.

(** X3: with an index that is a permutation of the columns, on a matrix
    whose dimensions fit an [int] and with the scratch buffer handed out,
    [tensor_remap] returns and every row of the matrix it leaves holds the
    elements it held before, each as often as before. *)
Theorem tensor_remap_permutes_rows tensor index rows cols r :
  is_matrix tensor rows cols → is_index index cols (Z.of_nat cols) →
  data index ≡ₚ Z.of_nat <$> seq 0 cols → r < rows →
  (tensor_remap tensor index).1 = Returned ∧
  row (data (tensor_remap tensor index).2) cols r ≡ₚ row (data tensor) cols r.
Proof.
  intros Hm Hi Hperm Hr.
  destruct (tensor_remap_returns _ _ _ _ Hm Hi) as (d & Hrun & Hlen & Hcells).
  rewrite Hrun. simpl. split; [done|].
  rewrite (tensor_remap_row _ _ _ _ _ _ Hm Hi Hrun Hr).
  unfold gather_row. rewrite Hperm. rewrite <- list_fmap_compose.
  pose proof Hm as (_ & _ & Hlen0 & _).
  assert (length (row (data tensor) cols r) = cols) as Hrow.
  { unfold row. rewrite length_take, length_drop. nia. }
  assert ((λ i, default 0%Z (row (data tensor) cols r !! Z.to_nat i)) ∘ Z.of_nat <$> seq 0 cols
          = row (data tensor) cols r) as ->; [|done].
  apply list_eq. intros c. rewrite list_lookup_fmap.
  destruct (decide (c < cols)) as [Hc|Hc].
  - rewrite lookup_seq_lt by done. simpl. rewrite Nat2Z.id.
    destruct (lookup_lt_is_Some_2 (row (data tensor) cols r) c) as [x Hx]; [lia|].
    by rewrite Hx.
  - rewrite lookup_seq_ge by lia. simpl. by rewrite lookup_ge_None_2 by lia.
Qed.

Lemma raw_index_in_range index n :
  is_raw_index index n → Forall (λ i, (i < Z.of_nat n)%Z) (data index) →
  is_index index n (Z.of_nat n).
Proof.
  intros (Hd & Hs & Hlen & Hraw & Hfit) Hall.
  split; [done|]. split; [done|]. split; [done|]. split; [|done].
  apply Forall_lookup_2. intros c i Hc.
  pose proof (Forall_lookup_1 _ _ _ _ Hraw Hc). pose proof (Forall_lookup_1 _ _ _ _ Hall Hc).
  simpl in *. lia.
Qed.

Lemma raw_index_out_of_range index n :
  is_raw_index index n → ¬ Forall (λ i, (i < Z.of_nat n)%Z) (data index) →
  ∃ c i, c < n ∧ data index !! c = Some i ∧ (Z.of_nat n ≤ i)%Z.
Proof.
  intros (Hd & Hs & Hlen & Hraw & Hfit) Hall.
  apply not_Forall_Exists in Hall; [|intros i; apply _].
  apply Exists_exists in Hall as (i & Hin & Hi).
  apply list_elem_of_lookup in Hin as [c Hc]. exists c, i.
  split; [apply lookup_lt_Some in Hc; lia|]. split; [done|]. simpl in Hi. lia.
Qed.

Lemma tensor_remap_in_open scratch tensor index rows cols :
  is_matrix tensor rows cols → is_raw_index index cols →
  tensor_remap_in scratch tensor index =
    match
      (if decide (rows ≠ 0 ∧ scratch = false) then None
       else st ← remap_rows (data index) cols rows (data tensor, 0); Some st.1)
    with
    | Some d => (Returned, with_data tensor d)
    | None => (Undefined, tensor)
    end.
Proof.
  intros Hm Hraw. pose proof Hm as (_ & Hs & _ & _ & Hbr & Hbc).
  destruct (checks_pass tensor index rows cols (2 ^ 32) Hm) as (H1 & H2 & H3); [done|].
  unfold tensor_remap_in, tensor_remap_body, size. rewrite H1, H2, H3, Hs. simpl.
  rewrite !to_int_small, !Nat2Z.id by done.
  destruct scratch, rows as [|rows]; repeat case_decide; try done; exfalso.
  all: repeat match goal with H : _ ∧ _ |- _ => destruct H end.
  all: try lia; try done.
  all: match goal with H : ¬ (_ ∧ _) |- _ => apply H end.
  all: split; try lia; try done.
  all: by intros [_ ?].
Qed.

Lemma tensor_remap_4bit_in_open scratch tensor index rows words :
  is_matrix tensor rows words → is_raw_index index (8 * words) →
  tensor_remap_4bit_in scratch tensor index =
    match
      (if decide (rows ≠ 0 ∧ scratch = false) then None
       else st ← remap4_rows (data index) (8 * words) rows (data tensor, 0); Some st.1)
    with
    | Some d => (Returned, with_data tensor d)
    | None => (Undefined, tensor)
    end.
Proof.
  intros Hm Hraw. pose proof Hm as (_ & Hs & _ & _ & Hbr & _).
  pose proof Hraw as (_ & Hs' & _ & _ & Hbc).
  destruct (checks_pass_4bit tensor index rows words (2 ^ 32) Hm) as (H1 & H2 & H3); [done|].
  unfold tensor_remap_4bit_in, tensor_remap_4bit_body, size. rewrite H1, H2, H3, Hs, Hs'. simpl.
  rewrite !to_int_small, !Nat2Z.id by done.
  destruct scratch, rows as [|rows]; repeat case_decide; try done; exfalso.
  all: repeat match goal with H : _ ∧ _ |- _ => destruct H end.
  all: try lia; try done.
  all: match goal with H : ¬ (_ ∧ _) |- _ => apply H end.
  all: split; try lia; try done.
  all: by intros [_ ?].
Qed.

(** X4: [tensor_remap] checks neither the answer of [calloc] nor the entries
    of its index. On a matrix and an index of matching shapes, with
    dimensions that fit an [int], it returns if the matrix has no row, or
    if it has its scratch buffer and every entry is below the number of
    columns; otherwise it writes through the null pointer or reads outside
    its scratch buffer. *)
Theorem tensor_remap_defined_iff scratch tensor index rows cols :
  is_matrix tensor rows cols → is_raw_index index cols →
  (tensor_remap_in scratch tensor index).1 =
    if decide (rows = 0 ∨
               (scratch = true ∧ Forall (λ i, (i < Z.of_nat cols)%Z) (data index)))
    then Returned else Undefined.
Proof.
  intros Hm Hraw. case_decide as Hok.
  - destruct Hok as [->|[-> Hall]].
    + rewrite (tensor_remap_in_open _ _ _ 0 cols Hm Hraw).
      rewrite decide_False by (intros [? _]; done). done.
    + destruct (tensor_remap_returns _ _ _ _ Hm (raw_index_in_range _ _ Hraw Hall))
        as (d & Hrun & _). unfold tensor_remap in Hrun. by rewrite Hrun.
  - rewrite (tensor_remap_in_open _ _ _ rows cols Hm Hraw).
    case_decide as Hnull; [done|].
    assert (rows ≠ 0 ∧ ¬ Forall (λ i, (i < Z.of_nat cols)%Z) (data index)) as [Hrows Hall].
    { destruct scratch; [tauto|]. split; [tauto|]. exfalso. apply Hnull. tauto. }
    destruct (raw_index_out_of_range _ _ Hraw Hall) as (c & i & Hc & Hi & Hbig).
    destruct rows as [|rows]; [done|]. simpl.
    destruct (read_words (data tensor) 0 cols) as [temp|] eqn:Htemp; simpl; [|done].
    apply read_words_Some in Htemp as (_ & Hlt & _).
    destruct (remap_cols temp (data index) cols 0 (data tensor, 0)) as [[a1 p1]|] eqn:Hcols;
      simpl; [|done].
    apply remap_cols_spec in Hcols as (_ & _ & _ & Hin).
    destruct (Hin c Hc) as (i' & Hi' & Hsome & _). simpl in Hi'.
    assert (i' = i) as -> by congruence.
    apply lookup_lt_is_Some_1 in Hsome. lia.
Qed.

(** X5: the same for [tensor_remap_4bit], with the bound at eight times the
    number of words of a row. *)
Theorem tensor_remap_4bit_defined_iff scratch tensor index rows words :
  is_matrix tensor rows words → is_raw_index index (8 * words) →
  (tensor_remap_4bit_in scratch tensor index).1 =
    if decide (rows = 0 ∨
               (scratch = true ∧
                Forall (λ i, (i < Z.of_nat (8 * words))%Z) (data index)))
    then Returned else Undefined.
Proof.
  intros Hm Hraw. case_decide as Hok.
  - destruct Hok as [->|[-> Hall]].
    + rewrite (tensor_remap_4bit_in_open _ _ _ 0 words Hm Hraw).
      rewrite decide_False by (intros [? _]; done). done.
    + destruct (tensor_remap_4bit_returns _ _ _ _ Hm (raw_index_in_range _ _ Hraw Hall))
        as (d & Hrun & _). unfold tensor_remap_4bit in Hrun. by rewrite Hrun.
  - rewrite (tensor_remap_4bit_in_open _ _ _ rows words Hm Hraw).
    case_decide as Hnull; [done|].
    assert (rows ≠ 0 ∧ ¬ Forall (λ i, (i < Z.of_nat (8 * words))%Z) (data index))
      as [Hrows Hall].
    { destruct scratch; [tauto|]. split; [tauto|]. exfalso. apply Hnull. tauto. }
    destruct (raw_index_out_of_range _ _ Hraw Hall) as (c & i & Hc & Hi & Hbig).
    destruct rows as [|rows]; [done|]. simpl.
    assert (8 * words / 8 = words) as Hw by (rewrite Nat.mul_comm; apply Nat.div_mul; lia).
    rewrite Hw.
    destruct (read_words (data tensor) 0 words) as [temp|] eqn:Htemp; simpl; [|done].
    apply read_words_Some in Htemp as (_ & Hlt & _).
    destruct (remap4_cols temp (data index) (8 * words) (8 * words) 0 (data tensor, 0))
      as [[a1 p1]|] eqn:Hcols; simpl; [|done].
    apply (remap4_cols_spec _ _ words _ 0) in Hcols as (_ & _ & _ & Hin); [|lia].
    pose proof (Nat.div_mod_eq c 8) as Hdm.
    pose proof (Nat.mod_upper_bound c 8 ltac:(lia)) as Hmod.
    destruct (Hin (c / 8)) as (rv & _ & Hslots & _).
    { rewrite Nat.sub_0_r. apply Nat.Div0.div_lt_upper_bound. lia. }
    destruct (Hslots (c mod 8) Hmod) as (i' & w & Hi' & Hw' & _).
    replace (8 * (0 + c / 8) + c mod 8) with c in Hi' by lia.
    assert (i' = i) as -> by congruence.
    apply lookup_lt_Some in Hw'.
    assert (i / 8 < Z.of_nat words)%Z by lia.
    assert (i < 8 * Z.of_nat words)%Z; [|lia].
    pose proof (Z.div_mod i 8 ltac:(lia)). pose proof (Z.mod_pos_bound i 8 ltac:(lia)). lia.
Qed.

(** X1: two calls of [tensor_remap], with [p] and then with [q], are one
    call with the index whose entry [c] is [p[q[c]]], which is an index in
    range again: for a matrix whose dimensions fit an [int] (rows and cols
    below 2^31, as [is_matrix] has them) and calls whose [calloc] hands out
    the scratch buffer. *)
Theorem tensor_remap_composes tensor p q rows cols :
  is_matrix tensor rows cols →
  is_index p cols (Z.of_nat cols) → is_index q cols (Z.of_nat cols) →
  is_index (compose_index p q) cols (Z.of_nat cols) ∧
  tensor_remap (tensor_remap tensor p).2 q = tensor_remap tensor (compose_index p q).
Proof.
  intros Hm Hp Hq. split.
  - by apply compose_is_index.
  - by apply (remap_twice _ _ _ rows cols).
Qed.

(** X2: [tensor_remap] with an index and then with its inverse, on a matrix
    whose dimensions fit an [int] and with the scratch buffer handed out:
    both calls return, and the second gives the matrix the first started
    from. *)
Theorem tensor_remap_round_trip tensor p q rows cols :
  is_matrix tensor rows cols →
  is_index p cols (Z.of_nat cols) → is_index q cols (Z.of_nat cols) →
  (∀ c i, data q !! c = Some i → data p !! Z.to_nat i = Some (Z.of_nat c)) →
  (tensor_remap tensor p).1 = Returned ∧
  tensor_remap (tensor_remap tensor p).2 q = (Returned, tensor).
Proof.
  intros Hm Hp Hq Hinv. split.
  - by destruct (tensor_remap_returns _ _ _ _ Hm Hp) as (d & -> & _).
  - by apply (remap_back _ _ _ rows cols).
Qed.

End Dense.

Section Packed.

Local Open Scope nat_scope.
Local Arguments Nat.mul : simpl never.
Local Arguments Nat.div : simpl never.
Local Arguments Nat.modulo : simpl never.

Lemma nibbles_lookup w b : b < 8 → nibbles w !! b = Some (nibble w (Z.of_nat b)).
Proof. intros Hb. unfold nibbles. by rewrite list_lookup_fmap, lookup_seq_lt. Qed.

Lemma unpack_cons w ws : unpack (w :: ws) = nibbles w ++ unpack ws.
Proof. done. Qed.

Lemma unpack_length ws : length (unpack ws) = 8 * length ws.
Proof.
  induction ws as [|w ws IH]; [done|]. rewrite unpack_cons, length_app, IH.
  unfold nibbles. rewrite length_fmap, length_seq. simpl length. lia.
Qed.

Lemma unpack_lookup ws g b w :
  ws !! g = Some w → b < 8 → unpack ws !! (8 * g + b) = Some (nibble w (Z.of_nat b)).
Proof.
  revert g. induction ws as [|x ws IH]; intros g Hg Hb; [done|].
  rewrite unpack_cons. destruct g as [|g]; simpl in Hg.
  - injection Hg as ->. rewrite lookup_app_l by (unfold nibbles; rewrite length_fmap, length_seq; lia).
    rewrite Nat.mul_0_r. by apply nibbles_lookup.
  - rewrite lookup_app_r; unfold nibbles at 1; rewrite length_fmap, length_seq; [|lia].
    replace (8 * S g + b - 8) with (8 * g + b) by lia. by apply IH.
Qed.

Lemma unpack_split (ws : list Z) k :
  k < 8 * length ws →
  ∃ g b w, k = 8 * g + b ∧ b < 8 ∧ ws !! g = Some w.
Proof.
  intros Hk. pose proof (Nat.div_mod_eq k 8). pose proof (Nat.mod_upper_bound k 8 ltac:(lia)).
  destruct (lookup_lt_is_Some_2 ws (k / 8)) as [w Hw].
  { apply Nat.Div0.div_lt_upper_bound. lia. }
  by exists (k / 8), (k mod 8), w.
Qed.

(** Words of 32 bits with the same nibbles are the same words. *)
Lemma unpack_inj ws ws' :
  Forall (λ w, (0 ≤ w < 2 ^ 32)%Z) ws → Forall (λ w, (0 ≤ w < 2 ^ 32)%Z) ws' →
  unpack ws = unpack ws' → ws = ws'.
Proof.
  intros Hr Hr' Heq.
  assert (length ws = length ws') as Hlen.
  { pose proof (f_equal length Heq) as Hl. rewrite !unpack_length in Hl. lia. }
  apply list_eq. intros g. destruct (ws !! g) as [w|] eqn:Hw.
  - destruct (lookup_lt_is_Some_2 ws' g) as [w' Hw'].
    { apply lookup_lt_Some in Hw. lia. }
    rewrite Hw'. f_equal. apply nibble_ext. intros k Hk.
    pose proof (Forall_lookup_1 _ _ _ _ Hr Hw) as Hwr.
    pose proof (Forall_lookup_1 _ _ _ _ Hr' Hw') as Hwr'. simpl in *.
    destruct (decide (k < 8)%Z).
    + pose proof (unpack_lookup ws g (Z.to_nat k) w Hw ltac:(lia)) as H1.
      pose proof (unpack_lookup ws' g (Z.to_nat k) w' Hw' ltac:(lia)) as H2.
      rewrite Heq, H2 in H1. rewrite Z2Nat.id in H1 by lia. by injection H1.
    + by rewrite !nibble_high by lia.
  - symmetry. apply lookup_ge_None_2. apply lookup_ge_None_1 in Hw. lia.
Qed.

Lemma unpack_is_matrix tensor rows words :
  is_matrix tensor rows words → fits_int (8 * words) →
  is_matrix (unpack_tensor tensor rows words) rows (8 * words).
Proof.
  intros (Hd & Hs & Hlen & Hr & Hbr & _) Hbc.
  split; [done|]. split; [done|]. split; [|split; [|done]].
  - simpl. rewrite unpack_length. lia.
  - apply Forall_lookup_2. intros k v Hk. simpl in Hk.
    destruct (unpack_split (data tensor) k) as (g & b & w & -> & Hb & Hw).
    { apply lookup_lt_Some in Hk. by rewrite unpack_length in Hk. }
    rewrite (unpack_lookup _ _ _ _ Hw Hb) in Hk. injection Hk as <-.
    pose proof (nibble_range w (Z.of_nat b)). lia.
Qed.

Lemma tensor_remap_4bit_is_matrix tensor index rows words d :
  is_matrix tensor rows words → is_index index (8 * words) (Z.of_nat (8 * words)) →
  tensor_remap_4bit tensor index = (Returned, with_data tensor d) →
  is_matrix (with_data tensor d) rows words.
Proof.
  intros Hm Hi Hrun.
  destruct (tensor_remap_4bit_returns _ _ _ _ Hm Hi) as (d' & Hrun' & Hlen & Hcells).
  assert (d' = d) as -> by (rewrite Hrun in Hrun'; by injection Hrun').
  apply is_matrix_with_data; [done..|]. apply Forall_lookup_2. intros q w Hq.
  assert (q < rows * words) as Hlt by (apply lookup_lt_Some in Hq; lia).
  destruct (cell_split _ _ _ Hlt) as (r & g & Hr & Hg & ->).
  destruct (Hcells r g Hr Hg) as (rv & Hrv & _ & Hhigh).
  assert (w = rv) as -> by congruence. by apply word_of_nibbles.
Qed.

Lemma packed_as_dense tensor index rows words :
  is_matrix tensor rows words → is_index index (8 * words) (Z.of_nat (8 * words)) →
  unpack_tensor (tensor_remap_4bit tensor index).2 rows words =
  (tensor_remap (unpack_tensor tensor rows words) index).2.
Proof.
  intros Hm Hi.
  destruct (tensor_remap_4bit_returns _ _ _ _ Hm Hi) as (d4 & -> & Hlen4 & Hcells4).
  pose proof Hi as (_ & _ & _ & _ & Hfit).
  pose proof (unpack_is_matrix _ _ _ Hm Hfit) as Hmu.
  destruct (tensor_remap_returns _ _ _ _ Hmu Hi) as (d & -> & Hlen & Hcells).
  pose proof Hm as (_ & _ & Hlen0 & _).
  unfold unpack_tensor, with_data. simpl. f_equal.
  apply list_eq. intros k. destruct (decide (k < rows * (8 * words))) as [Hk|Hk].
  - destruct (cell_split _ _ _ Hk) as (r & c & Hr & Hc & ->).
    pose proof (Nat.div_mod_eq c 8) as Hdm.
    pose proof (Nat.mod_upper_bound c 8 ltac:(lia)) as Hmod.
    assert (c / 8 < words) as Hg by (apply Nat.Div0.div_lt_upper_bound; lia).
    destruct (Hcells4 r (c / 8) Hr Hg) as (rv & Hrv & Hslots & _).
    destruct (Hslots (c mod 8) Hmod) as (i & w & Hi' & Hw & Hnib).
    replace (8 * (c / 8) + c mod 8) with c in Hi' by lia.
    destruct (Hcells r c Hr Hc) as (i0 & Hi0 & Hlt0 & ->). simpl in *.
    assert (i0 = i) as -> by congruence.
    replace (r * (8 * words) + c) with (8 * (r * words + c / 8) + c mod 8) by lia.
    rewrite (unpack_lookup _ _ _ _ Hrv Hmod), Hnib.
    assert (Z.to_nat (i / 8) < words) as Hlt.
    { apply lookup_lt_Some in Hw. unfold row in Hw. rewrite length_take in Hw. lia. }
    rewrite row_lookup in Hw by done.
    pose proof (Z.div_mod i 8 ltac:(lia)) as Hzdm.
    pose proof (Z.mod_pos_bound i 8 ltac:(lia)) as Hzmod.
    assert (0 ≤ i)%Z as Hi0'.
    { destruct (index_lookup _ _ _ _ Hi Hc) as (i1 & Hi1 & Hir).
      assert (i1 = i) as -> by congruence. lia. }
    assert (0 ≤ i / 8)%Z as Hq by lia.
    replace (r * (8 * words) + Z.to_nat i)
      with (8 * (r * words + Z.to_nat (i / 8)) + Z.to_nat (i mod 8)) by lia.
    rewrite (unpack_lookup _ _ _ _ Hw) by lia. by rewrite Z2Nat.id by lia.
  - rewrite !lookup_ge_None_2; [done|lia|]. rewrite unpack_length. lia.
Qed.

(** X6: [tensor_remap_4bit] is [tensor_remap] on the nibbles: for rows and
    8 * words below 2^31, and with the scratch buffers handed out, both calls
    return, and unpacking the result of the packed remapper gives what the
    dense remapper makes of the unpacked matrix with the same index. *)
Theorem tensor_remap_4bit_is_remap_of_nibbles tensor index rows words :
  is_matrix tensor rows words → is_index index (8 * words) (Z.of_nat (8 * words)) →
  (tensor_remap_4bit tensor index).1 = Returned ∧
  (tensor_remap (unpack_tensor tensor rows words) index).1 = Returned ∧
  unpack_tensor (tensor_remap_4bit tensor index).2 rows words =
  (tensor_remap (unpack_tensor tensor rows words) index).2.
Proof.
  intros Hm Hi. split; [|split].
  - by destruct (tensor_remap_4bit_returns _ _ _ _ Hm Hi) as (d & -> & _).
  - pose proof Hi as (_ & _ & _ & _ & Hfit).
    by destruct (tensor_remap_returns _ _ _ _ (unpack_is_matrix _ _ _ Hm Hfit) Hi)
      as (d & -> & _).
  - by apply packed_as_dense.
Qed.

(** X7: two calls of [tensor_remap_4bit], with [p] and then with [q], leave
    the packed matrix one call with the composed index leaves, for rows and
    8 * words below 2^31 and with the scratch buffer handed out. *)
Theorem tensor_remap_4bit_composes tensor p q rows words :
  is_matrix tensor rows words →
  is_index p (8 * words) (Z.of_nat (8 * words)) →
  is_index q (8 * words) (Z.of_nat (8 * words)) →
  tensor_remap_4bit (tensor_remap_4bit tensor p).2 q =
  tensor_remap_4bit tensor (compose_index p q).
Proof.
  intros Hm Hp Hq.
  pose proof (packed_as_dense tensor p rows words Hm Hp) as E1.
  destruct (compose_is_index p q _ Hp Hq) as [Hpq _].
  pose proof (packed_as_dense tensor _ rows words Hm Hpq) as E3.
  destruct (tensor_remap_4bit_returns _ _ _ _ Hm Hp) as (d1 & Hrun1 & _).
  pose proof (tensor_remap_4bit_is_matrix _ _ _ _ _ Hm Hp Hrun1) as Hm1.
  pose proof (packed_as_dense _ q rows words Hm1 Hq) as E2.
  destruct (tensor_remap_4bit_returns _ _ _ _ Hm1 Hq) as (d2 & Hrun2 & _).
  pose proof (tensor_remap_4bit_is_matrix _ _ _ _ _ Hm1 Hq Hrun2) as Hm2.
  destruct (tensor_remap_4bit_returns _ _ _ _ Hm Hpq) as (d3 & Hrun3 & _).
  pose proof (tensor_remap_4bit_is_matrix _ _ _ _ _ Hm Hpq Hrun3) as Hm3.
  rewrite Hrun1 in *. simpl in *. rewrite Hrun2, Hrun3 in *. simpl in *.
  f_equal. unfold with_data. simpl. f_equal.
  apply unpack_inj;
    [by destruct Hm2 as (_ & _ & _ & ? & _)|by destruct Hm3 as (_ & _ & _ & ? & _)|].
  pose proof Hp as (_ & _ & _ & _ & Hfit).
  pose proof (remap_twice _ p q rows (8 * words) (unpack_is_matrix _ _ _ Hm Hfit) Hp Hq)
    as Hd.
  apply (f_equal snd) in Hd. rewrite <- E1, <- E3, <- E2 in Hd.
  by apply (f_equal data) in Hd.
Qed.

(** X8: [tensor_remap_4bit] with an index and then with its inverse gives
    the packed matrix back, word for word, for rows and 8 * words below 2^31
    and with the scratch buffer handed out. *)
Theorem tensor_remap_4bit_round_trip tensor p q rows words :
  is_matrix tensor rows words →
  is_index p (8 * words) (Z.of_nat (8 * words)) →
  is_index q (8 * words) (Z.of_nat (8 * words)) →
  (∀ c i, data q !! c = Some i → data p !! Z.to_nat i = Some (Z.of_nat c)) →
  tensor_remap_4bit (tensor_remap_4bit tensor p).2 q = (Returned, tensor).
Proof.
  intros Hm Hp Hq Hinv.
  pose proof (packed_as_dense tensor p rows words Hm Hp) as E1.
  destruct (tensor_remap_4bit_returns _ _ _ _ Hm Hp) as (d1 & Hrun1 & _).
  pose proof (tensor_remap_4bit_is_matrix _ _ _ _ _ Hm Hp Hrun1) as Hm1.
  pose proof (packed_as_dense _ q rows words Hm1 Hq) as E2.
  destruct (tensor_remap_4bit_returns _ _ _ _ Hm1 Hq) as (d2 & Hrun2 & _).
  pose proof (tensor_remap_4bit_is_matrix _ _ _ _ _ Hm1 Hq Hrun2) as Hm2.
  rewrite Hrun1 in *. simpl in *. rewrite Hrun2 in *. simpl in *.
  f_equal. rewrite <- (with_data_same tensor) at 2. unfold with_data. simpl. f_equal.
  apply unpack_inj;
    [by destruct Hm2 as (_ & _ & _ & ? & _)|by destruct Hm as (_ & _ & _ & ? & _)|].
  pose proof Hp as (_ & _ & _ & _ & Hfit).
  pose proof (remap_back _ p q rows (8 * words) (unpack_is_matrix _ _ _ Hm Hfit) Hp Hq Hinv)
    as Hd.
  apply (f_equal snd) in Hd. rewrite <- E1, <- E2 in Hd.
  by apply (f_equal data) in Hd.
Qed.

End Packed.

(** *** The same on the examples *)

Lemma example_row_is_matrix : is_matrix example_row 1 8.
Proof. repeat split. repeat (constructor; [lia|]). constructor. Defined.

Lemma example_packed_is_matrix : is_matrix example_packed 1 1.
Proof. repeat split. repeat (constructor; [lia|]). constructor. Defined.

Lemma example_reversal_is_index : is_index example_reversal 8 (Z.of_nat 8).
Proof. repeat split. repeat (constructor; [simpl; lia|]). constructor. Defined.

Lemma example_repeats_is_index : is_index example_repeats 8 (Z.of_nat 8).
Proof. repeat split. repeat (constructor; [simpl; lia|]). constructor. Defined.

Lemma example_reversal_self_inverse c i :
  data example_reversal !! c = Some i →
  data example_reversal !! Z.to_nat i = Some (Z.of_nat c).
Proof.
  intros Hc. do 8 (destruct c as [|c]; [by injection Hc as <-|]). done.
Defined.

Lemma example_out_of_range_is_raw : is_raw_index example_out_of_range 8.
Proof. repeat split. repeat (constructor; [simpl; lia|]). constructor. Defined.

Lemma tensor_remap_composes_witness :
  is_index (compose_index example_reversal example_repeats) 8 (Z.of_nat 8) ∧
  tensor_remap (tensor_remap example_row example_reversal).2 example_repeats =
  tensor_remap example_row (compose_index example_reversal example_repeats).
Proof.
  apply (tensor_remap_composes example_row example_reversal example_repeats 1 8).
  - exact example_row_is_matrix.
  - exact example_reversal_is_index.
  - exact example_repeats_is_index.
Defined.

Lemma tensor_remap_round_trip_witness :
  (tensor_remap example_row example_reversal).1 = Returned ∧
  tensor_remap (tensor_remap example_row example_reversal).2 example_reversal =
  (Returned, example_row).
Proof.
  apply (tensor_remap_round_trip example_row example_reversal example_reversal 1 8).
  - exact example_row_is_matrix.
  - exact example_reversal_is_index.
  - exact example_reversal_is_index.
  - exact example_reversal_self_inverse.
Defined.

Lemma tensor_remap_permutes_rows_witness :
  (tensor_remap example_row example_reversal).1 = Returned ∧
  row (data (tensor_remap example_row example_reversal).2) 8 0 ≡ₚ
  row (data example_row) 8 0.
Proof.
  apply (tensor_remap_permutes_rows example_row example_reversal 1 8 0).
  - exact example_row_is_matrix.
  - exact example_reversal_is_index.
  - change (data example_reversal) with (reverse (Z.of_nat <$> seq 0 8)).
    apply reverse_Permutation.
  - lia.
Defined.

Lemma tensor_remap_defined_iff_witness :
  (tensor_remap_in true example_row example_out_of_range).1 =
    if decide (1%nat = 0%nat ∨
               (true = true ∧ Forall (λ i, i < Z.of_nat 8) (data example_out_of_range)))
    then Returned else Undefined.
Proof.
  apply (tensor_remap_defined_iff true example_row example_out_of_range 1 8).
  - exact example_row_is_matrix.
  - exact example_out_of_range_is_raw.
Defined.

Lemma tensor_remap_4bit_defined_iff_witness :
  (tensor_remap_4bit_in true example_packed example_out_of_range).1 =
    if decide (1%nat = 0%nat ∨
               (true = true ∧
                Forall (λ i, i < Z.of_nat (8 * 1)) (data example_out_of_range)))
    then Returned else Undefined.
Proof.
  apply (tensor_remap_4bit_defined_iff true example_packed example_out_of_range 1 1).
  - exact example_packed_is_matrix.
  - exact example_out_of_range_is_raw.
Defined.

Lemma tensor_remap_4bit_is_remap_of_nibbles_witness :
  (tensor_remap_4bit example_packed example_reversal).1 = Returned ∧
  (tensor_remap (unpack_tensor example_packed 1 1) example_reversal).1 = Returned ∧
  unpack_tensor (tensor_remap_4bit example_packed example_reversal).2 1 1 =
  (tensor_remap (unpack_tensor example_packed 1 1) example_reversal).2.
Proof.
  apply (tensor_remap_4bit_is_remap_of_nibbles example_packed example_reversal 1 1).
  - exact example_packed_is_matrix.
  - exact example_reversal_is_index.
Defined.

Lemma tensor_remap_4bit_composes_witness :
  tensor_remap_4bit (tensor_remap_4bit example_packed example_reversal).2 example_repeats =
  tensor_remap_4bit example_packed (compose_index example_reversal example_repeats).
Proof.
  apply (tensor_remap_4bit_composes example_packed example_reversal example_repeats 1 1).
  - exact example_packed_is_matrix.
  - exact example_reversal_is_index.
  - exact example_repeats_is_index.
Defined.

Lemma tensor_remap_4bit_round_trip_witness :
  tensor_remap_4bit (tensor_remap_4bit example_packed example_reversal).2 example_reversal =
  (Returned, example_packed).
Proof.
  apply (tensor_remap_4bit_round_trip example_packed example_reversal example_reversal 1 1).
  - exact example_packed_is_matrix.
  - exact example_reversal_is_index.
  - exact example_reversal_is_index.
  - exact example_reversal_self_inverse.
Defined.

(** The out-of-range index of the example makes both remappers read outside
    their scratch buffers; and without a scratch buffer the reversal, which
    is in range, ends them no better. *)
Example out_of_range_index_is_undefined :
  (tensor_remap example_row example_out_of_range).1 = Undefined ∧
  (tensor_remap_4bit example_packed example_out_of_range).1 = Undefined ∧
  (tensor_remap_in false example_row example_reversal).1 = Undefined ∧
  (tensor_remap_4bit_in false example_packed example_reversal).1 = Undefined.
Proof. vm_compute. done. Qed.

End RemapLawsProofs.

Module LoaderRunsProofs.
Import Loader LoaderProofs LoaderRuns.

(** Every way a step can go. *)
Ltac step_cases t st :=
  unfold Loader.step, main_step, reader_body, inline_worker_step, copy_worker_step;
  destruct t; destruct (pc st) eqn:?; simpl;
  repeat (case_match || case_decide); simpl.

Section EveryCall.

Variable cfg : config.
Variable world : World.
Variables (offset size : Z).

Local Abbreviation T := (STLOADER_THREADS cfg).
Local Abbreviation B := (STLOADER_BLOCK_SIZE cfg).
Local Abbreviation step := (step cfg world offset size).
Local Abbreviation run := (run cfg world offset size).
Local Abbreviation stloader_init := (stloader_init cfg world).
Local Abbreviation stloader_read := (stloader_read cfg world offset size).

(** *** The failure flag *)






(** *** The block from [malloc] *)

Lemma step_freed t st :
  (pc st = Done Returned → is_Some (cuda_buffer st) → staging st = Freed) →
  pc (step t st) = Done Returned → is_Some (cuda_buffer (step t st)) →
  staging (step t st) = Freed.
Proof.
  intros Hf. destruct (pc st) eqn:Hpc.
  4: { rewrite (step_done _ _ _ _ _ _ _ Hpc). by rewrite Hpc. }
  all: step_cases t st; try congruence; simpl; try done.
  all: by intros _ [? ?].
Qed.

Lemma run_freed sched st :
  (pc st = Done Returned → is_Some (cuda_buffer st) → staging st = Freed) →
  pc (run sched st) = Done Returned → is_Some (cuda_buffer (run sched st)) →
  staging (run sched st) = Freed.
Proof.
  intros Hf. induction sched as [|t sched IH] using rev_ind; [done|].
  rewrite run_snoc. by apply step_freed.
Qed.

Lemma step_not_freed t st :
  staging (step t st) = staging st ∨
  (pc (step t st) = Done Returned ∧ is_Some (cuda_buffer (step t st))).
Proof.
  step_cases t st; auto.
  all: right; split; [done|]; by eexists.
Qed.

Lemma run_not_freed sched st :
  staging (run sched st) = staging st ∨
  (pc (run sched st) = Done Returned ∧ is_Some (cuda_buffer (run sched st))).
Proof.
  induction sched as [|t sched IH] using rev_ind; [by left|].
  rewrite run_snoc. destruct IH as [IH|[IH1 IH2]].
  - rewrite <- IH. apply step_not_freed.
  - right. by rewrite (step_done _ _ _ _ _ _ _ IH1).
Qed.

(** *** The blocks on their way *)

Lemma holding_insert_perm cs j c c' :
  cs !! j = Some c →
  held c ++ holding (<[j := c']> cs) ≡ₚ held c' ++ holding cs.
Proof.
  revert j. induction cs as [|x cs IH]; intros [|j] Hj; simplify_eq/=.
  - unfold holding. simpl. by rewrite !(assoc_L (++)), (comm (++) (held c)).
  - unfold holding in *. simpl. specialize (IH j Hj).
    rewrite (assoc_L (++) (held c)), (comm (++) (held c)), <- (assoc_L (++)), IH.
    by rewrite !(assoc_L (++)), (comm (++) (held x)).
Qed.

Lemma init_in_flight target : in_flight (stloader_init target).
Proof.
  unfold Loader.stloader_init, in_flight.
  repeat (case_match || case_decide); done.
Qed.

Lemma step_in_flight t st : in_flight st → in_flight (step t st).
Proof.
  unfold in_flight. intros Hin. destruct t as [|i|i|j].
  - unfold Loader.step, main_step.
    repeat (case_match || case_decide); simpl; try done.
    rewrite spawn_copy_holding. simpl.
    etrans; [|exact Hin]. apply submseteq_app; [done|]. by apply submseteq_inserts_l.
  - unfold Loader.step, reader_body.
    repeat (case_match || case_decide); simpl; done.
  - unfold Loader.step, inline_worker_step.
    repeat (case_match || case_decide); simpl; try done.
    rewrite !(assoc_L (++)). apply submseteq_app; [|done].
    by rewrite <- !(assoc_L (++)).
  - assert (in_flight (match copy_threads st !! j with
      | Some c => copy_worker_step world j c st | None => st end)) as Hstep.
    2: { unfold Loader.step. by destruct (pc st). }
    unfold in_flight.
    destruct (copy_threads st !! j) as [[|a b|]|] eqn:Hj; try done.
    + pose proof (holding_insert_perm _ _ _ CExit Hj) as Hp.
      unfold copy_worker_step. case_decide; [done|].
      destruct (load_failed st). { simpl in *. by rewrite Hp. }
      destruct (dq st) as [|[a b] q] eqn:Hdq.
      { destruct (done_loading st); simpl in *; [rewrite Hp|rewrite Hdq]; done. }
      pose proof (holding_insert_perm _ _ _ (CCopy a b) Hj) as Hp'.
      simpl in *. rewrite Hp'. simpl.
      by rewrite (Permutation_middle (holding (copy_threads st)) q (a, b)).
    + pose proof (holding_insert_perm _ _ _ CExit Hj) as Hp.
      pose proof (holding_insert_perm _ _ _ CWait Hj) as Hp'.
      simpl in *. unfold copy_worker_step.
      destruct (cuda_fails world a).
      { simpl. etrans; [|exact Hin]. rewrite <- Hp. simpl.
        apply submseteq_app; [done|]. by apply submseteq_cons. }
      destruct (cuda_buffer st) as [dev|]; [|done].
      case_decide; [|done].
      destruct (write_at dev a (slice (load_buffer st) a b)); [|done].
      simpl. rewrite <- Hp' in Hin. by rewrite <- (assoc_L (++)).
Qed.

Lemma run_in_flight sched st : in_flight st → in_flight (run sched st).
Proof.
  intros Hf. induction sched as [|t sched IH] using rev_ind; [done|].
  rewrite run_snoc. by apply step_in_flight.
Qed.

(** *** Notifications *)

Lemma init_notified target : notified_ok (stloader_init target).
Proof.
  unfold Loader.stloader_init, notified_ok, notifications.
  repeat (case_match || case_decide); simpl in *; simplify_eq; done.
Qed.

Lemma step_notified t st : notified_ok st → notified_ok (step t st).
Proof.
  unfold notified_ok, notifications. intros [Hn Hd].
  destruct (pc st) eqn:Hpc.
  4: { rewrite (step_done _ _ _ _ _ _ _ Hpc). by rewrite Hpc. }
  all: step_cases t st; try congruence; simpl; try done.
  all: simpl in *; try congruence.
  all: rewrite ?Hd in *; simpl in *; rewrite ?app_nil_r in *.
  all: try (split; [|done]).
  all: try (rewrite Hn; done).
  all: try (rewrite length_app, Nat.add_1_r, replicate_S_end; by rewrite Hn).
Qed.

Lemma run_notified sched st : notified_ok st → notified_ok (run sched st).
Proof.
  intros Hf. induction sched as [|t sched IH] using rev_ind; [done|].
  rewrite run_snoc. by apply step_notified.
Qed.

(** *** The pools of workers *)

Section Pools.

Hypothesis Hvalid : valid_call cfg offset size.

Lemma block_count (j : Z) : j < (size + B - 1) / B ↔ j * B < size.
Proof.
  pose proof Hvalid as (HT & HB & _).
  pose proof (Z.mul_div_le (size + B - 1) B ltac:(lia)).
  split; intros Hj.
  - nia.
  - assert (j + 1 ≤ (size + B - 1) / B); [|lia].
    apply Z.div_le_lower_bound; nia.
Qed.

Lemma spawn_length :
  length (spawn_load_workers cfg size (Z.to_nat T) 0) = Z.to_nat (load_workers cfg size).
Proof.
  pose proof Hvalid as (HT & HB & _).
  set (l := spawn_load_workers cfg size (Z.to_nat T) 0).
  unfold load_workers. set (m := Z.min T ((size + B - 1) / B)).
  assert (length l ≤ Z.to_nat m)%nat.
  { destruct (length l) as [|n] eqn:Hlen; [lia|].
    destruct (lookup_lt_is_Some_2 l n ltac:(lia)) as [w Hw].
    apply (spawn_lookup cfg offset size Hvalid) in Hw as (_ & Hn1 & Hn2); [|done].
    apply block_count in Hn2. lia. }
  assert (Z.to_nat m ≤ length l)%nat; [|lia].
  destruct (Z.to_nat m) as [|n] eqn:Hm; [lia|].
  assert (is_Some (l !! n)) as Hn%lookup_lt_is_Some; [|lia].
  apply (spawn_is_Some cfg offset size Hvalid); [lia..|].
  apply block_count. lia.
Qed.

Lemma init_pools target : pools cfg size (stloader_init target).
Proof.
  unfold Loader.stloader_init, pools.
  repeat (case_match || case_decide); simpl in *; simplify_eq; done.
Qed.

Lemma step_pools t st : pools cfg size st → pools cfg size (step t st).
Proof.
  unfold pools, pools_of. intros Hp.
  destruct (pc st) eqn:Hpc.
  4: { rewrite (step_done _ _ _ _ _ _ _ Hpc). by rewrite Hpc. }
  all: step_cases t st; try congruence; simpl; try done.
  all: simpl in *; try congruence.
  all: rewrite ?length_insert; try done.
  all: try (intros _; done).
  all: rewrite spawn_length; split; [done|].
  all: unfold spawn_copy_workers; destruct (cuda_buffer st); [|done].
  all: by rewrite length_replicate.
Qed.

Lemma run_pools sched st : pools cfg size st → pools cfg size (run sched st).
Proof.
  intros Hf. induction sched as [|t sched IH] using rev_ind; [done|].
  rewrite run_snoc. by apply step_pools.
Qed.

End Pools.

End EveryCall.


Section Mixture.

Variable cfg : config.
Variable world : World.
Variables (offset size : Z).
Hypothesis Hvalid : valid_call cfg offset size.

Local Abbreviation T := (STLOADER_THREADS cfg).
Local Abbreviation B := (STLOADER_BLOCK_SIZE cfg).
Local Abbreviation Inv1 := (Inv1 cfg size).
Local Abbreviation Inv2 := (Inv2 cfg world offset size).
Local Abbreviation Inv := (Inv cfg world offset size).
Local Abbreviation step := (step cfg world offset size).
Local Abbreviation run := (run cfg world offset size).
Local Abbreviation byte_ok := (byte_ok world offset).
Local Abbreviation old_or_file := (old_or_file world offset size).
Local Abbreviation block_read := (block_read world offset).
Local Abbreviation Mix := (Mix world offset size).

Lemma old_or_file_refl buf : old_or_file buf buf.
Proof. split; [done|]. by left. Qed.

(** Bytes of the file stored where they belong. *)
Lemma write_file lb pos count br d lb' :
  0 ≤ pos < size → 0 ≤ count → pos + count ≤ size →
  pread (file_bytes world) count (offset + pos) = (br, d) →
  write_at lb pos d = Some lb' →
  (∀ p, 0 ≤ p → byte_ok lb p → byte_ok lb' p) ∧
  (∀ old, old_or_file old lb → old_or_file old lb') ∧
  (∀ p, pos ≤ p < pos + Z.of_nat (length d) → byte_ok lb' p).
Proof.
  pose proof Hvalid as (HT & HB & HTB & Hs & Hoff & Hoffs).
  intros Hpos Hcount Hfit Hpread Hwrite.
  apply pread_spec in Hpread as (-> & Hshort & Hdata); [|lia..].
  apply write_at_Some in Hwrite as (_ & Hlen & Hlb).
  assert (∀ q : nat, (Z.to_nat pos ≤ q < Z.to_nat pos + length d)%nat →
    lb' !! q = file_bytes world !! (Z.to_nat offset + q)%nat) as Hnew.
  { intros q Hq. rewrite Hlb, decide_True by done. rewrite Hdata by lia.
    f_equal. lia. }
  split; [|split].
  - intros p Hp Hok. unfold Loader.byte_ok in *.
    destruct (decide (Z.to_nat pos ≤ Z.to_nat p < Z.to_nat pos + length d)%nat) as [Hin|Hout].
    + rewrite Hnew by done. f_equal. lia.
    + by rewrite Hlb, decide_False.
  - intros old [Hlen0 Hold]. split; [congruence|]. intros q.
    destruct (decide (Z.to_nat pos ≤ q < Z.to_nat pos + length d)%nat) as [Hin|Hout].
    + right. split; [lia|]. by apply Hnew.
    + rewrite Hlb, decide_False by done. apply Hold.
  - intros p Hp. unfold Loader.byte_ok. rewrite Hnew by lia. f_equal. lia.
Qed.

(** A block of the staging buffer stored on the device. *)
Lemma copy_block lb dev a b dev' :
  0 ≤ a ≤ b → b ≤ size → b ≤ Z.of_nat (length lb) →
  write_at dev a (slice lb a b) = Some dev' →
  (∀ p, a ≤ p < b → byte_ok lb p) →
  ∀ old, old_or_file old dev → old_or_file old dev'.
Proof.
  pose proof Hvalid as (HT & HB & HTB & Hs & Hoff & Hoffs).
  intros Hab Hbs Hfit Hwrite Hok old [Hlen0 Hold].
  pose proof (slice_length lb a b ltac:(lia) ltac:(lia)) as Hsl.
  apply write_at_Some in Hwrite as (_ & Hlen & Hdev).
  split; [congruence|]. intros q. rewrite Hdev.
  case_decide as Hin; [|apply Hold].
  right. split; [lia|]. rewrite slice_lookup by lia.
  specialize (Hok (Z.of_nat q) ltac:(lia)). unfold Loader.byte_ok in Hok.
  replace (Z.to_nat a + (q - Z.to_nat a))%nat with (Z.to_nat (Z.of_nat q)) by lia.
  rewrite Hok. f_equal. lia.
Qed.

Variable lb0 : list byte.
Variable dev0 : option (list byte).

Lemma reader_body_mix i st :
  Inv1 st → read_threads st !! i = Some RReady → Mix lb0 dev0 st →
  Mix lb0 dev0 (reader_body cfg world offset size i st).
Proof.
  intros [Hbuf Hdev Hlen Hidle Hreads] Hi [Hmb Hmd Hmr Hmq].
  pose proof Hvalid as (HT & HB & HTB & Hs & Hoff & Hoffs).
  pose proof (chunk_size_bounds cfg offset size Hvalid) as (Hc0 & Hc1 & Hc2).
  assert (Z.of_nat i < T) as HiT by (apply lookup_lt_Some in Hi; lia).
  unfold reader_body. set (cs := chunk_size cfg size) in *.
  assert (T ≤ T * B) by nia.
  assert (0 ≤ Z.of_nat i * cs ∧ Z.of_nat i * cs + cs ≤ T * cs) as [Hs0 Hs1] by nia.
  rewrite (wrap64_small (Z.of_nat i * cs)) by lia.
  rewrite (wrap64_small (Z.of_nat i * cs + cs)) by lia.
  set (start := Z.of_nat i * cs) in *.
  set (end_ := Z.min (start + cs) size).
  case_decide as Hempty; [done|].
  destruct (fs_file world) as [file|] eqn:Hfile; [|done].
  destruct (pread file (wrap64 (end_ - start)) (wrap64 (offset + start)))
    as [br d] eqn:Hpread.
  rewrite (wrap64_small (end_ - start)) in * by lia.
  rewrite (wrap64_small (offset + start)) in Hpread by lia.
  destruct (write_at (load_buffer st) start d) as [lb|] eqn:Hlb; [|done].
  assert (file = file_bytes world) as Hfb by (unfold file_bytes; by rewrite Hfile).
  rewrite Hfb in Hpread.
  destruct (write_file (load_buffer st) start (end_ - start) br d lb
    ltac:(lia) ltac:(lia) ltac:(lia) Hpread Hlb) as (Hkeep & Hmix & Hnew).
  destruct Hidle as (Hts & Hcs & Hdq & _).
  split; simpl.
  - by apply Hmix.
  - done.
  - intros j a b Hj. by rewrite Hts in Hj.
  - by rewrite Hdq, Hcs.
Qed.

Lemma main_step_mix st : Inv st → Mix lb0 dev0 st → Mix lb0 dev0 (main_step cfg size st).
Proof.
  intros HI [Hmb Hmd Hmr Hmq]. unfold main_step, Loader.Inv in *.
  destruct (pc st) eqn:Hpc.
  - case_decide; [|done]. destruct (read_failed st); [done|].
    destruct HI as [_ _ _ (_ & _ & Hdq & _) _].
    split; simpl; try done.
    + intros i a b Hi. by apply (spawn_lookup cfg offset size Hvalid) in Hi as [? _].
    + rewrite Hdq, (spawn_copy_holding cfg). done.
  - case_decide; [|done]. split; simpl; done.
  - case_decide; [|done]. destruct (load_failed st); [done|]. split; simpl; done.
  - done.
Qed.

Lemma block_read_keep lb lb' r :
  0 ≤ r.1 →
  (∀ p, 0 ≤ p → byte_ok lb p → byte_ok lb' p) →
  block_read lb r → block_read lb' r.
Proof. intros Hr Hkeep Hrd p Hp. apply Hkeep; [lia|]. by apply Hrd. Qed.

Lemma inline_worker_step_mix st i w :
  Inv2 st → threads st !! i = Some w → Mix lb0 dev0 st →
  Mix lb0 dev0 (inline_worker_step cfg world offset size i w st).
Proof.
  intros HI Hi [Hmb Hmd Hmr Hmq].
  pose proof HI as [Hbuf Hdev Hw Hsp Hbl Hq Hr Hcp Hdn Hdr Hcn].
  pose proof Hvalid as (HT & HB & HTB & Hs & Hoff & Hoffs).
  pose proof (lookup_lt_Some _ _ _ Hi) as Hlt.
  assert (∀ w', (∀ a b, w' ≠ LPush a b) → ∀ j a b,
    <[i := w']> (threads st) !! j = Some (LPush a b) →
    threads st !! j = Some (LPush a b)) as Hother.
  { intros w' Hw' j a b Hj. destruct (decide (j = i)) as [->|Hne].
    - rewrite list_lookup_insert_eq in Hj by done. injection Hj as ->. by destruct (Hw' a b).
    - by rewrite list_lookup_insert_ne in Hj. }
  destruct w as [a|a|a b|]; simpl.
  - destruct (fs_file world); split; simpl; try done.
    all: intros j a' b' Hj; apply Hother in Hj; [|done]; by apply (Hmr j).
  - destruct (Hw i _ Hi) as (HiT & k & Hk & Ha & Hab).
    assert (0 ≤ a) as Ha0 by nia.
    assert (B ≤ T * B) as HBT by nia.
    case_decide as Hcond.
    + destruct Hcond as [Has Hlf0].
      rewrite (wrap64_small (a + B)) by lia.
      set (b := if decide (a + B > size) then size else a + B).
      assert (b = Z.min (a + B) size) as Hb by (unfold b; case_decide; lia).
      rewrite (wrap64_small (b - a)), (wrap64_small (offset + a)) by lia.
      destruct (pread (default [] (fs_file world)) (b - a) (offset + a)) as [br d] eqn:Hpread.
      destruct (write_at (load_buffer st) a d) as [lb|] eqn:Hlb; [|done].
      destruct (write_file (load_buffer st) a (b - a) br d lb
        ltac:(lia) ltac:(lia) ltac:(lia) Hpread Hlb) as (Hkeep & Hmix & Hnew).
      apply pread_spec in Hpread as (-> & Hshort & Hdata); [|lia..].
      rewrite (wrap64_small (Z.of_nat (length d))) by lia.
      assert (Forall (λ r : Z * Z, 0 ≤ r.1) (dq st ++ holding (copy_threads st))) as Hpos.
      { destruct Hr as (_ & Hr2 & Hr3). apply Forall_app. split.
        - eapply Forall_impl; [exact Hr2|]. by intros r [? _].
        - eapply Forall_impl; [exact Hr3|]. by intros r [? _]. }
      assert (Forall (block_read lb) (dq st ++ holding (copy_threads st))) as Hqueue.
      { eapply Forall_impl; [exact (proj2 (Forall_and _ _) (conj Hmq Hpos))|].
        intros r [Hrd Hr0]. by apply (block_read_keep (load_buffer st)). }
      assert (∀ j a' b', threads st !! j = Some (LPush a' b') →
        block_read lb (a', b')) as Hreads.
      { intros j a' b' Hj. apply (block_read_keep (load_buffer st)).
        - destruct (Hw j _ Hj) as (? & k' & ? & ? & _). simpl. nia.
        - exact Hkeep.
        - by apply (Hmr j). }
      case_decide as Hfull.
      * split; simpl; [by apply Hmix|done| |done].
        intros j a' b' Hj. apply Hother in Hj; [|done]. by apply (Hreads j).
      * split; simpl; [by apply Hmix|done| |done].
        intros j a' b' Hj. destruct (decide (j = i)) as [->|Hne].
        -- rewrite list_lookup_insert_eq in Hj by done. injection Hj as <- <-.
           intros p Hp. simpl in *. apply Hnew. lia.
        -- rewrite list_lookup_insert_ne in Hj by done. by apply (Hreads j).
    + split; simpl; try done.
      intros j a' b' Hj. apply Hother in Hj; [|done]. by apply (Hmr j).
  - split; simpl; try done.
    + intros j a' b' Hj. apply Hother in Hj; [|done]. by apply (Hmr j).
    + rewrite <- (assoc_L (++)). apply Forall_app in Hmq as [Hq1 Hq2].
      apply Forall_app. split; [done|].
      constructor; [|done]. by apply (Hmr i).
  - done.
Qed.

Lemma set_pc_mix st p : Mix lb0 dev0 st → Mix lb0 dev0 (set_pc st p).
Proof. intros [? ? ? ?]. by split. Qed.

Lemma copy_worker_step_mix st j c :
  Inv2 st → copy_threads st !! j = Some c → Mix lb0 dev0 st →
  Mix lb0 dev0 (copy_worker_step world j c st).
Proof.
  intros HI Hj HM. pose proof HM as [Hmb Hmd Hmr Hmq].
  pose proof HI as [Hbuf Hdev Hw Hsp Hbl Hq Hr Hcp Hdn Hdr Hcn].
  apply Forall_app in Hmq as [Hq1 Hq2].
  assert (Forall (block_read (load_buffer st))
    (dq st ++ holding (<[j := CExit]> (copy_threads st)))) as Hexit.
  { apply Forall_app. split; [done|]. by apply holding_insert_Forall. }
  destruct c as [|a b|]; simpl; [| |done].
  - case_decide as Hblocked; [done|].
    destruct (load_failed st) eqn:Hlf; [split; simpl; done|].
    destruct (dq st) as [|[a b] q] eqn:Hdq.
    + destruct (done_loading st); split; simpl; rewrite ?Hdq; done.
    + apply Forall_cons in Hq1 as [Hab Hq1]. split; simpl; try done.
      apply Forall_app. split; [done|].
      apply holding_insert_Forall; [done|]. by constructor.
  - pose proof (holding_lookup_Forall _ _ _ _ Hq2 Hj) as Hab.
    apply Forall_cons in Hab as [Hab _].
    destruct Hr as (_ & _ & Hr3).
    pose proof (holding_lookup_Forall _ _ _ _ Hr3 Hj) as Hrange.
    apply Forall_cons in Hrange as [(Ha0 & Hlt & Hbs) _]. simpl in *.
    destruct (cuda_fails world a); [split; simpl; done|].
    destruct (cuda_buffer st) as [dev|] eqn:Hcuda; [|by apply set_pc_mix].
    case_decide; [|by apply set_pc_mix].
    destruct (write_at dev a (slice (load_buffer st) a b)) as [dev'|] eqn:Hdev';
      [|by apply set_pc_mix].
    split; simpl; try done.
    + inversion Hmd as [old ? Hold|]; subst. constructor.
      apply (copy_block (load_buffer st) dev a b dev'); try done; lia.
    + apply Forall_app. split; [done|]. by apply holding_insert_Forall.
Qed.

Lemma step_mix t st : Inv st → Mix lb0 dev0 st → Mix lb0 dev0 (step t st).
Proof.
  intros HI HM. unfold Loader.step.
  destruct t as [|i|i|j].
  - by apply main_step_mix.
  - destruct (pc st) eqn:Hpc; try done.
    destruct (read_threads st !! i) as [[|]|] eqn:Hi; try done.
    unfold Loader.Inv in HI. rewrite Hpc in HI. by apply reader_body_mix.
  - destruct (pc st) eqn:Hpc; try done.
    destruct (threads st !! i) as [w|] eqn:Hi; try done.
    unfold Loader.Inv in HI. rewrite Hpc in HI. by apply inline_worker_step_mix.
  - destruct (pc st) eqn:Hpc; try done.
    all: destruct (copy_threads st !! j) as [c|] eqn:Hj; try done.
    all: unfold Loader.Inv in HI; rewrite Hpc in HI.
    + by apply copy_worker_step_mix.
    + destruct HI as [HI _]. by apply copy_worker_step_mix.
Qed.

Lemma run_mix sched st : Inv st → Mix lb0 dev0 st → Mix lb0 dev0 (run sched st).
Proof.
  intros HI HM. induction sched as [|t sched IH] using rev_ind; [done|].
  rewrite run_snoc. apply step_mix; [|done]. by apply run_inv.
Qed.

(** *** The blocks pushed *)

Local Abbreviation is_block := (is_block cfg size).

Lemma step_pushed t st :
  pushed (step t st) = pushed st ∨
  ∃ i a b, pc st = JoinLoad ∧ threads st !! i = Some (LPush a b) ∧
    pushed (step t st) = pushed st ++ [(a, b)].
Proof.
  unfold Loader.step, main_step, reader_body, inline_worker_step, copy_worker_step.
  destruct t as [|i|i|j]; destruct (pc st) eqn:Hpc; simpl;
    repeat (case_match || case_decide); simpl; auto.
  all: right; subst; do 3 eexists; split; [done|split; [eassumption|done]].
Qed.

Lemma step_blocks t st :
  Inv st → Forall is_block (pushed st) → Forall is_block (pushed (step t st)).
Proof.
  intros HI Hb. pose proof Hvalid as (HT & HB & HTB & Hs & Hoff & Hoffs).
  destruct (step_pushed t st) as [->|(i & a & b & Hpc & Hi & ->)]; [done|].
  unfold Loader.Inv in HI. rewrite Hpc in HI.
  destruct (inv_workers _ _ _ _ _ HI _ _ Hi) as (HiT & k & Hk & Ha & Has & Hab).
  apply Forall_app. split; [done|]. constructor; [|done].
  split; simpl; [nia|]. split; [|done].
  rewrite Ha. apply Z_mod_mult.
Qed.

Lemma run_blocks sched st :
  Inv st → Forall is_block (pushed st) → Forall is_block (pushed (run sched st)).
Proof.
  intros HI HM. induction sched as [|t sched IH] using rev_ind; [done|].
  rewrite run_snoc. apply step_blocks; [|done]. by apply run_inv.
Qed.

(** *** Where the bytes read are stored *)

Local Abbreviation in_segment := (in_segment size).

Lemma is_block_in_segment r : is_block r → in_segment r.
Proof.
  pose proof Hvalid as (HT & HB & _). intros ((Ha & Has) & _ & Hb).
  unfold LoaderRuns.in_segment. lia.
Qed.

Lemma main_step_reads st : file_reads (main_step cfg size st) = file_reads st.
Proof. unfold main_step. repeat (case_match || case_decide); done. Qed.

Lemma copy_worker_step_reads j c st :
  file_reads (copy_worker_step world j c st) = file_reads st.
Proof. unfold copy_worker_step. repeat (case_match || case_decide); done. Qed.

Lemma reader_body_reads i st :
  Inv1 st → read_threads st !! i = Some RReady →
  Forall in_segment (file_reads st) →
  Forall in_segment (file_reads (reader_body cfg world offset size i st)).
Proof.
  intros [Hbuf Hdev Hlen Hidle Hreads] Hi Hfr.
  pose proof Hvalid as (HT & HB & HTB & Hs & Hoff & Hoffs).
  pose proof (chunk_size_bounds cfg offset size Hvalid) as (Hc0 & Hc1 & Hc2).
  assert (Z.of_nat i < T) as HiT by (apply lookup_lt_Some in Hi; lia).
  unfold reader_body. set (cs := chunk_size cfg size) in *.
  assert (T ≤ T * B) by nia.
  assert (0 ≤ Z.of_nat i * cs ∧ Z.of_nat i * cs + cs ≤ T * cs) as [Hs0 Hs1] by nia.
  rewrite (wrap64_small (Z.of_nat i * cs)) by lia.
  rewrite (wrap64_small (Z.of_nat i * cs + cs)) by lia.
  set (start := Z.of_nat i * cs) in *.
  set (end_ := Z.min (start + cs) size).
  case_decide as Hempty; [done|].
  destruct (fs_file world) as [file|] eqn:Hfile; [|done].
  destruct (pread file (wrap64 (end_ - start)) (wrap64 (offset + start)))
    as [br d] eqn:Hpread.
  rewrite (wrap64_small (end_ - start)) in * by lia.
  rewrite (wrap64_small (offset + start)) in Hpread by lia.
  destruct (write_at (load_buffer st) start d) as [lb|] eqn:Hlb; [|done].
  apply pread_spec in Hpread as (-> & Hshort & _); [|lia..].
  simpl. apply Forall_app. split; [done|]. constructor; [|done].
  unfold LoaderRuns.in_segment. simpl. lia.
Qed.

Lemma inline_worker_step_reads st i w :
  Inv2 st → threads st !! i = Some w →
  Forall in_segment (file_reads st) →
  Forall in_segment (file_reads (inline_worker_step cfg world offset size i w st)).
Proof.
  intros HI Hi Hfr.
  pose proof HI as [Hbuf Hdev Hw Hsp Hbl Hq Hr Hcp Hdn Hdr Hcn].
  pose proof Hvalid as (HT & HB & HTB & Hs & Hoff & Hoffs).
  destruct w as [a|a|a b|]; simpl; [by destruct (fs_file world)| |done..].
  destruct (Hw i _ Hi) as (HiT & k & Hk & Ha & Hab).
  assert (0 ≤ a) as Ha0 by nia.
  assert (B ≤ T * B) as HBT by nia.
  case_decide as Hcond; [|done].
  destruct Hcond as [Has Hlf0].
  rewrite (wrap64_small (a + B)) by lia.
  set (b := if decide (a + B > size) then size else a + B).
  assert (b = Z.min (a + B) size) as Hb by (unfold b; case_decide; lia).
  rewrite (wrap64_small (b - a)), (wrap64_small (offset + a)) by lia.
  destruct (pread (default [] (fs_file world)) (b - a) (offset + a)) as [br d] eqn:Hpread.
  destruct (write_at (load_buffer st) a d) as [lb|] eqn:Hlb; [|done].
  apply pread_spec in Hpread as (-> & Hshort & _); [|lia..].
  assert (Forall in_segment (file_reads st ++ [(a, a + Z.of_nat (length d))])) as Hnew.
  { apply Forall_app. split; [done|]. constructor; [|done].
    unfold LoaderRuns.in_segment. simpl. lia. }
  by case_decide.
Qed.

Lemma step_reads t st :
  Inv st → Forall in_segment (file_reads st) → Forall in_segment (file_reads (step t st)).
Proof.
  intros HI Hfr. unfold Loader.step.
  destruct t as [|i|i|j].
  - by rewrite main_step_reads.
  - destruct (pc st) eqn:Hpc; try done.
    destruct (read_threads st !! i) as [[|]|] eqn:Hi; try done.
    unfold Loader.Inv in HI. rewrite Hpc in HI. by apply reader_body_reads.
  - destruct (pc st) eqn:Hpc; try done.
    destruct (threads st !! i) as [w|] eqn:Hi; try done.
    unfold Loader.Inv in HI. rewrite Hpc in HI. by apply inline_worker_step_reads.
  - destruct (pc st) eqn:Hpc; try done.
    all: destruct (copy_threads st !! j) as [c|] eqn:Hj; try done.
    all: by rewrite copy_worker_step_reads.
Qed.

Lemma run_reads sched st :
  Inv st → Forall in_segment (file_reads st) → Forall in_segment (file_reads (run sched st)).
Proof.
  intros HI HM. induction sched as [|t sched IH] using rev_ind; [done|].
  rewrite run_snoc. apply step_reads; [|done]. by apply run_inv.
Qed.

End Mixture.


Section FirstPass.

Variable cfg : config.
Variable world : World.
Variables (offset size : Z).
Hypothesis Hvalid : valid_call cfg offset size.

Local Abbreviation T := (STLOADER_THREADS cfg).
Local Abbreviation B := (STLOADER_BLOCK_SIZE cfg).
Local Abbreviation Inv1 := (Inv1 cfg size).
Local Abbreviation Inv := (Inv cfg world offset size).
Local Abbreviation step := (step cfg world offset size).
Local Abbreviation run := (run cfg world offset size).
Local Abbreviation chunks_read := (chunks_read cfg world offset size).
Local Abbreviation reader_body := (reader_body cfg world offset size).

Lemma reader_body_frame i st :
  pc (reader_body i st) = JoinRead →
  read_threads (reader_body i st) = <[i := RDone]> (read_threads st) ∧
  cuda_buffer (reader_body i st) = cuda_buffer st ∧
  staging (reader_body i st) = staging st.
Proof.
  unfold Loader.reader_body. repeat (case_match || case_decide); simpl; done.
Qed.


Lemma reader_body_chunks i st :
  Inv1 st → read_threads st !! i = Some RReady → chunks_read st →
  chunks_read (reader_body i st).
Proof.
  intros [Hbuf Hdev Hlen Hidle Hreads] Hi Hch.
  pose proof Hvalid as (HT & HB & HTB & Hs & Hoff & Hoffs).
  pose proof (chunk_size_bounds cfg offset size Hvalid) as (Hc0 & Hc1 & Hc2).
  assert (Z.of_nat i < T) as HiT by (apply lookup_lt_Some in Hi; lia).
  unfold LoaderRuns.chunks_read, Loader.reader_body.
  set (cs := chunk_size cfg size) in *.
  assert (T ≤ T * B) by nia.
  assert (0 ≤ Z.of_nat i * cs ∧ Z.of_nat i * cs + cs ≤ T * cs) as [Hs0 Hs1] by nia.
  rewrite (wrap64_small (Z.of_nat i * cs)) by lia.
  rewrite (wrap64_small (Z.of_nat i * cs + cs)) by lia.
  set (start := Z.of_nat i * cs) in *.
  set (end_ := Z.min (start + cs) size).
  assert (∀ p, 0 ≤ p < size →
    (Z.to_nat (p / cs) = i ↔ start ≤ p < end_)) as Hchunk.
  { intros p Hp. pose proof (chunk_of_byte cfg offset size Hvalid i p Hp) as Hc.
    change (chunk_size cfg size) with cs in Hc. unfold end_, start. lia. }
  assert (∀ p, 0 ≤ p < size → ¬ start ≤ p < end_ →
    read_failed st = false →
    <[i := RDone]> (read_threads st) !! Z.to_nat (p / cs) = Some RDone →
    is_Some (file_bytes world !! Z.to_nat (offset + p))) as Hother.
  { intros p Hp Hout Hrf Hdone. apply (Hch Hrf p Hp).
    rewrite list_lookup_insert_ne in Hdone; [done|].
    intros Heq. apply Hout. by apply Hchunk. }
  case_decide as Hempty.
  - simpl. intros Hrf p Hp Hdone. apply Hother; [done|lia|done..].
  - destruct (fs_file world) as [file|] eqn:Hfile; [|done].
    destruct (pread file (wrap64 (end_ - start)) (wrap64 (offset + start)))
      as [br d] eqn:Hpread.
    rewrite (wrap64_small (end_ - start)) in * by lia.
    rewrite (wrap64_small (offset + start)) in Hpread by lia.
    apply pread_spec in Hpread as (-> & Hshort & Hdata); [|lia..].
    destruct (write_at (load_buffer st) start d) as [lb|] eqn:Hlb; [|done].
    simpl. rewrite to_ssize_small by lia.
    case_decide as Hfull; [done|]. intros Hrf p Hp Hdone.
    destruct (decide (start ≤ p < end_)) as [Hin|Hout]; [|by apply Hother].
    assert (Z.of_nat (length d) = end_ - start) as Hd by lia.
    destruct (lookup_lt_is_Some_2 d (Z.to_nat (p - start)) ltac:(lia)) as [x Hx].
    rewrite Hdata in Hx by lia. exists x. unfold file_bytes. rewrite Hfile. simpl.
    rewrite <- Hx. f_equal. lia.
Qed.

(** A byte of the segment that is in the file: the file is there, and as
    long as the byte says. *)
Lemma last_byte_in_file :
  0 < size → is_Some (file_bytes world !! Z.to_nat (offset + (size - 1))) →
  holds_segment world offset size.
Proof.
  pose proof Hvalid as (HT & HB & HTB & Hs & Hoff & Hoffs).
  intros Hpos Hbyte%lookup_lt_is_Some. unfold file_bytes in Hbyte.
  destruct (fs_file world) as [file|] eqn:Hfile; simpl in Hbyte; [|lia].
  exists file. split; [done|lia].
Qed.

(** The chunk readers get to their end, whatever they find. *)
Lemma readers_end n : ∀ st,
  (sum_list_with rmeasure (read_threads st) ≤ n)%nat →
  pc st = JoinRead → Inv st →
  ∃ sched, pc (run sched st) = JoinRead ∧
    Forall (λ r, r = RDone) (read_threads (run sched st)).
Proof.
  induction n as [|n IH]; intros st Hm Hpc HI.
  - exists []. unfold Loader.run. simpl. split; [done|].
    apply (sum_list_with_zero rmeasure); [by intros []|]. lia.
  - destruct (decide (sum_list_with rmeasure (read_threads st) = 0)%nat) as [Hz|Hnz].
    { apply (IH st); [lia|done..]. }
    destruct (sum_list_with_pos rmeasure (read_threads st)) as (i & r & Hi & Hr); [lia|].
    destruct r; [|simpl in Hr; lia].
    pose proof HI as HI1. unfold Loader.Inv in HI1. rewrite Hpc in HI1.
    destruct (reader_body_inv cfg world offset size Hvalid i st HI1 Hi) as [Hpc' _].
    destruct (reader_body_frame i st ltac:(congruence)) as (Hts & _).
    assert (step (Reader i) st = reader_body i st) as Hstep.
    { unfold Loader.step. by rewrite Hpc, Hi. }
    destruct (IH (step (Reader i) st)) as (sched & H1 & H2).
    + rewrite Hstep, Hts.
      pose proof (sum_list_with_insert rmeasure _ i RReady RDone Hi ltac:(simpl; lia)). lia.
    + rewrite Hstep. congruence.
    + by apply step_inv.
    + exists (Reader i :: sched). by rewrite (run_app _ _ _ _ [Reader i] sched).
Qed.

Hypothesis Hsize : 0 < size.
Hypothesis Hshort : ¬ holds_segment world offset size.

Lemma step_first_pass t st :
  Inv st → first_pass st → chunks_read st →
  first_pass (step t st) ∧ chunks_read (step t st) ∧
  cuda_buffer (step t st) = cuda_buffer st ∧ staging (step t st) = staging st.
Proof.
  intros HI Hfirst Hch. pose proof Hfirst as (Hpc & Hfp).
  destruct Hpc as [Hpc|[Hpc|Hpc]].
  2,3: by rewrite (step_done _ _ _ _ _ _ _ Hpc).
  unfold Loader.Inv in HI. rewrite Hpc in HI.
  unfold Loader.step. rewrite Hpc. destruct t as [|i|i|j]; [| |done..].
  - unfold main_step. rewrite Hpc.
    case_decide as Hall; [|done].
    destruct (read_failed st) eqn:Hrf.
    { split; [|done]. split; [|done]. right. by left. }
    exfalso. apply Hshort, last_byte_in_file; [done|].
    apply Hch; [done|lia|].
    pose proof (chunk_index_bound cfg offset size Hvalid (size - 1) ltac:(lia)) as Hidx.
    destruct (lookup_lt_is_Some_2 (read_threads st)
      (Z.to_nat ((size - 1) / chunk_size cfg size))) as [r Hr].
    { rewrite (inv1_readers _ _ _ HI). done. }
    rewrite Hr. f_equal. by apply (Forall_lookup_1 _ _ _ _ Hall Hr).
  - destruct (read_threads st !! i) as [[|]|] eqn:Hi; try done.
    destruct (reader_body_inv cfg world offset size Hvalid i st HI Hi) as [Hpc' HI'].
    destruct (reader_body_frame i st ltac:(congruence)) as (_ & Hcu & Hsg).
    split; [|split; [by apply reader_body_chunks|done]].
    split; [left; congruence|].
    destruct HI' as [_ _ _ (? & ? & ? & ? & ? & ? & _) _]. done.
Qed.

Lemma run_first_pass sched st :
  Inv st → first_pass st → chunks_read st →
  first_pass (run sched st) ∧ chunks_read (run sched st) ∧
  cuda_buffer (run sched st) = cuda_buffer st ∧ staging (run sched st) = staging st.
Proof.
  intros HI Hfp Hch. induction sched as [|t sched (IH1 & IH2 & IH3 & IH4)] using rev_ind;
    [done|].
  rewrite run_snoc.
  destruct (step_first_pass t (run sched st)) as (H1 & H2 & H3 & H4); [|done..|].
  { by apply run_inv. }
  split; [done|]. split; [done|]. split; congruence.
Qed.

Lemma init_first_pass target :
  first_pass (stloader_init cfg world target) ∧
  chunks_read (stloader_init cfg world target).
Proof.
  pose proof Hvalid as (HT & _).
  unfold Loader.stloader_init, first_pass, LoaderRuns.chunks_read.
  destruct (target_cpu target); [|destruct (malloc_block world)].
  all: rewrite ?decide_False by lia; simpl.
  all: split; [tauto|]; try done.
  all: by intros _ p _ [? _]%lookup_replicate.
Qed.

Lemma short_file_raises st :
  Inv st → pc st = JoinRead → first_pass st → chunks_read st →
  ∃ sched, pc (run sched st) = Done (Raised "Parallel file read failed").
Proof.
  intros HI Hpc Hfp Hch.
  destruct (readers_end _ st (le_n _) Hpc HI) as (s1 & Hpc1 & Hall).
  destruct (run_first_pass s1 st HI Hfp Hch) as (Hfp1 & Hch1 & _).
  pose proof (run_inv cfg world offset size Hvalid s1 st HI) as HI1.
  destruct (step_first_pass Main _ HI1 Hfp1 Hch1) as ((Hpc2 & _) & _).
  exists (s1 ++ [Main]). rewrite run_snoc.
  revert Hpc2. unfold Loader.step, main_step. rewrite Hpc1, decide_True by done.
  destruct (read_failed (run s1 st)); simpl; [done|].
  intros [?|[?|?]]; done.
Qed.

End FirstPass.


Section EmptySegment.

Variable cfg : config.
Variable world : World.
Variable offset : Z.

Local Abbreviation T := (STLOADER_THREADS cfg).
Local Abbreviation B := (STLOADER_BLOCK_SIZE cfg).
Local Abbreviation step := (step cfg world offset 0).
Local Abbreviation run := (run cfg world offset 0).
Local Abbreviation reader_body := (reader_body cfg world offset 0).

Lemma wrap64_nonneg x : 0 ≤ wrap64 x.
Proof. unfold wrap64. apply Z.mod_pos_bound. lia. Qed.

Lemma reader_body_empty i st :
  reader_body i st =
    reader_update st (load_buffer st) (read_failed st) (<[i := RDone]> (read_threads st))
      (file_reads st).
Proof.
  unfold Loader.reader_body. rewrite decide_True; [done|].
  pose proof (wrap64_nonneg (Z.of_nat i * chunk_size cfg 0)). lia.
Qed.

Lemma spawn_empty n i : spawn_load_workers cfg 0 n i = [].
Proof.
  destruct n; simpl; [done|]. rewrite decide_False; [done|].
  pose proof (wrap64_nonneg (i * B)). lia.
Qed.

Lemma step_quiet t st :
  quiet st →
  quiet (step t st) ∧ load_buffer (step t st) = load_buffer st ∧
  cuda_buffer (step t st) = cuda_buffer st.
Proof.
  intros Hq. pose proof Hq as (Hfr & Hpu & Hco & Hdq & Hts & Hcs & Hrf & Hlf & Hpc).
  unfold Loader.step. destruct t as [|i|i|j].
  - unfold main_step. destruct (pc st) eqn:Hpc0; [| | |done].
    + case_decide; [|done]. rewrite Hrf. split; [|done]. unfold quiet. simpl.
      rewrite spawn_empty. repeat (split; [done|]). split; [|done].
      unfold spawn_copy_workers. destruct (cuda_buffer st); [|done].
      apply Forall_replicate. by left.
    + case_decide; [|done]. split; [|done]. unfold quiet. simpl. done.
    + case_decide; [|done]. rewrite Hlf. split; [|done]. unfold quiet. simpl.
      repeat (split; [done|]). by left.
  - destruct (pc st) eqn:Hpc0; try done.
    destruct (read_threads st !! i) as [[|]|]; try done.
    rewrite reader_body_empty. split; [|done]. unfold quiet. simpl. by rewrite Hpc0.
  - destruct (pc st) eqn:Hpc0; try done. by rewrite Hts, lookup_nil.
  - assert (∀ c, copy_threads st !! j = Some c →
      quiet (copy_worker_step world j c st) ∧
      load_buffer (copy_worker_step world j c st) = load_buffer st ∧
      cuda_buffer (copy_worker_step world j c st) = cuda_buffer st) as Hstep.
    { intros c Hj.
      destruct (Forall_lookup_1 _ _ _ _ Hcs Hj) as [->| ->]; [|done]. simpl.
      rewrite Hdq, Hlf. case_decide; [done|].
      destruct (done_loading st); [|done].
      split; [|done]. unfold quiet. simpl. repeat (split; [done|]).
      split; [|split; [done|split; [done|apply Hq]]].
      apply Forall_insert; [done|]. by right. }
    destruct (pc st) eqn:Hpc0; try done.
    all: destruct (copy_threads st !! j) as [c|] eqn:Hj; [|done].
    all: by apply Hstep.
Qed.

Lemma run_quiet sched st :
  quiet st →
  quiet (run sched st) ∧ load_buffer (run sched st) = load_buffer st ∧
  cuda_buffer (run sched st) = cuda_buffer st.
Proof.
  intros Hq. induction sched as [|t sched (IH1 & IH2 & IH3)] using rev_ind; [done|].
  rewrite run_snoc. destruct (step_quiet t _ IH1) as (H1 & H2 & H3).
  split; [done|]. split; congruence.
Qed.

Lemma init_quiet target : T ≠ 0 → quiet (stloader_init cfg world target).
Proof.
  intros HT. unfold Loader.stloader_init, quiet.
  destruct (target_cpu target); [|destruct (malloc_block world)].
  all: rewrite ?decide_False by done; simpl.
  all: repeat (split; [done|]); try done.
  by right.
Qed.

(** With nothing to read every thread gets to its end. *)
Lemma readers_end_empty n : ∀ st,
  (sum_list_with rmeasure (read_threads st) ≤ n)%nat → pc st = JoinRead →
  ∃ sched, pc (run sched st) = JoinRead ∧
    Forall (λ r, r = RDone) (read_threads (run sched st)).
Proof.
  induction n as [|n IH]; intros st Hm Hpc.
  - exists []. unfold Loader.run. simpl. split; [done|].
    apply (sum_list_with_zero rmeasure); [by intros []|]. lia.
  - destruct (decide (sum_list_with rmeasure (read_threads st) = 0)%nat) as [Hz|Hnz].
    { apply (IH st); [lia|done..]. }
    destruct (sum_list_with_pos rmeasure (read_threads st)) as (i & r & Hi & Hr); [lia|].
    destruct r; [|simpl in Hr; lia].
    assert (step (Reader i) st = reader_body i st) as Hstep.
    { unfold Loader.step. by rewrite Hpc, Hi. }
    rewrite reader_body_empty in Hstep.
    destruct (IH (step (Reader i) st)) as (sched & H1 & H2).
    + rewrite Hstep. simpl.
      pose proof (sum_list_with_insert rmeasure _ i RReady RDone Hi ltac:(simpl; lia)). lia.
    + by rewrite Hstep.
    + exists (Reader i :: sched). by rewrite (run_app _ _ _ _ [Reader i] sched).
Qed.

Lemma copiers_end_empty n : ∀ st,
  (sum_list_with cmeasure (copy_threads st) ≤ n)%nat → pc st = JoinCopy → quiet st →
  ∃ sched, pc (run sched st) = JoinCopy ∧
    Forall (λ c, c = CExit) (copy_threads (run sched st)).
Proof.
  induction n as [|n IH]; intros st Hm Hpc Hq.
  - exists []. unfold Loader.run. simpl. split; [done|].
    apply (sum_list_with_zero cmeasure); [|lia].
    intros [|a b|]; simpl; try done; lia.
  - destruct (decide (sum_list_with cmeasure (copy_threads st) = 0)%nat) as [Hz|Hnz].
    { apply (IH st); [lia|done..]. }
    destruct (sum_list_with_pos cmeasure (copy_threads st)) as (j & c & Hj & Hpos); [lia|].
    pose proof Hq as (Hfr & Hpu & Hco & Hdq & Hts & Hcs & Hrf & Hlf & Hdl).
    rewrite Hpc in Hdl.
    destruct (Forall_lookup_1 _ _ _ _ Hcs Hj) as [->| ->]; [|simpl in Hpos; lia].
    assert (step (Copier j) st =
      copier_update st (cuda_buffer st) (load_failed st) (dq st)
        (<[j := CExit]> (copy_threads st)) (copied st)) as Hstep.
    { unfold Loader.step. rewrite Hpc, Hj. simpl. rewrite Hdq, Hlf, Hdl.
      by rewrite decide_False by (intros (_ & _ & ?); done). }
    destruct (IH (step (Copier j) st)) as (sched & H1 & H2).
    + rewrite Hstep. simpl.
      pose proof (sum_list_with_insert cmeasure _ j CWait CExit Hj ltac:(simpl; lia)). lia.
    + by rewrite Hstep.
    + by apply step_quiet.
    + exists (Copier j :: sched). by rewrite (run_app _ _ _ _ [Copier j] sched).
Qed.

Lemma empty_returns st :
  quiet st → pc st = JoinRead → ∃ sched, pc (run sched st) = Done Returned.
Proof.
  intros Hq0 Hpc0.
  destruct (readers_end_empty _ st (le_n _) Hpc0) as (s1 & Hpc1 & Hall1).
  destruct (run_quiet s1 st Hq0) as (Hq1 & _). set (st1 := run s1 st) in *.
  set (st2 := step Main st1).
  assert (pc st2 = JoinLoad) as Hpc2.
  { destruct Hq1 as (_ & _ & _ & _ & _ & _ & Hrf & _).
    unfold st2, Loader.step, main_step. by rewrite Hpc1, decide_True, Hrf. }
  destruct (step_quiet Main st1 Hq1) as (Hq2 & _). fold st2 in Hq2.
  set (st3 := step Main st2).
  assert (pc st3 = JoinCopy) as Hpc3.
  { destruct Hq2 as (_ & _ & _ & _ & Hts & _).
    unfold st3, Loader.step, main_step. rewrite Hpc2, decide_True; [done|].
    by rewrite Hts. }
  destruct (step_quiet Main st2 Hq2) as (Hq3 & _). fold st3 in Hq3.
  destruct (copiers_end_empty _ st3 (le_n _) Hpc3 Hq3) as (s2 & Hpc4 & Hall4).
  destruct (run_quiet s2 st3 Hq3) as (Hq4 & _). set (st4 := run s2 st3) in *.
  exists (s1 ++ [Main] ++ [Main] ++ s2 ++ [Main]).
  rewrite !(run_app cfg world offset 0). fold st1.
  change (run [Main] st1) with st2. change (run [Main] st2) with st3. fold st4.
  change (run [Main] st4) with (step Main st4).
  destruct Hq4 as (_ & _ & _ & _ & _ & _ & _ & Hlf & _).
  unfold Loader.step, main_step. by rewrite Hpc4, decide_True, Hlf.
Qed.

End EmptySegment.


Section OtherSystems.

Variable cfg : config.
Variable world : World.
Variables (offset size : Z).
Hypothesis Hvalid : valid_call cfg offset size.

Local Abbreviation T := (STLOADER_THREADS cfg).
Local Abbreviation B := (STLOADER_BLOCK_SIZE cfg).
Local Abbreviation Inv1 := (Inv1 cfg size).
Local Abbreviation Inv2 := (Inv2 cfg world offset size).
Local Abbreviation Inv := (Inv cfg world offset size).











End OtherSystems.

(** *** What every call does *)

Section Properties.

Variable cfg : config.
Variable world : World.
Variables (offset size : Z).

Local Abbreviation stloader_init := (stloader_init cfg world).
Local Abbreviation stloader_read := (stloader_read cfg world offset size).
Local Abbreviation valid_call := (valid_call cfg offset size).
Local Abbreviation buffers_fit := (buffers_fit world size).

Lemma init_buffers target :
  target_now (stloader_init target) = target_data target ∧
  (target_cpu target = true → cuda_buffer (stloader_init target) = None) ∧
  (target_cpu target = false →
     cuda_buffer (stloader_init target) = Some (target_data target)) ∧
  threads (stloader_init target) = [] ∧ copy_threads (stloader_init target) = [] ∧
  dq (stloader_init target) = [] ∧ pushed (stloader_init target) = [].
Proof.
  unfold Loader.stloader_init, target_now.
  destruct (target_cpu target); [by case_decide|].
  destruct (malloc_block world); [by case_decide|done].
Qed.

Lemma init_running target :
  STLOADER_THREADS cfg ≠ 0 →
  target_cpu target = true ∨ is_Some (malloc_block world) →
  pc (stloader_init target) = JoinRead.
Proof.
  intros HT Hok. unfold Loader.stloader_init.
  destruct (target_cpu target); [by rewrite decide_False|].
  destruct Hok as [?|[blk ->]]; [done|]. by rewrite decide_False.
Qed.


(** X9: for a valid segment and buffers that hold it, under every
    interleaving of the threads of [stloader_read] the accesses to the
    staging buffer and to the storage of the target stay inside them: no
    [pread] and no copy is handed a range outside its buffer, every read is
    stored within the first [size] bytes of the staging buffer, every block
    copied lies within the segment, and both buffers stay at least [size]
    bytes long. This is about these two buffers only. The vector
    [blocks_processed_per_thread], which line 192 extends while the workers
    started before store into it at line 224, and the flag [load_failed],
    stored and tested outside the mutex, are not part of [state]: the
    theorem says nothing about them. *)
Theorem buffer_accesses_stay_inside target sched :
  valid_call → buffers_fit target →
  pc (stloader_read target sched) ≠ Done Undefined ∧
  Forall (in_segment size) (file_reads (stloader_read target sched)) ∧
  Forall (in_segment size) (copied (stloader_read target sched)) ∧
  size ≤ Z.of_nat (length (target_now (stloader_read target sched))) ∧
  (target_cpu target = true ∨ is_Some (malloc_block world) →
     size ≤ Z.of_nat (length (load_buffer (stloader_read target sched)))).
Proof.
  intros Hv Hf.
  pose proof (init_inv cfg world offset size Hv target Hf) as HI.
  pose proof (read_inv cfg world offset size Hv target sched Hf) as HI'.
  destruct (init_buffers target) as (Hnow & Hcpu & Hdev & Hts & Hcs & Hdq & Hpu).
  split; [|split; [|split; [|split]]].
  - intros Hpc. unfold Loader.Inv in HI'. by rewrite Hpc in HI'.
  - apply (run_reads cfg world offset size Hv); [done|].
    unfold Loader.stloader_init. repeat (case_match || case_decide); constructor.
  - assert (Forall (is_block cfg size) (pushed (stloader_read target sched))) as Hblocks.
    { apply (run_blocks cfg world offset size Hv); [done|]. by rewrite Hpu. }
    pose proof (run_in_flight cfg world offset size sched _ (init_in_flight cfg world target))
      as Hin.
    apply Forall_forall. intros r Hr.
    apply (is_block_in_segment cfg offset size Hv).
    apply (proj1 (Forall_forall _ _) Hblocks).
    apply (elem_of_submseteq _ _ r) in Hin; [done|].
    apply elem_of_app. by left.
  - set (st0 := stloader_init target) in *.
    assert (Mix world offset size (load_buffer st0) (cuda_buffer st0) st0) as HM0.
    { split.
      - apply old_or_file_refl.
      - destruct (cuda_buffer st0); constructor. apply old_or_file_refl.
      - intros i a b Hi. by rewrite Hts in Hi.
      - by rewrite Hdq, Hcs. }
    pose proof (run_mix cfg world offset size Hv _ _ sched st0 HI HM0) as [Hb Hd _ _].
    destruct Hf as [Hft _].
    unfold Loader.stloader_read, target_now in *. fold st0.
    destruct (target_cpu target).
    + rewrite (Hcpu eq_refl) in *. inversion Hd as [|Heq1 Heq2].
      destruct Hb as [-> _]. by rewrite Hnow.
    + rewrite (Hdev eq_refl) in *. inversion Hd as [? dev [Hlen _] Heq1 Heq2|].
      by rewrite Hlen.
  - intros Hok.
    set (st0 := stloader_init target) in *.
    assert (Mix world offset size (load_buffer st0) (cuda_buffer st0) st0) as HM0.
    { split.
      - apply old_or_file_refl.
      - destruct (cuda_buffer st0); constructor. apply old_or_file_refl.
      - intros i a b Hi. by rewrite Hts in Hi.
      - by rewrite Hdq, Hcs. }
    pose proof (run_mix cfg world offset size Hv _ _ sched st0 HI HM0) as [[Hlen _] _ _ _].
    unfold Loader.stloader_read. fold st0. rewrite Hlen.
    destruct Hf as [Hft Hfb]. unfold st0, Loader.stloader_init.
    destruct (target_cpu target) eqn:Hc.
    + by case_decide.
    + destruct Hok as [?|[blk Hblk]]; [done|]. rewrite Hblk.
      specialize (Hfb _ Hblk). by case_decide.
Qed.

(** X10: when the file is missing or ends before the segment does, a call
    for a segment of at least one byte never gets beyond its first pass: no
    load worker and no copy worker is created, nothing is queued or copied,
    and a target off the CPU keeps its bytes. Once the staging block is
    there, some schedule ends the call, and with the error of line 68. *)
Theorem short_file_fails_in_first_pass target :
  valid_call → buffers_fit target → 0 < size → ¬ holds_segment world offset size →
  (∀ sched, first_pass (stloader_read target sched) ∧
     (target_cpu target = false →
        target_now (stloader_read target sched) = target_data target)) ∧
  (target_cpu target = true ∨ is_Some (malloc_block world) →
     ∃ sched, pc (stloader_read target sched) = Done (Raised "Parallel file read failed")).
Proof.
  intros Hv Hf Hs Hshort.
  pose proof (init_inv cfg world offset size Hv target Hf) as HI.
  destruct (init_first_pass cfg world offset size Hv target) as [Hfp Hch].
  split.
  - intros sched.
    destruct (run_first_pass cfg world offset size Hv Hs Hshort sched _ HI Hfp Hch)
      as (H1 & _ & Hcu & _).
    split; [done|]. intros Hcpu. unfold target_now, Loader.stloader_read. rewrite Hcu.
    destruct (init_buffers target) as (_ & _ & Hdev & _). by rewrite (Hdev Hcpu).
  - intros Hok. apply (short_file_raises cfg world offset size Hv Hs Hshort); try done.
    apply init_running; [|done]. destruct Hv as (? & _). lia.
Qed.

(** X11: the block from [malloc] in every state of every run: a call for a
    target on the CPU has none; a call for a target off the CPU has it
    allocated from the start, if [malloc] hands one out, until the call
    returns, and freed from then on. *)
Theorem staging_block_discipline target sched :
  staging (stloader_read target sched) =
    if target_cpu target then NotAllocated
    else staging_of world (stloader_read target sched).
Proof.
  unfold Loader.stloader_read.
  pose proof (run_not_freed cfg world offset size sched (stloader_init target)) as Hnf.
  pose proof (run_freed cfg world offset size sched (stloader_init target)) as Hfr.
  pose proof (run_device cfg world offset size sched (stloader_init target)) as Hdev.
  rewrite init_device in Hdev.
  assert (pc (stloader_init target) ≠ Done Returned) as Hinit.
  { unfold Loader.stloader_init. repeat (case_match || case_decide); done. }
  assert (staging (stloader_init target) =
    if target_cpu target then NotAllocated
    else match malloc_block world with Some _ => Allocated | None => NotAllocated end)
    as Hst.
  { unfold Loader.stloader_init. repeat (case_match || case_decide); done. }
  destruct (target_cpu target) eqn:Hcpu.
  - destruct Hnf as [->|[_ Hsome]]; [done|].
    apply Hdev in Hsome. done.
  - unfold staging_of. destruct (malloc_block world) as [blk|] eqn:Hblk.
    + destruct Hnf as [Hnf|[Hret Hsome]].
      * rewrite Hnf, Hst.
        destruct (pc (run cfg world offset size sched (stloader_init target)))
          as [| | |[| |]] eqn:Hpc; try done.
        rewrite <- Hst, <- Hnf. apply Hfr; [done|done|]. by apply Hdev.
      * rewrite Hret. by apply Hfr.
    + destruct Hnf as [->|[Hret _]]; [done|].
      exfalso. revert Hret.
      rewrite (run_done _ _ _ _ _ _ (Raised "Can't allocate buffer for tensor")); [done|].
      unfold Loader.stloader_init. by rewrite Hcpu, Hblk.
Qed.

(** X12: in every state of every run, each byte of the target is the byte
    it was before the call or the byte of the file that belongs there, and
    the bytes beyond the segment are the bytes they were: what the heap
    left in the staging block never reaches the target. *)
Theorem target_bytes_old_or_file target sched :
  valid_call → buffers_fit target →
  old_or_file world offset size (target_data target)
    (target_now (stloader_read target sched)).
Proof.
  intros Hv Hf.
  pose proof (init_inv cfg world offset size Hv target Hf) as HI.
  destruct (init_buffers target) as (Hnow & Hcpu & Hdev & Hts & Hcs & Hdq & _).
  set (st0 := stloader_init target) in *.
  assert (Mix world offset size (load_buffer st0) (cuda_buffer st0) st0) as HM0.
  { split.
    - apply old_or_file_refl.
    - destruct (cuda_buffer st0); constructor. apply old_or_file_refl.
    - intros i a b Hi. by rewrite Hts in Hi.
    - by rewrite Hdq, Hcs. }
  pose proof (run_mix cfg world offset size Hv _ _ sched st0 HI HM0) as [Hb Hd _ _].
  unfold Loader.stloader_read, target_now in *. fold st0.
  destruct (target_cpu target).
  - rewrite (Hcpu eq_refl) in *. inversion Hd as [|Heq1 Heq2]. by rewrite <- Hnow.
  - rewrite (Hdev eq_refl) in *. inversion Hd as [? dev Hold Heq1 Heq2|]. done.
Qed.

(** X13: a call for an empty segment is a no-op, with or without the file:
    under every schedule it reads nothing, queues and copies nothing and
    leaves the target as it was, it ends in no error but that of the
    allocation, and once the staging block is there some schedule makes it
    return. *)
Theorem empty_segment_is_noop target :
  STLOADER_THREADS cfg ≠ 0 →
  (∀ sched,
     file_reads (Loader.stloader_read cfg world offset 0 target sched) = [] ∧
     pushed (Loader.stloader_read cfg world offset 0 target sched) = [] ∧
     copied (Loader.stloader_read cfg world offset 0 target sched) = [] ∧
     target_now (Loader.stloader_read cfg world offset 0 target sched) =
       target_data target ∧
     ∀ o, pc (Loader.stloader_read cfg world offset 0 target sched) = Done o →
       o = Returned ∨ o = Raised "Can't allocate buffer for tensor") ∧
  (target_cpu target = true ∨ is_Some (malloc_block world) →
     ∃ sched, pc (Loader.stloader_read cfg world offset 0 target sched) = Done Returned).
Proof.
  intros HT. pose proof (init_quiet cfg world target HT) as Hq0. split.
  - intros sched. unfold Loader.stloader_read.
    destruct (run_quiet cfg world offset sched _ Hq0)
      as ((Hfr & Hpu & Hco & _ & _ & _ & _ & _ & Hpc) & Hlb & Hcu).
    split; [done|]. split; [done|]. split; [done|]. split.
    + destruct (init_buffers target) as (Hnow & _). rewrite <- Hnow.
      unfold target_now. by rewrite Hlb, Hcu.
    + intros o Ho. by rewrite Ho in Hpc.
  - intros Hok. apply empty_returns; [done|]. by apply init_running.
Qed.

(** X14: whatever fails, every range a load worker queues, and every range
    a copy worker copies, is a block of the segment: it starts inside the
    segment at a multiple of the block size and ends one block further or
    at the end of the segment. *)
Theorem pushed_blocks_are_aligned target sched :
  valid_call → buffers_fit target →
  Forall (is_block cfg size) (pushed (stloader_read target sched)) ∧
  Forall (is_block cfg size) (copied (stloader_read target sched)).
Proof.
  intros Hv Hf.
  pose proof (init_inv cfg world offset size Hv target Hf) as HI.
  destruct (init_buffers target) as (_ & _ & _ & _ & _ & _ & Hpu).
  assert (Forall (is_block cfg size) (pushed (stloader_read target sched))) as Hblocks.
  { apply (run_blocks cfg world offset size Hv); [done|]. by rewrite Hpu. }
  split; [done|].
  pose proof (run_in_flight cfg world offset size sched _ (init_in_flight cfg world target))
    as Hin.
  apply Forall_forall. intros r Hr.
  apply (proj1 (Forall_forall _ _) Hblocks).
  apply (elem_of_submseteq _ _ r) in Hin; [done|].
  apply elem_of_app. by left.
Qed.

(** X15: in every state of every run, the blocks copied, those a copy
    worker holds and those in the queue are, counted as often as they occur,
    among the blocks the load workers pushed: no block is copied that was
    not queued, and none more often than it was queued. *)
Theorem copied_blocks_were_pushed target sched :
  copied (stloader_read target sched) ++
  holding (copy_threads (stloader_read target sched)) ++
  dq (stloader_read target sched) ⊆+ pushed (stloader_read target sched).
Proof. apply run_in_flight, init_in_flight. Qed.



(** X18: once the chunk readers are joined, the call has
    min(STLOADER_THREADS, ceil(size / STLOADER_BLOCK_SIZE)) load workers,
    and STLOADER_COPY_THREADS copy workers for a target off the CPU and none
    for a target on it. *)
Theorem worker_pools_sizes target sched :
  valid_call →
  pc (stloader_read target sched) = JoinLoad ∨
  pc (stloader_read target sched) = JoinCopy ∨
  pc (stloader_read target sched) = Done Returned →
  length (threads (stloader_read target sched)) = Z.to_nat (load_workers cfg size) ∧
  length (copy_threads (stloader_read target sched)) =
    if target_cpu target then 0%nat else Z.to_nat (STLOADER_COPY_THREADS cfg).
Proof.
  intros Hv Hpc.
  pose proof (run_pools cfg world offset size Hv sched _
    (init_pools cfg world size target)) as Hp.
  fold (stloader_read target sched) in Hp.
  assert (pools_of cfg size (stloader_read target sched)) as [Hl Hc].
  { unfold pools in Hp. by destruct Hpc as [Heq|[Heq|Heq]]; rewrite Heq in Hp. }
  split; [done|]. rewrite Hc.
  pose proof (run_device cfg world offset size sched (stloader_init target)) as Hdev.
  rewrite init_device in Hdev. fold (stloader_read target sched) in Hdev.
  destruct (cuda_buffer (stloader_read target sched)) as [dev|].
  - rewrite (proj1 Hdev); [done|by eexists].
  - destruct (target_cpu target); [done|].
    by destruct (proj2 Hdev eq_refl).
Qed.

(** X19: in every state of every run, the notifications sent are one
    [notify_one] for each block queued, and behind them the one [notify_all]
    of line 261 once the load workers are joined. *)
Theorem notifications_follow_blocks target sched :
  notified (stloader_read target sched) = notifications (stloader_read target sched).
Proof. apply run_notified, init_notified. Qed.

End Properties.

(** *** The same on the example call *)

Lemma example_short_call_valid : valid_call example_config 8 10.
Proof. unfold valid_call. simpl. lia. Defined.

Lemma example_file_is_short : ¬ holds_segment example_world 8 10.
Proof. intros (file & Hfile & Hlen). injection Hfile as <-. simpl in Hlen. lia. Defined.

Lemma example_copy_fails_fit target :
  length (target_data target) = 10%nat → buffers_fit example_copy_fails 10 target.
Proof.
  intros Hlen. split; [rewrite Hlen; lia|]. intros blk [= <-]. simpl. lia.
Defined.

Lemma buffer_accesses_stay_inside_witness :
  pc (stloader_read example_config example_world 2 10 example_device_target
        (round_robin example_config 12)) ≠ Done Undefined ∧
  Forall (in_segment 10) (file_reads (stloader_read example_config example_world 2 10
    example_device_target (round_robin example_config 12))) ∧
  Forall (in_segment 10) (copied (stloader_read example_config example_world 2 10
    example_device_target (round_robin example_config 12))) ∧
  10 ≤ Z.of_nat (length (target_now (stloader_read example_config example_world 2 10
    example_device_target (round_robin example_config 12)))) ∧
  (target_cpu example_device_target = true ∨ is_Some (malloc_block example_world) →
     10 ≤ Z.of_nat (length (load_buffer (stloader_read example_config example_world 2 10
       example_device_target (round_robin example_config 12))))).
Proof.
  apply (buffer_accesses_stay_inside example_config example_world 2 10
    example_device_target (round_robin example_config 12)).
  - exact example_call_valid.
  - by apply example_buffers_fit.
Defined.

Lemma short_file_fails_in_first_pass_witness :
  (∀ sched,
     first_pass (stloader_read example_config example_world 8 10 example_device_target
       sched) ∧
     (target_cpu example_device_target = false →
        target_now (stloader_read example_config example_world 8 10
          example_device_target sched) = target_data example_device_target)) ∧
  (target_cpu example_device_target = true ∨ is_Some (malloc_block example_world) →
     ∃ sched, pc (stloader_read example_config example_world 8 10 example_device_target
       sched) = Done (Raised "Parallel file read failed")).
Proof.
  apply (short_file_fails_in_first_pass example_config example_world 8 10
    example_device_target).
  - exact example_short_call_valid.
  - by apply example_buffers_fit.
  - lia.
  - exact example_file_is_short.
Defined.

Lemma target_bytes_old_or_file_witness :
  old_or_file example_world 2 10 (target_data example_device_target)
    (target_now (stloader_read example_config example_world 2 10 example_device_target
       (round_robin example_config 5))).
Proof.
  apply (target_bytes_old_or_file example_config example_world 2 10
    example_device_target (round_robin example_config 5)).
  - exact example_call_valid.
  - by apply example_buffers_fit.
Defined.

Lemma empty_segment_is_noop_witness :
  (∀ sched,
     file_reads (stloader_read example_config example_no_file 2 0 example_device_target
       sched) = [] ∧
     pushed (stloader_read example_config example_no_file 2 0 example_device_target
       sched) = [] ∧
     copied (stloader_read example_config example_no_file 2 0 example_device_target
       sched) = [] ∧
     target_now (stloader_read example_config example_no_file 2 0 example_device_target
       sched) = target_data example_device_target ∧
     ∀ o, pc (stloader_read example_config example_no_file 2 0 example_device_target
       sched) = Done o →
       o = Returned ∨ o = Raised "Can't allocate buffer for tensor") ∧
  (target_cpu example_device_target = true ∨ is_Some (malloc_block example_no_file) →
     ∃ sched, pc (stloader_read example_config example_no_file 2 0 example_device_target
       sched) = Done Returned).
Proof.
  apply (empty_segment_is_noop example_config example_no_file 2 example_device_target).
  simpl. lia.
Defined.

Lemma pushed_blocks_are_aligned_witness :
  Forall (is_block example_config 10)
    (pushed (stloader_read example_config example_copy_fails 2 10 example_device_target
       (round_robin example_config 12))) ∧
  Forall (is_block example_config 10)
    (copied (stloader_read example_config example_copy_fails 2 10 example_device_target
       (round_robin example_config 12))).
Proof.
  apply (pushed_blocks_are_aligned example_config example_copy_fails 2 10
    example_device_target (round_robin example_config 12)).
  - exact example_call_valid.
  - by apply example_copy_fails_fit.
Defined.



Lemma worker_pools_sizes_witness :
  length (threads (stloader_read (mkConfig 4 3 1) example_world 2 4
    (mkTarget true (replicate 4 xee)) (round_robin (mkConfig 4 3 1) 8))) =
    Z.to_nat (load_workers (mkConfig 4 3 1) 4) ∧
  length (copy_threads (stloader_read (mkConfig 4 3 1) example_world 2 4
    (mkTarget true (replicate 4 xee)) (round_robin (mkConfig 4 3 1) 8))) =
    if target_cpu (mkTarget true (replicate 4 xee)) then 0%nat
    else Z.to_nat (STLOADER_COPY_THREADS (mkConfig 4 3 1)).
Proof.
  apply (worker_pools_sizes (mkConfig 4 3 1) example_world 2 4
    (mkTarget true (replicate 4 xee)) (round_robin (mkConfig 4 3 1) 8)).
  - unfold valid_call. simpl. lia.
  - right. right. vm_compute. reflexivity.
Defined.

(** The run of the example with the failing copy: the block at 0 is copied,
    the copy of the block at 3 fails, the blocks read before the flag was
    seen stay in the queue, and the call ends with the error of line 278
    and the staging block still allocated. *)
Example failed_copy_ends_the_call :
  pc (stloader_read example_config example_copy_fails 2 10 example_device_target
        (round_robin example_config 12)) = Done (Raised "I/O error reading tensor") ∧
  copied (stloader_read example_config example_copy_fails 2 10 example_device_target
        (round_robin example_config 12)) = [(0, 3)] ∧
  dq (stloader_read example_config example_copy_fails 2 10 example_device_target
        (round_robin example_config 12)) = [(6, 9); (9, 10)] ∧
  staging (stloader_read example_config example_copy_fails 2 10 example_device_target
        (round_robin example_config 12)) = Allocated.
Proof. vm_compute. done. Qed.

End LoaderRunsProofs.
